(** * Gosper's continued fractions (cf.py): a shallow embedding

    The module computes with regular continued fractions, produced lazily
    as streams of partial quotients.  A partial quotient is an integer or
    [None], the end marker (an "infinite" quotient).  Python generators are
    modelled as step functions on an explicit state: one call of the step
    function runs the generator from one suspension point (or loop head)
    to the next one.  Python's [//] and [%] on integers are floor division
    and the remainder with the sign of the divisor, which is what [Z.div]
    and [Z.modulo] compute. *)

From Stdlib Require Import ZArith List Bool Lia QArith Qfield.
From Equations Require Import Equations.
Import ListNotations.
Local Open Scope Z_scope.

(** ** Partial quotients and generators *)

(** [None] is Python's [None]: the end of the continued fraction. *)
Definition quotient := option Z.

(** [x == y] on values that are integers or [None]. *)
Definition quotient_eqb (x y : quotient) : bool :=
  match x, y with
  | Some p, Some q => p =? q
  | None, None => true
  | _, _ => false
  end.

(** Truth value of an integer in a condition ([if c:], [while y:]). *)
Definition truthy (z : Z) : bool := negb (z =? 0).

(** What a generator does when it is resumed. *)
Inductive resume (O St : Type) : Type :=
| Yield (v : O) (s : St)   (* [yield v], suspended in state [s] *)
| Silent (s : St)          (* reached the loop head again without a yield *)
| Return                   (* the generator body ended *)
| Raise.                   (* an exception left the generator *)
Arguments Yield {O St} v s.
Arguments Silent {O St} s.
Arguments Return {O St}.
Arguments Raise {O St}.

(** The stream a consumer sees through [cf_base.pq]: the values yielded
    one after the other, up to and including the first [None].  After a
    [None], [pq] deletes [next_pq], so the generator is never resumed. *)
Fixpoint observe {St : Type} (step : St -> resume quotient St)
    (fuel : nat) (s : St) : list quotient :=
  match fuel with
  | O => []
  | S n =>
      match step s with
      | Yield None _ => [None]
      | Yield (Some q) s' => Some q :: observe step n s'
      | Silent s' => observe step n s'
      | Return => []
      | Raise => []
      end
  end.

(** The first value a generator yields ([pq(0)] of the value it backs),
    if it yields one within [fuel] resumptions. *)
Fixpoint first_yield {O St : Type} (step : St -> resume O St)
    (fuel : nat) (s : St) : option O :=
  match fuel with
  | O => None
  | S n =>
      match step s with
      | Yield v _ => Some v
      | Silent s' => first_yield step n s'
      | Return => None
      | Raise => None
      end
  end.

(** A generator whose next yield is the end marker. *)
Definition ends_at_once {St : Type} (step : St -> resume quotient St) (s : St)
    : Prop :=
  exists fuel, first_yield step fuel s = Some None.

(** ** The rational source: [ratio] in [cf.__new__] *)

Module Ratio.

(** The generator [ratio(x, y)]:
<<
    while y:
        x_div_y, x_mod_y = divmod(x, y)
        yield int(x_div_y)
        x, y = y, x_mod_y
    yield None
>> *)
Inductive state :=
| Loop (x y : Z)
| Done.

Definition step (s : state) : resume quotient state :=
  match s with
  | Loop x y =>
      if truthy y then Yield (Some (x / y)) (Loop y (x mod y))
      else Yield None Done
  | Done => Return
  end.

End Ratio.

(** The finite partial quotients [ratio(x, y)] yields before [None], as
    a total function: the loop [while y: ... x, y = y, x % y] ends
    because [|y|] decreases. *)
Equations? ratio (x y : Z) : list Z by wf (Z.abs_nat y) lt :=
  ratio x y with Z.eq_dec y 0 => {
    | left _ => [];
    | right _ => (x / y) :: ratio y (x mod y) }.
Proof.
  pose proof (Z.mod_bound_or x y ltac:(assumption)). lia.
Qed.

(** The value of a finite regular continued fraction
    [a0 + 1/(a1 + 1/(a2 + ...))], as a rational number. *)
Fixpoint cf_value (qs : list Z) : Q :=
  match qs with
  | [] => 0%Q
  | [a] => inject_Z a
  | a :: rest => (inject_Z a + / cf_value rest)%Q
  end.

(** ** The homographic engine: [_cf_homographic] *)

Module Homographic.

(** [ac, bd]: the floors of [z(infinity) = a/c] and [z(0) = b/d] as the
    head of the loop computes them; [None] stands for an infinite value.
<<
    if c:
        ac = a//c
        if d: bd = b//d
        elif b: bd = None
        else: bd = ac
    elif d:
        if a: ac = None; bd = 0
        else: ac = bd = b//d
    else: ac = bd = None
>> *)
Definition corners (a b c d : Z) : quotient * quotient :=
  if truthy c then
    let ac := a / c in
    if truthy d then (Some ac, Some (b / d))
    else if truthy b then (Some ac, None)
    else (Some ac, Some ac)
  else if truthy d then
    if truthy a then (None, Some 0)
    else (Some (b / d), Some (b / d))
  else (None, None).

Inductive state :=
| Loop (nx : nat) (a b c d : Z)  (* at the head of [while 1:] *)
| Tail (nx : nat) (a b c d : Z)  (* at the head of [while c:]: x has ended *)
| Fault.  (* suspended at [yield ac] with [ac] None: the assignment that
             follows multiplies an integer by None, a TypeError *)

(** One resumption of [_cf_homographic(nx, x_pq, a, b, c, d)]. *)
Definition step (x_pq : nat -> quotient) (s : state) : resume quotient state :=
  match s with
  | Loop nx a b c d =>
      let '(ac, bd) := corners a b c d in
      if quotient_eqb ac bd then
        match ac, bd with
        | Some ac, Some bd =>
            Yield (Some ac) (Loop nx c d (a - c * ac) (b - d * bd))
        | _, _ => Yield None Fault
        end
      else
        match x_pq nx with
        | Some ac => Silent (Loop (S nx) (b + a * ac) a (d + c * ac) c)
        | None => Silent (Tail (S nx) a b c d)
        end
  | Tail nx a b c d =>
      if truthy c then Yield (Some (a / c)) (Tail nx c b (a mod c) d)
      else Yield None (Loop nx a b c d)
  | Fault => Raise
  end.

(** The turn of the loop as the specification words it, to compare with
    [step]: a corner is undefined as soon as its denominator is zero, a
    quotient is emitted only when both corners are defined and equal, and
    x is polled in every other case. *)
Definition corner_as_specified (num den : Z) : quotient :=
  if truthy den then Some (num / den) else None.

Definition step_as_specified (x_pq : nat -> quotient) (nx : nat) (a b c d : Z)
    : resume quotient state :=
  let pulled :=
    match x_pq nx with
    | Some q => Silent (Loop (S nx) (b + a * q) a (d + c * q) c)
    | None => Silent (Tail (S nx) a b c d)
    end in
  match corner_as_specified a c, corner_as_specified b d with
  | Some q, Some q' =>
      if q =? q' then Yield (Some q) (Loop nx c d (a - c * q) (b - d * q))
      else pulled
  | _, _ => pulled
  end.

End Homographic.

(** ** The bihomographic engine: [_cf_bihomographic] *)

Module Bihomographic.

(** The coefficients of
    [z(x,y) = (a*x*y + b*x + c*y + d)/(e*x*y + f*x + g*y + h)]. *)
Record coeffs := Coeffs { a : Z; b : Z; c : Z; d : Z; e : Z; f : Z; g : Z; h : Z }.

(** The local variables that outlive one turn of the loop. *)
Record regs := Regs {
  nx : nat;             (* quotients requested from x_pq *)
  ny : nat;             (* quotients requested from y_pq *)
  iters_left : Z;
  allowed_iters : Z;    (* max_iters, read when the generator starts *)
  co : coeffs }.

(** What the first half of a turn computes. [bf] and [cg] are read only
    when [ingest_x] is None, and then they were assigned in this turn. *)
Record bounds := Bounds {
  lower : quotient; upper : quotient;
  bf : quotient; cg : quotient; dh : quotient;
  ingest_x : option bool }.

(** [(lower is None) or (v < lower)] *)
Definition below (v : Z) (lower : quotient) : bool :=
  match lower with None => true | Some l => v <? l end.

(** [(upper is not None) and (v > upper)] *)
Definition above (v : Z) (upper : quotient) : bool :=
  match upper with None => false | Some u => v >? u end.

(** The four corner values and the bounds on the next quotient, from
    [if e:] down to the assignment of [dh]. *)
Definition corner_bounds (k : coeffs) : bounds :=
  let '(Coeffs a b c d e f g h) := k in
  let '(lower, upper, any_results) :=
    if truthy e then (Some (a / e), Some (a / e), true)
    else (None, None, truthy a) in
  let '(lower, upper, any_results, bf, ingest_x) :=
    if truthy f then
      let bf := b / f in
      if negb any_results then (Some bf, Some bf, any_results, Some bf, None)
      else if below bf lower then (Some bf, upper, any_results, Some bf, None)
      else (lower, Some bf, any_results, Some bf, None)
    else if truthy b then (lower, None, true, None, None)
    else (lower, upper, any_results, None, Some false) in
  let '(lower, upper, any_results, cg, ingest_x) :=
    if truthy g then
      let cg := c / g in
      if negb any_results then (Some cg, Some cg, any_results, Some cg, ingest_x)
      else if below cg lower then (Some cg, upper, any_results, Some cg, ingest_x)
      else if above cg upper then (lower, Some cg, any_results, Some cg, ingest_x)
      else (lower, upper, any_results, Some cg, ingest_x)
    else if truthy c then (lower, None, true, None, ingest_x)
    else (lower, upper, any_results, None, Some true) in
  let '(lower, upper, dh) :=
    if truthy h then
      let dh := d / h in
      if negb any_results then (Some dh, Some dh, Some dh)
      else if below dh lower then (Some dh, upper, Some dh)
      else if above dh upper then (lower, Some dh, Some dh)
      else (lower, upper, Some dh)
    else if truthy d then (lower, None, None)
    else (lower, upper, Some 0) in
  Bounds lower upper bf cg dh ingest_x.

(** [(upper is None) or (lower == upper - 1)] *)
Definition undecided (bd : bounds) : bool :=
  match upper bd with
  | None => true
  | Some u => quotient_eqb (lower bd) (Some (u - 1))
  end.

(** The cascade under [if ingest_x is None:], which avoids [abs()]. *)
Definition choose_input (bd : bounds) : bool :=
  match ingest_x bd with
  | Some v => v
  | None =>
      match bf bd, cg bd, dh bd with
      | None, _, dh => match dh with Some _ => true | None => false end
      | Some _, None, dh => match dh with Some _ => false | None => true end
      | Some bf, Some cg, None =>
          if bf >? 0 then
            if cg >? 0 then bf <? cg else bf <? - cg
          else
            if cg >? 0 then - bf <? cg else bf >? cg
      | Some bf, Some cg, Some dh =>
          if bf >? dh then
            if cg >? dh then bf >? cg else bf - dh >? dh - cg
          else
            if cg >? dh then dh - bf >? cg - dh else cg >? bf
      end
  end.

(** The same decision as the comment of the source words it:
    [ingest_x = (abs(bf-dh) > abs(cg-dh))]. *)
Definition naive_choice (bf cg dh : Z) : bool :=
  Z.abs (bf - dh) >? Z.abs (cg - dh).

Inductive state :=
| Loop (r : regs)      (* at the head of [while 1:] *)
| Cut (r : regs)       (* suspended at [yield upper] of the give-up branch *)
| Poll (r : regs)      (* suspended at the [yield None] that follows it *)
| OverY (r : regs) (s : Homographic.state)
                       (* in [for bf in _cf_homographic(ny, y_pq, a, b, e, f)] *)
| OverX (r : regs) (s : Homographic.state)
                       (* in [for bf in _cf_homographic(nx, x_pq, a, c, e, g)] *)
| Fault.  (* suspended at [yield upper] with [lower == upper == None]: the
             assignment that follows multiplies an integer by None *)

Definition with_coeffs (r : regs) (il : Z) (k : coeffs) : regs :=
  Regs (nx r) (ny r) il (allowed_iters r) k.

(** The coefficients after the quotient [q] was output. *)
Definition emitted (k : coeffs) (q : Z) : coeffs :=
  let '(Coeffs a b c d e f g h) := k in
  Coeffs e f g h (a - e * q) (b - f * q) (c - g * q) (d - h * q).

(** The coefficients after the quotient [q] of x, of y, was ingested. *)
Definition ingested_x (k : coeffs) (q : Z) : coeffs :=
  let '(Coeffs a b c d e f g h) := k in
  Coeffs (c + a * q) (d + b * q) a b (g + e * q) (h + f * q) e f.

Definition ingested_y (k : coeffs) (q : Z) : coeffs :=
  let '(Coeffs a b c d e f g h) := k in
  Coeffs (b + a * q) a (d + c * q) c (f + e * q) e (h + g * q) g.

(** The second half of a turn: poll x or y and fold the quotient in, or
    hand over to the homographic engine when the polled input has ended. *)
Definition poll (x_pq y_pq : nat -> quotient) (r : regs) : resume quotient state :=
  let k := co r in
  if choose_input (corner_bounds k) then
    match x_pq (nx r) with
    | Some q =>
        Silent (Loop (Regs (S (nx r)) (ny r) (iters_left r) (allowed_iters r)
                           (ingested_x k q)))
    | None =>
        let r' := Regs (S (nx r)) (ny r) (iters_left r) (allowed_iters r) k in
        Silent (OverY r' (Homographic.Loop (ny r) (a k) (b k) (e k) (f k)))
    end
  else
    match y_pq (ny r) with
    | Some q =>
        Silent (Loop (Regs (nx r) (S (ny r)) (iters_left r) (allowed_iters r)
                           (ingested_y k q)))
    | None =>
        let r' := Regs (nx r) (S (ny r)) (iters_left r) (allowed_iters r) k in
        Silent (OverX r' (Homographic.Loop (nx r) (a k) (c k) (e k) (g k)))
    end.

(** A resumption of the generator nested in a [for ...: yield bf]. *)
Definition nested (wrap : Homographic.state -> state) (r : regs)
    (res : resume quotient Homographic.state) : resume quotient state :=
  match res with
  | Yield v s => Yield v (wrap s)
  | Silent s => Silent (wrap s)
  | Return => Silent (Loop r)
  | Raise => Raise
  end.

(** One resumption of [_cf_bihomographic(x_pq, y_pq, a, ..., h)]. *)
Definition step (x_pq y_pq : nat -> quotient) (s : state) : resume quotient state :=
  match s with
  | Loop r =>
      let bd := corner_bounds (co r) in
      if quotient_eqb (lower bd) (upper bd) then
        match upper bd with
        | Some q =>
            Yield (Some q) (Loop (with_coeffs r (allowed_iters r) (emitted (co r) q)))
        | None => Yield None Fault
        end
      else if undecided bd then
        if truthy (iters_left r) then
          poll x_pq y_pq (with_coeffs r (iters_left r - 1) (co r))
        else Yield (upper bd) (Cut r)
      else poll x_pq y_pq r
  | Cut r => Yield None (Poll r)
  | Poll r => poll x_pq y_pq r
  | OverY r s => nested (OverY r) r (Homographic.step y_pq s)
  | OverX r s => nested (OverX r) r (Homographic.step x_pq s)
  | Fault => Raise
  end.

(** The state in which the generator starts. *)
Definition start (max_iters : Z) (k : coeffs) : state :=
  Loop (Regs 0 0 max_iters max_iters k).

(** The coefficients the engine can reach from [x + y] ([sign] is 1) and
    [x - y] ([sign] is -1) while it has polled x only. *)
Definition sum_shape (sign : Z) (k : coeffs) : Prop :=
  e k = 0 /\ g k = 0 /\ a k = sign * f k /\ c k = sign * h k
  /\ (a k <> 0 \/ c k <> 0).

(** [turns] successive turns of the loop from its head in [r], none of
    which yields or leaves the loop: how many of them found the bracket
    undecided, and the registers at the head of the next turn. *)
Fixpoint idle_turns (x_pq y_pq : nat -> quotient) (turns : nat) (r : regs)
    : option (nat * regs) :=
  match turns with
  | O => Some (0%nat, r)
  | S t =>
      match step x_pq y_pq (Loop r) with
      | Silent (Loop r') =>
          match idle_turns x_pq y_pq t r' with
          | Some (n, r'') =>
              Some (if undecided (corner_bounds (co r)) then S n else n, r'')
          | None => None
          end
      | _ => None
      end
  end.

End Bihomographic.

(** Proof steps for one turn of the engine: unfold the poll, rewrite the
    input selection with the equation [selection], and evaluate the tests
    on the literals 0 and 1. *)
Ltac open_poll selection :=
  unfold Bihomographic.poll;
  cbn [Bihomographic.co Bihomographic.with_coeffs Bihomographic.nx
       Bihomographic.ny Bihomographic.iters_left Bihomographic.allowed_iters];
  rewrite selection;
  cbn [Bihomographic.a Bihomographic.b Bihomographic.c Bihomographic.d
       Bihomographic.e Bihomographic.f Bihomographic.g Bihomographic.h];
  change (truthy 0) with false; change (truthy 1) with true.

(** Replace the test of [t], known to be nonzero, by [true]. *)
Ltac know_truthy t :=
  replace (truthy t) with true
    by (symmetry; unfold truthy; destruct (Z.eqb_spec t 0); [nia | reflexivity]).

(** ** Digit emission: [digits] *)

Module Digits.

Inductive state :=
| Loop (a b c d : Z) (output_digits : bool) (nx : nat)
                       (* at the head of [while a or b:] *)
| Last                 (* suspended at the final [yield 0] *)
| Fault.

(** [ac, bd] at the head of the loop; [None] for the [return] taken when
    both [c] and [d] are zero. *)
Definition corners (a b c d : Z) : option (quotient * quotient) :=
  if truthy c then
    let ac := a / c in
    if truthy d then Some (Some ac, Some (b / d))
    else if truthy b then Some (Some ac, None)
    else Some (Some ac, Some ac)
  else if truthy d then
    if truthy a then Some (None, Some 0)
    else Some (Some (b / d), Some (b / d))
  else None.

(** One resumption of [digits(x, base)]. *)
Definition step (base : Z) (x_pq : nat -> quotient) (s : state)
    : resume quotient state :=
  match s with
  | Loop a b c d output_digits nx =>
      if truthy a || truthy b then
        match corners a b c d with
        | None => Return
        | Some (ac, bd) =>
            if quotient_eqb ac bd then
              match ac, bd with
              | Some ac, Some bd =>
                  Yield (Some ac)
                        (Loop (base * (a - c * ac)) (base * (b - d * bd)) c d true nx)
              | _, _ => Yield None Fault
              end
            else
              match x_pq nx with
              | Some ac => Silent (Loop (b + a * ac) a (d + c * ac) c output_digits (S nx))
              | None => Silent (Loop a a c c output_digits (S nx))
              end
        end
      else if output_digits then Return
      else Yield (Some 0) Last
  | Last => Return
  | Fault => Raise
  end.

(** [a, b, c, d, output_digits, nx = 1, 0, 0, 1, 0, 0] *)
Definition start : state := Loop 1 0 0 1 false 0.

(** The stopping condition as the specification words it, to compare
    with [step]: the numerator row [(a, b)] and the denominator row
    [(c, d)] are both zero. *)
Definition stops_as_specified (s : state) : bool :=
  match s with
  | Loop a b c d _ _ => (a =? 0) && (b =? 0) && (c =? 0) && (d =? 0)
  | Last => false
  | Fault => false
  end.

(** The digits the generator yields until it ends, within [fuel]
    resumptions. *)
Fixpoint run (base : Z) (x_pq : nat -> quotient) (fuel : nat) (s : state)
    : list quotient :=
  match fuel with
  | O => []
  | S n =>
      match step base x_pq s with
      | Yield v s' => v :: run base x_pq n s'
      | Silent s' => run base x_pq n s'
      | Return => []
      | Raise => []
      end
  end.

End Digits.

(** ** Sources with a closed form *)

(** [cf(sequence)]: the quotients of the sequence, then [None]. *)
Definition fixed_pqs (x : list Z) (n : nat) : quotient := nth_error x n.

(** [cf(sequence, sequence)]: the quotients of [x], then [y] for ever. *)
Definition fixed_pqs_closure (x y : list Z) (n : nat) : quotient :=
  if (n <? length x)%nat then nth_error x n
  else nth_error y ((n - length x) mod length y)%nat.

(** [NaN = cf(())]: no quotient at all. *)
Definition NaN : nat -> quotient := fixed_pqs [].

(** The [pq] of the value backed by [ratio(k, 1)] run on the integer [k]
    itself: what [cf(k)] builds for a plain int [k].  A long [k] is first
    replaced by [float(k)]; [cf_number], below, has both cases. *)
Definition cf_int (k : Z) (n : nat) : quotient := nth_error (ratio k 1) n.

(** [e = _cf_exp_1n(1)]:
<<
    def e_pq(index):
        if index%3 == 2: return 2*(index//3) + 2
        elif index: return 1
        else: return 2
>> *)
Definition e_pq (index : nat) : quotient :=
  let i := Z.of_nat index in
  if i mod 3 =? 2 then Some (2 * (i / 3) + 2)
  else if truthy i then Some 1
  else Some 2.

(** ** Comparison: [cf_base.__cmp__] *)

(** The right operand of an operator: an integer, or a value known by
    its [pq]. *)
Inductive operand :=
| OInt (k : Z)
| OCf (pq : nat -> quotient).

(** [cf(other).pq] *)
Definition operand_pq (other : operand) : nat -> quotient :=
  match other with
  | OInt k => cf_int k
  | OCf pq => pq
  end.

(** What [__cmp__] returns: an int, a long (the source returns [0L] for
    the heuristic equality), a bool, or the ValueError it raises. *)
Inductive cmp_result :=
| CmpInt (z : Z)
| CmpLong (z : Z)
| CmpBool (v : bool)
| CmpValueError.

(** [long(x).__cmp__(long(y))] *)
Definition long_cmp (x y : Z) : Z :=
  match x ?= y with
  | Lt => -1
  | Eq => 0
  | Gt => 1
  end.

(** [1-2*(i&1)] *)
Definition alternate (i : nat) : Z := 1 - 2 * Z.land (Z.of_nat i) 1.

(** The [for i in xrange(max_iters/2)] loop with [n] turns left, the
    [return 0L] after it included. *)
Fixpoint cmp_loop (self_pq other_pq : nat -> quotient) (n i : nat) : cmp_result :=
  match n with
  | O => CmpLong 0
  | S n' =>
      match self_pq i, other_pq i with
      | None, None => CmpInt 0
      | None, Some other_pq_i => CmpInt (alternate i * long_cmp other_pq_i 0)
      | Some self_pq_i, None => CmpInt (alternate i * long_cmp 0 self_pq_i)
      | Some self_pq_i, Some other_pq_i =>
          let cmp := long_cmp self_pq_i other_pq_i in
          if truthy cmp then CmpInt (alternate i * cmp)
          else cmp_loop self_pq other_pq n' (S i)
      end
  end.

Definition cmp (max_iters : Z) (self_pq : nat -> quotient) (other : operand)
    : cmp_result :=
  match self_pq 0%nat, other with
  | Some self_pq_0, OInt k =>
      let cmp := long_cmp self_pq_0 k in
      if truthy cmp then CmpInt cmp
      else match self_pq 1%nat with
           | None => CmpInt 0
           | Some self_pq_1 => CmpInt (long_cmp self_pq_1 0)
           end
  | _, _ =>
      let other_pq := operand_pq other in
      match other_pq 0%nat with
      | None =>
          match self_pq 0%nat with
          | None => CmpBool true
          | Some _ => CmpValueError
          end
      | Some _ => cmp_loop self_pq other_pq (Z.to_nat (max_iters / 2)) 0
      end
  end.

(** Both streams still produce a quotient at every index below [n]. *)
Definition live_upto (self_pq other_pq : nat -> quotient) (n : nat) : bool :=
  forallb (fun j => match self_pq j, other_pq j with
                    | Some _, Some _ => true
                    | _, _ => false
                    end) (seq 0 n).

(** Both streams produce the same quotient at every index below [n]. *)
Definition agree_upto (self_pq other_pq : nat -> quotient) (n : nat) : bool :=
  forallb (fun j => match self_pq j, other_pq j with
                    | Some p, Some q => p =? q
                    | _, _ => false
                    end) (seq 0 n).

(** ** Arithmetic operators of [cf_base] *)

(** What an operator returns: an existing value, or a new [unop] or
    [binop] object over the [pq] of its operands. *)
Inductive value :=
| Src (pq : nat -> quotient)
| Unop (x : nat -> quotient) (a b c d : Z)
| Binop (x y : nat -> quotient) (a b c d e f g h : Z).

Definition add (self : nat -> quotient) (other : operand) : value :=
  match other with
  | OInt k => if truthy k then Unop self 1 k 0 1 else Src self
  | OCf y => Binop self y 0 1 1 0 0 0 0 1
  end.

Definition sub (self : nat -> quotient) (other : operand) : value :=
  match other with
  | OInt k => if truthy k then Unop self (-1) k 0 (-1) else Src self
  | OCf y => Binop self y 0 1 (-1) 0 0 0 0 1
  end.

Definition mul (self : nat -> quotient) (other : operand) : value :=
  match other with
  | OInt k =>
      match self 0%nat with
      | None => Src NaN
      | Some _ => if k =? 1 then Src self else Unop self k 0 0 1
      end
  | OCf y => Binop self y 1 0 0 0 0 0 0 1
  end.

Definition div (self : nat -> quotient) (other : operand) : value :=
  match other with
  | OInt k => if k =? 1 then Src self else Unop self 1 0 0 k
  | OCf other_pq =>
      match other_pq 0%nat with
      | None => Src NaN
      | Some divisor =>
          if (divisor =? 0) && (match other_pq 1%nat with None => true | Some _ => false end)
          then Src NaN
          else Binop self other_pq 0 1 0 0 0 0 1 0
      end
  end.

(** The reflected operators, called with an integer on the left. *)
Definition radd (self : nat -> quotient) (other : Z) : value := add self (OInt other).

Definition rsub (self : nat -> quotient) (other : Z) : value := Unop self (-1) other 0 1.

Definition rmul (self : nat -> quotient) (other : Z) : value := mul self (OInt other).

Definition rdiv (self : nat -> quotient) (other : Z) : value :=
  match self 0%nat with
  | None => Src NaN
  | Some _ => Unop self 0 other 1 0
  end.

(** [v.pq(0)], the first partial quotient of a value, if it is produced
    within [fuel] resumptions of the generator behind it. *)
Definition pq0 (max_iters : Z) (fuel : nat) (v : value) : option quotient :=
  match v with
  | Src pq => Some (pq 0%nat)
  | Unop x a b c d =>
      first_yield (Homographic.step x) fuel (Homographic.Loop 0 a b c d)
  | Binop x y a b c d e f g h =>
      first_yield (Bihomographic.step x y) fuel
        (Bihomographic.start max_iters (Bihomographic.Coeffs a b c d e f g h))
  end.

(** A value is "no value" when its first partial quotient is [None]. *)
Definition no_value (max_iters : Z) (v : value) : Prop :=
  exists fuel, pq0 max_iters fuel v = Some None.

(** ** The generator of pi: [_cf_pi._cf_pi_generator] *)

Module Pi.

(** The local [gcd]: [while y: x, y = y, x%y]. *)
Equations? gcd (x y : Z) : Z by wf (Z.abs_nat y) lt :=
  gcd x y with Z.eq_dec y 0 => {
    | left _ => x;
    | right _ => gcd y (x mod y) }.
Proof.
  pose proof (Z.mod_bound_or x y ltac:(assumption)). lia.
Qed.

Inductive state :=
| Start
| Loop (a b c d p q : Z).

(** One resumption of the generator. [divmod] by zero and [//=] by a
    zero gcd raise ZeroDivisionError. *)
Definition step (s : state) : resume quotient state :=
  match s with
  | Start => Yield (Some 3) (Loop 51 6 7 1 16 9)
  | Loop a b c d p q =>
      if (c =? 0) || (d =? 0) then Raise
      else
        let ac := a / c in
        let bd := b / d in
        if ac =? bd then Yield (Some ac) (Loop c d (a mod c) (b mod d) p q)
        else
          let a' := p * b + q * a in
          let b' := a in
          let c' := p * d + q * c in
          let d' := c in
          let p' := p + q in
          let q' := q + 2 in
          if Z.land q' 2047 =? 1 then
            let gcd_abcd := gcd a' (gcd c' (gcd b' d')) in
            if gcd_abcd =? 0 then Raise
            else Silent (Loop (a' / gcd_abcd) (b' / gcd_abcd)
                              (c' / gcd_abcd) (d' / gcd_abcd) p' q')
          else Silent (Loop a' b' c' d' p' q')
  end.

(** The first [n] values the generator yields, within [fuel] resumptions. *)
Fixpoint take (fuel n : nat) (s : state) : list quotient :=
  match fuel, n with
  | O, _ => []
  | _, O => []
  | S fuel', S n' =>
      match step s with
      | Yield v s' => v :: take fuel' n' s'
      | Silent s' => take fuel' n s'
      | Return => []
      | Raise => []
      end
  end.

End Pi.

(** ** Integers given to [cf.__new__] *)

(** A Python 2 integer as the argument of [cf]: a plain [int] or a
    [long].  The test [isinstance(x, (float, int))] of [cf.__new__] holds
    for the first and fails for the second. *)
Inductive number :=
| PyInt (z : Z)
| PyLong (z : Z).

Definition number_value (x : number) : Z :=
  match x with
  | PyInt z => z
  | PyLong z => z
  end.

(** [float(x)] for a long [x], given by the integer that the resulting
    double is: the nearest number with a significand of 53 bits, a tie
    going to the even significand; [None] when that is [2**1024] or more
    and [float] raises OverflowError. *)
Definition float_of_long (x : Z) : option Z :=
  let n := Z.abs x in
  let shift := Z.max 0 (Z.log2 n + 1 - 53) in
  let unit := 2 ^ shift in
  let low := n mod unit in
  let high := n / unit in
  let up := (2 * low >? unit) || ((2 * low =? unit) && Z.odd high) in
  let rounded := (if up then high + 1 else high) * unit in
  if rounded <? 2 ^ 1024 then Some (Z.sgn x * rounded) else None.

(** What [cf(x)] returns for a number: a new value, given by its [pq],
    unless [float] raised. *)
Inductive constructed :=
| Built (pq : nat -> quotient)
| OverflowError.

(** [cf(x)] for an integer [x], with [y] left at None:
<<
    if y is None:
        y = 1
    self.cache = []
    if not isinstance(x,(float,int)):
        x=float(x)
    self.next_pq = ratio(x, y).next
>>
    For a plain int the generator runs on the integers [x] and 1.  For a
    long it runs on the float [f = float(x)] and 1: [f] has no
    fractional part, so [divmod(f, 1)] is [(f, 0.0)], the generator
    yields [int(f)], and [x, y = 1, 0.0] ends its loop. *)
Definition cf_number (x : number) : constructed :=
  match x with
  | PyInt x => Built (fixed_pqs (ratio x 1))
  | PyLong x =>
      match float_of_long x with
      | Some f => Built (fixed_pqs [f])
      | None => OverflowError
      end
  end.

(** The value a function returns: its argument, or [cf(n)] for an
    integer [n] that it computed.  What [cf(n)] builds depends on the
    type, int or long, that [n] has: see [cf_number]. *)
Inductive made :=
| Same (x : nat -> quotient)
| Cf (n : Z).

(** ** Conversions of [cf_base] *)

(** What a conversion returns: a result, or the ValueError raised with
    'NaN detected'. *)
Inductive checked (A : Type) : Type :=
| Value (v : A)
| ValueError.
Arguments Value {A} v.
Arguments ValueError {A}.

(** [x is None] *)
Definition is_None (x : quotient) : bool :=
  match x with None => true | Some _ => false end.

(** [cf_base.__int__]: round towards zero. *)
Definition __int__ (self_pq : nat -> quotient) : checked Z :=
  match self_pq 0%nat with
  | None => ValueError
  | Some self_floor =>
      if (self_floor >=? 0) || is_None (self_pq 1%nat) then Value self_floor
      else Value (self_floor + 1)
  end.

(** [cf_base.__nonzero__] *)
Definition __nonzero__ (self_pq : nat -> quotient) : checked bool :=
  match self_pq 0%nat with
  | None => ValueError
  | Some self_floor =>
      Value (negb (self_floor =? 0) || negb (is_None (self_pq 1%nat)))
  end.

(** The result of [__cmp__] with the operands exchanged, when the
    comparison is antisymmetric. *)
Definition opposite (r : cmp_result) : cmp_result :=
  match r with
  | CmpInt z => CmpInt (- z)
  | CmpLong z => CmpLong (- z)
  | CmpBool v => CmpBool v
  | CmpValueError => CmpValueError
  end.

(** ** Closed forms used by [exp] and [tan] *)

(** [exp_1n_pq_closure] of [_cf_exp_1n], for [inverse_exponent > 1]. *)
Definition exp_1n_pq_closure (inverse_exponent : Z) (index : nat) : quotient :=
  let i := Z.of_nat index in
  if i mod 3 =? 1 then Some ((2 * (i / 3) + 1) * inverse_exponent - 1)
  else Some 1.

(** [tan_1n_pq_closure] of [_cf_tan_1n], for [inverse_argument > 1]. *)
Definition tan_1n_pq_closure (inverse_argument : Z) (index : nat) : quotient :=
  let i := Z.of_nat index in
  if i >? 1 then
    if truthy (i mod 2) then Some (i * inverse_argument - 2) else Some 1
  else if truthy i then Some (inverse_argument - 1)
  else Some 0.

(** [tan_1_pq] of [_cf_tan_1n], for [inverse_argument == 1]. *)
Definition tan_1_pq (index : nat) : quotient :=
  let i := Z.of_nat index in
  if truthy (i mod 2) then Some i else Some 1.

(** ** The values the engines stand for *)

(** [z(x) = (a*x + b)/(c*x + d)], the value [_cf_homographic] stands for
    when [x] is the part of its input not yet consumed. *)
Definition mobius (a b c d : Z) (x : Q) : Q :=
  ((inject_Z a * x + inject_Z b) / (inject_Z c * x + inject_Z d))%Q.

(** The denominator of [z(x)]. *)
Definition mobius_den (c d : Z) (x : Q) : Q := (inject_Z c * x + inject_Z d)%Q.

(** [z(x,y) = (a*x*y + b*x + c*y + d)/(e*x*y + f*x + g*y + h)]. *)
Definition bimobius_num (k : Bihomographic.coeffs) (x y : Q) : Q :=
  (inject_Z (Bihomographic.a k) * x * y + inject_Z (Bihomographic.b k) * x
   + inject_Z (Bihomographic.c k) * y + inject_Z (Bihomographic.d k))%Q.

Definition bimobius_den (k : Bihomographic.coeffs) (x y : Q) : Q :=
  (inject_Z (Bihomographic.e k) * x * y + inject_Z (Bihomographic.f k) * x
   + inject_Z (Bihomographic.g k) * y + inject_Z (Bihomographic.h k))%Q.

Definition bimobius (k : Bihomographic.coeffs) (x y : Q) : Q :=
  (bimobius_num k x y / bimobius_den k x y)%Q.

(** ** The integer square root: [_cf_isqrt] *)

Inductive isqrt_result :=
| Root (r : Z)
| IsqrtValueError           (* the square root of a negative number *)
| IsqrtZeroDivisionError.   (* [x//r1] with [r1] zero *)

(** The loop
<<
    while not (-1 <= (r1-r2) <= 1):
        r1 = (r1 + r2)//2
        r2 = x//r1
    return r1
>>
    with at most [fuel] turns; [None] when they do not suffice. *)
Fixpoint isqrt_loop (fuel : nat) (x r1 r2 : Z) : option isqrt_result :=
  if (-1 <=? r1 - r2) && (r1 - r2 <=? 1) then Some (Root r1)
  else
    match fuel with
    | O => None
    | S n =>
        let r1' := (r1 + r2) / 2 in
        if r1' =? 0 then Some IsqrtZeroDivisionError
        else isqrt_loop n x r1' (x / r1')
    end.

(** [_cf_isqrt(x)]: ValueError for a negative [x], else the loop from
    [r1 = 1], [r2 = x]. *)
Definition _cf_isqrt (fuel : nat) (x : Z) : option isqrt_result :=
  if x <? 0 then Some IsqrtValueError else isqrt_loop fuel x 1 x.

(** ** Memoized partial quotients: [cf_base.pq] *)

Module Memo.

Section Memo.

Context {St : Type}.

Variable step : St -> resume quotient St.

(** The two fields of a value backed by a generator: the list [cache]
    and the bound method [next_pq], [None] once it was deleted. *)
Record obj := Obj { cache : list quotient; next_pq : option St }.

(** [next()]: resume the generator until it yields, returns or raises;
    [None] when [fuel] resumptions do not suffice. *)
Fixpoint next (fuel : nat) (s : St) : option (resume quotient St) :=
  match fuel with
  | O => None
  | S n =>
      match step s with
      | Silent s' => next n s'
      | r => Some r
      end
  end.

(** How a call of [pq] ends. *)
Inductive outcome :=
| Returned (t : quotient) (self : obj)  (* [return t], the object afterwards *)
| AttributeError                        (* [self.next_pq] was deleted *)
| Propagated.                           (* StopIteration or an exception of the generator *)

(** [pq(self, n)]:
<<
    self_cache = self.cache
    if n < len(self_cache):
        return self_cache[n]
    t = self.next_pq()
    self_cache.append(t)
    if t is None:
        del self.next_pq
    return t
>> *)
Definition pq (fuel : nat) (self : obj) (n : nat) : option outcome :=
  if (n <? length (cache self))%nat then
    Some (Returned (nth n (cache self) None) self)
  else
    match next_pq self with
    | None => Some AttributeError
    | Some s =>
        match next fuel s with
        | None => None
        | Some (Yield t s') =>
            Some (Returned t (Obj (cache self ++ [t])
                                  (match t with None => None | Some _ => Some s' end)))
        | Some _ => Some Propagated
        end
    end.

(** A consumer that asks for the indices [i], [i+1], ... in turn and
    stops at the end marker, as the protocol requires; at most [count]
    calls. *)
Fixpoint read_from (fuel : nat) (self : obj) (i count : nat) : list quotient :=
  match count with
  | O => []
  | S c =>
      match pq fuel self i with
      | Some (Returned None _) => [None]
      | Some (Returned (Some q) self') => Some q :: read_from fuel self' (S i) c
      | _ => []
      end
  end.

End Memo.

End Memo.

(** ** The streams of values *)

(** The quotients a consumer reads from a [pq] function: indices 0, 1,
    2, ... up to the first [None], at most [fuel] of them. *)
Fixpoint src_stream (pq : nat -> quotient) (fuel i : nat) : list quotient :=
  match fuel with
  | O => []
  | S n =>
      match pq i with
      | None => [None]
      | Some q => Some q :: src_stream pq n (S i)
      end
  end.

(** The quotients of a value, end marker included, as far as [fuel]
    resumptions of the generator behind it produce them. *)
Definition stream (max_iters : Z) (fuel : nat) (v : value) : list quotient :=
  match v with
  | Src pq => src_stream pq fuel 0
  | Unop x a b c d =>
      observe (Homographic.step x) fuel (Homographic.Loop 0 a b c d)
  | Binop x y a b c d e f g h =>
      observe (Bihomographic.step x y) fuel
        (Bihomographic.start max_iters (Bihomographic.Coeffs a b c d e f g h))
  end.

(** [cf_base.__neg__] *)
Definition __neg__ (self : nat -> quotient) : value := Unop self (-1) 0 0 1.

(** [cf_base.__abs__] *)
Definition __abs__ (self : nat -> quotient) : value :=
  match self 0%nat with
  | None => Src self
  | Some self_floor => if self_floor >=? 0 then Src self else __neg__ self
  end.

(** [ceil(x)] for a value [x]:
<<
    x_floor = x.pq(0)
    if x_floor is None:
        return x
    elif x.pq(1) is None:
        return cf(x_floor)
    else:
        return cf(x_floor + 1)
>> *)
Definition ceil (x : nat -> quotient) : made :=
  match x 0%nat with
  | None => Same x
  | Some x_floor => if is_None (x 1%nat) then Cf x_floor else Cf (x_floor + 1)
  end.

(** [cf_base.__floordiv__]: [(self/other).pq(0)]; [None] when the
    generator does not yield within [fuel] resumptions. *)
Definition __floordiv__ (max_iters : Z) (fuel : nat) (self : nat -> quotient)
    (other : operand) : option quotient :=
  pq0 max_iters fuel (div self other).

(** How [self % other] ends for an int [other]. *)
Inductive mod_result :=
| ModValue (v : value)
| ModTypeError.   (* [None * other] *)

(** [cf_base.__mod__] with an int on the right:
    [self - (self//other)*other], where [self//other] is an int or None
    and the product is Python's own. *)
Definition __mod__ (max_iters : Z) (fuel : nat) (self : nat -> quotient)
    (other : Z) : option mod_result :=
  match __floordiv__ max_iters fuel self (OInt other) with
  | None => None
  | Some None => Some ModTypeError
  | Some (Some floordiv) => Some (ModValue (sub self (OInt (floordiv * other))))
  end.

(** ** Digits and long division *)

(** Whether the generator [digits(x, base)] has ended (raised
    StopIteration) within [fuel] resumptions. *)
Fixpoint digits_ended (base : Z) (x_pq : nat -> quotient) (fuel : nat)
    (s : Digits.state) : bool :=
  match fuel with
  | O => false
  | S n =>
      match Digits.step base x_pq s with
      | Yield _ s' => digits_ended base x_pq n s'
      | Silent s' => digits_ended base x_pq n s'
      | Return => true
      | Raise => false
      end
  end.

(** School long division of [N] by [D] in a base: the integer part, then
    [n - 1] digits of the fractional part. *)
Fixpoint long_division (base : Z) (n : nat) (N D : Z) : list Z :=
  match n with
  | O => []
  | S k => N / D :: long_division base k (base * (N mod D)) D
  end.

(** The scaled remainder that long division carries after [n] digits;
    when it is zero, all further digits are zero. *)
Fixpoint remainder (base : Z) (n : nat) (N D : Z) : Z :=
  match n with
  | O => N
  | S k => remainder base k (base * (N mod D)) D
  end.

(** The number [digits] has still to write, as a fraction, when the rest
    of its input is the expansion of [X/Y]: numerator and denominator of
    [(a*x + b)/(c*x + d)] at [x = X/Y]. *)
Definition digits_num (X Y : Z) (s : Digits.state) : Z :=
  match s with
  | Digits.Loop a b _ _ _ _ => a * X + b * Y
  | _ => 0
  end.

Definition digits_den (X Y : Z) (s : Digits.state) : Z :=
  match s with
  | Digits.Loop _ _ c d _ _ => c * X + d * Y
  | _ => 1
  end.

(** The states [digits] is in after its first turn, on an input whose
    quotients from index [nx] on are those of [ratio(X, Y)]. *)
Definition digits_reading (x_pq : nat -> quotient) (X Y : Z) (s : Digits.state)
    : Prop :=
  match s with
  | Digits.Loop a b c d _ nx =>
      0 < c /\ 0 <= d /\ 0 <= Y < X
      /\ forall k : nat, x_pq (nx + k)%nat = nth_error (ratio X Y) k
  | _ => False
  end.

(** A bound on the turns in which [digits] can still poll its input. *)
Definition digits_polls (X Y : Z) (s : Digits.state) : nat :=
  match s with
  | Digits.Loop a b c d _ _ =>
      length (ratio X Y) + (if (a =? b) && (c =? d) then 0 else 1)
  | _ => 0
  end.

(** ** The value of an expansion, as a fraction *)

(** Numerator and denominator of [q0 + 1/(q1 + 1/(q2 + ...))], with 1/0
    for the empty expansion (no value); unlike [cf_value] this is
    meaningful for quotients of any sign, zero included. *)
Fixpoint convergent (qs : list Z) : Z * Z :=
  match qs with
  | [] => (1, 0)
  | q :: rest => let '(P, Q) := convergent rest in (q * P + Q, P)
  end.

(** The homographic engine over [x_pq], resumed in state [s], yields the
    quotients of an expansion of the fraction [N/D] and then the end
    marker. *)
Definition expands (x_pq : nat -> quotient) (s : Homographic.state) (N D : Z)
    : Prop :=
  exists (fuel : nat) (qs : list Z),
    observe (Homographic.step x_pq) fuel s = map Some qs ++ [None]
    /\ fst (convergent qs) * D = snd (convergent qs) * N.

(** A value whose quotients, read to the end, are an expansion of the
    fraction [N/D]. *)
Definition denotes (max_iters : Z) (v : value) (N D : Z) : Prop :=
  exists (fuel : nat) (qs : list Z),
    (forall more, (fuel <= more)%nat ->
       stream max_iters more v = map Some qs ++ [None])
    /\ fst (convergent qs) * D = snd (convergent qs) * N
    /\ (fst (convergent qs) <> 0 \/ snd (convergent qs) <> 0).

(** [modf(x)] for a value [x]: the fractional part [cf(x) - integer] and
    the integer part [cf(integer)], with [integer = int(x)]; the
    ValueError of [int] on NaN passes through. *)
Definition modf (x : nat -> quotient) : checked (value * made) :=
  match __int__ x with
  | ValueError => ValueError
  | Value integer => Value (sub x (OInt integer), Cf integer)
  end.

(** * Properties *)

(** ** The rational source *)

Lemma ratio_body (x y : Z) :
  ratio x y = if truthy y then (x / y) :: ratio y (x mod y) else [].
Proof.
  rewrite ratio_equation_1. unfold truthy.
  destruct (Z.eq_dec y 0) as [->|Hy]; simpl.
  - reflexivity.
  - destruct (Z.eqb_spec y 0); [contradiction | reflexivity].
Qed.

Lemma ratio_zero (x : Z) : ratio x 0 = [].
Proof. rewrite ratio_body. reflexivity. Qed.

Lemma ratio_nonzero (x y : Z) :
  y <> 0 -> ratio x y = (x / y) :: ratio y (x mod y).
Proof.
  intros Hy. rewrite ratio_body. unfold truthy.
  destruct (Z.eqb_spec y 0); [contradiction | reflexivity].
Qed.

(** The generator stops: resumed often enough, [ratio(x, y)] has yielded
    exactly the quotients of [ratio x y], then [None]. *)
Lemma ratio_generator (x y : Z) (fuel : nat) :
  (length (ratio x y) < fuel)%nat ->
  observe Ratio.step fuel (Ratio.Loop x y) = map Some (ratio x y) ++ [None].
Proof.
  revert x y. induction fuel as [|n IH]; intros x y Hlen; [lia|].
  rewrite ratio_body in *. simpl. destruct (truthy y); simpl in *.
  - f_equal. apply IH. lia.
  - reflexivity.
Qed.

Lemma ratio_value_aux (n : nat) : forall x y : Z,
  (Z.abs_nat y < n)%nat -> y <> 0 ->
  (cf_value (ratio x y) == inject_Z x / inject_Z y)%Q.
Proof.
  induction n as [|n IH]; intros x y Hn Hy; [lia|].
  rewrite (ratio_nonzero x y Hy).
  pose proof (Z.div_mod x y Hy) as Hdm.
  pose proof (Z.mod_bound_or x y Hy) as Hb.
  assert (HyQ : ~ (inject_Z y == 0)%Q).
  { intros H. apply Hy. unfold Qeq in H. simpl in H. lia. }
  assert (HxQ : (inject_Z x
                 == inject_Z y * inject_Z (x / y) + inject_Z (x mod y))%Q).
  { rewrite <- inject_Z_mult, <- inject_Z_plus, <- Hdm. reflexivity. }
  destruct (Z.eq_dec (x mod y) 0) as [Hr|Hr].
  - rewrite Hr, ratio_zero. simpl.
    rewrite HxQ, Hr. field. exact HyQ.
  - assert (HrQ : ~ (inject_Z (x mod y) == 0)%Q).
    { intros H. apply Hr. unfold Qeq in H. simpl in H. lia. }
    assert (Hrec := IH y (x mod y) ltac:(lia) Hr).
    rewrite (ratio_nonzero y (x mod y) Hr) in *.
    change (cf_value (x / y :: ?l)) with
      (match l with [] => inject_Z (x / y)
                  | _ => (inject_Z (x / y) + / cf_value l)%Q end).
    cbv beta iota. rewrite Hrec, HxQ.
    field. split; assumption.
Qed.

Lemma ratio_tail_aux (n : nat) : forall x y : Z,
  (Z.abs_nat y < n)%nat ->
  0 < y < x \/ x < y < 0 ->
  Forall (fun k => 1 <= k) (ratio x y) /\ 1 < last (ratio x y) 0.
Proof.
  induction n as [|n IH]; intros x y Hn Hxy; [lia|].
  assert (Hy : y <> 0) by lia.
  rewrite (ratio_nonzero x y Hy).
  pose proof (Z.div_mod x y Hy) as Hdm.
  pose proof (Z.mod_bound_or x y Hy) as Hb.
  assert (Hq : 1 <= x / y).
  { destruct Hxy as [H|H].
    - apply Z.div_le_lower_bound; lia.
    - rewrite <- Z.div_opp_opp by lia. apply Z.div_le_lower_bound; lia. }
  destruct (Z.eq_dec (x mod y) 0) as [Hr|Hr].
  - rewrite Hr, ratio_zero. simpl. split; [repeat constructor; exact Hq|].
    nia.
  - destruct (IH y (x mod y) ltac:(lia) ltac:(lia)) as [Hall Hlast].
    split; [constructor; assumption|].
    rewrite (ratio_nonzero y (x mod y) Hr) in *. exact Hlast.
Qed.

(** X26.  For all integers [p] and [q <> 0], the generator [ratio(p, q)],
    run on the integers themselves, yields finitely many quotients and
    then the end marker; the quotients are the Euclidean expansion of
    [p/q] (the first is the floor of [p/q] and the continued fraction they
    form has the value [p/q]); every quotient after the first is positive,
    and if there is more than one quotient the last one is greater than
    1. *)
Theorem ratio_euclidean_canonical (p q : Z) :
  q <> 0 ->
  let qs := ratio p q in
  observe Ratio.step (S (length qs)) (Ratio.Loop p q) = map Some qs ++ [None]
  /\ hd_error qs = Some (p / q)
  /\ (cf_value qs == inject_Z p / inject_Z q)%Q
  /\ Forall (fun k => 1 <= k) (tl qs)
  /\ ((1 < length qs)%nat -> 1 < last qs 0).
Proof.
  intros Hq qs. subst qs.
  split; [apply ratio_generator; lia|].
  split; [rewrite (ratio_nonzero p q Hq); reflexivity|].
  split; [apply (ratio_value_aux (S (Z.abs_nat q))); [lia | exact Hq]|].
  rewrite (ratio_nonzero p q Hq). simpl tl.
  pose proof (Z.mod_bound_or p q Hq) as Hb.
  destruct (Z.eq_dec (p mod q) 0) as [Hr|Hr].
  - rewrite Hr, ratio_zero. split; [constructor | simpl; lia].
  - destruct (ratio_tail_aux (S (Z.abs_nat (p mod q))) q (p mod q)
               ltac:(lia) ltac:(lia)) as [Hall Hlast].
    split; [exact Hall|]. intros _.
    rewrite (ratio_nonzero q (p mod q) Hr) in *. exact Hlast.
Qed.

Lemma ratio_euclidean_canonical_witness :
  93 <> 0
  /\ (let qs := ratio 415 93 in
      observe Ratio.step (S (length qs)) (Ratio.Loop 415 93)
        = map Some qs ++ [None]
      /\ hd_error qs = Some (415 / 93)
      /\ (cf_value qs == inject_Z 415 / inject_Z 93)%Q
      /\ Forall (fun k => 1 <= k) (tl qs)
      /\ ((1 < length qs)%nat -> 1 < last qs 0)).
Proof.
  split; [lia | apply (ratio_euclidean_canonical 415 93); lia].
Defined.

Example ratio_415_93 :
  ratio 415 93 = [4; 2; 6; 7] /\ ratio (-7) 3 = [-3; 1; 2]
  /\ ratio 1 (-2) = [-1; 2].
Proof. repeat split; reflexivity. Qed.

(** ** The homographic engine *)

(** The loop entered when x has ended is the loop of the rational source,
    run on [a] and [c]. *)
Lemma homographic_tail_is_ratio (x_pq : nat -> quotient) (fuel : nat) :
  forall nx a b c d,
  observe (Homographic.step x_pq) fuel (Homographic.Tail nx a b c d)
  = observe Ratio.step fuel (Ratio.Loop a c).
Proof.
  induction fuel as [|n IH]; intros nx a b c d; [reflexivity|].
  simpl. destruct (truthy c); [f_equal; apply IH | reflexivity].
Qed.

Section HomographicStep.

Variable x_pq : nat -> quotient.
Variables (nx : nat) (a b c d : Z).

Let s := Homographic.Loop nx a b c d.

(** What pulling the next quotient of x does to the state. *)
Let pulled : resume quotient Homographic.state :=
  match x_pq nx with
  | Some q => Silent (Homographic.Loop (S nx) (b + a * q) a (d + c * q) c)
  | None => Silent (Homographic.Tail (S nx) a b c d)
  end.

Lemma homographic_both_defined :
  c <> 0 -> d <> 0 ->
  Homographic.step x_pq s =
    if a / c =? b / d
    then Yield (Some (a / c))
               (Homographic.Loop nx c d (a - c * (a / c)) (b - d * (a / c)))
    else pulled.
Proof.
  intros Hc Hd. unfold s, pulled, Homographic.step, Homographic.corners, truthy.
  destruct (Z.eqb_spec c 0); [contradiction|].
  destruct (Z.eqb_spec d 0); [contradiction|]. simpl.
  destruct (Z.eqb_spec (a / c) (b / d)) as [->|]; reflexivity.
Qed.

Lemma homographic_one_undefined :
  (c <> 0 -> d = 0 -> b <> 0 -> Homographic.step x_pq s = pulled)
  /\ (c = 0 -> d <> 0 -> a <> 0 -> Homographic.step x_pq s = pulled).
Proof.
  unfold s, pulled, Homographic.step, Homographic.corners, truthy.
  split; intros Hc Hd Hn;
    destruct (Z.eqb_spec c 0); try contradiction;
    destruct (Z.eqb_spec d 0); try contradiction; simpl.
  - destruct (Z.eqb_spec b 0); [contradiction | reflexivity].
  - destruct (Z.eqb_spec a 0); [contradiction | reflexivity].
Qed.

Lemma homographic_zero_over_zero :
  (c <> 0 -> d = 0 -> b = 0 ->
   Homographic.step x_pq s =
     Yield (Some (a / c)) (Homographic.Loop nx c d (a - c * (a / c)) (b - d * (a / c))))
  /\ (c = 0 -> d <> 0 -> a = 0 ->
      Homographic.step x_pq s =
        Yield (Some (b / d)) (Homographic.Loop nx c d (a - c * (b / d)) (b - d * (b / d))))
  /\ (c = 0 -> d = 0 ->
      Homographic.step x_pq s = Yield None Homographic.Fault).
Proof.
  unfold s, Homographic.step, Homographic.corners, truthy.
  repeat split; intros; subst;
    repeat match goal with
           | |- context [?z =? 0] => destruct (Z.eqb_spec z 0); try contradiction
           end; simpl; rewrite ?Z.eqb_refl; reflexivity.
Qed.

End HomographicStep.

(** C1, as the code has it.  At every turn [_cf_homographic] computes the
    corners [a//c] and [b//d].  With both denominators nonzero it emits
    [q] when both floors equal [q], going to [(c, d, a-c*q, b-d*q)] with
    no input consumed, and polls x otherwise.  A corner with a zero
    denominator and a nonzero numerator is undefined and makes it poll x.
    A corner 0/0 takes the value of the other corner, which is then
    emitted at once; with [c = d = 0] the end marker is emitted.  Polling
    x folds a finite quotient [q] in as [(b+a*q, a, d+c*q, c)]; when x has
    ended the engine runs the loop of the rational source on [a] and [c]:
    it emits [ratio a c] and then the end marker. *)
Theorem homographic_step_cases (x_pq : nat -> quotient) (nx : nat) (a b c d : Z) :
  let s := Homographic.Loop nx a b c d in
  let emit q := Yield (Some q) (Homographic.Loop nx c d (a - c * q) (b - d * q)) in
  let pulled :=
    match x_pq nx with
    | Some q => Silent (Homographic.Loop (S nx) (b + a * q) a (d + c * q) c)
    | None => Silent (Homographic.Tail (S nx) a b c d)
    end in
  (c <> 0 -> d <> 0 -> a / c = b / d -> Homographic.step x_pq s = emit (a / c))
  /\ (c <> 0 -> d <> 0 -> a / c <> b / d -> Homographic.step x_pq s = pulled)
  /\ (c <> 0 -> d = 0 -> b <> 0 -> Homographic.step x_pq s = pulled)
  /\ (c = 0 -> d <> 0 -> a <> 0 -> Homographic.step x_pq s = pulled)
  /\ (c <> 0 -> d = 0 -> b = 0 -> Homographic.step x_pq s = emit (a / c))
  /\ (c = 0 -> d <> 0 -> a = 0 -> Homographic.step x_pq s = emit (b / d))
  /\ (c = 0 -> d = 0 ->
      Homographic.step x_pq s = Yield None Homographic.Fault)
  /\ (forall fuel,
      observe (Homographic.step x_pq) fuel (Homographic.Tail (S nx) a b c d)
      = observe Ratio.step fuel (Ratio.Loop a c))
  /\ (forall fuel, (length (ratio a c) < fuel)%nat ->
      observe (Homographic.step x_pq) fuel (Homographic.Tail (S nx) a b c d)
      = map Some (ratio a c) ++ [None]).
Proof.
  intros s emit pulled.
  pose proof (homographic_both_defined x_pq nx a b c d) as Hboth.
  pose proof (homographic_one_undefined x_pq nx a b c d) as [Hd0 Hc0].
  pose proof (homographic_zero_over_zero x_pq nx a b c d) as (Hzd & Hzc & Hzz).
  cbv zeta in *. fold s in Hboth, Hd0, Hc0, Hzd, Hzc, Hzz.
  repeat split.
  - intros Hc Hd Heq. rewrite (Hboth Hc Hd).
    apply Z.eqb_eq in Heq. rewrite Heq. reflexivity.
  - intros Hc Hd Hne. rewrite (Hboth Hc Hd).
    apply Z.eqb_neq in Hne. rewrite Hne. reflexivity.
  - exact Hd0.
  - exact Hc0.
  - exact Hzd.
  - exact Hzc.
  - exact Hzz.
  - intros fuel. apply homographic_tail_is_ratio.
  - intros fuel Hlen. rewrite homographic_tail_is_ratio.
    apply ratio_generator. exact Hlen.
Qed.

Lemma homographic_step_cases_witness :
  Homographic.step (fixed_pqs [5; 2]) (Homographic.Loop 0 7 15 2 4)
    = Yield (Some 3) (Homographic.Loop 0 2 4 1 3)
  /\ Homographic.step (fixed_pqs [5; 2]) (Homographic.Loop 0 1 0 0 1)
     = Silent (Homographic.Loop 1 5 1 1 0)
  /\ Homographic.step (fixed_pqs [5; 2]) (Homographic.Loop 0 0 0 0 1)
     = Yield (Some 0) (Homographic.Loop 0 0 1 0 0)
  /\ observe (Homographic.step (fixed_pqs [5; 2])) 5 (Homographic.Tail 3 27 5 10 2)
     = [Some 2; Some 1; Some 2; Some 3; None].
Proof.
  pose proof (homographic_step_cases (fixed_pqs [5; 2]) 0 7 15 2 4)
    as (H1 & _).
  pose proof (homographic_step_cases (fixed_pqs [5; 2]) 0 1 0 0 1)
    as (_ & _ & _ & H2 & _).
  pose proof (homographic_step_cases (fixed_pqs [5; 2]) 0 0 0 0 1)
    as (_ & _ & _ & _ & _ & H3 & _).
  pose proof (homographic_step_cases (fixed_pqs [5; 2]) 2 27 5 10 2)
    as (_ & _ & _ & _ & _ & _ & _ & _ & H4).
  cbv zeta in *.
  split; [apply H1; [lia | lia | reflexivity]|].
  split; [apply H2; [reflexivity | lia | lia]|].
  split; [apply H3; [reflexivity | lia | reflexivity]|].
  rewrite (H4 5%nat) by (vm_compute; repeat constructor). reflexivity.
Defined.

(** C1 as stated fails where a corner is 0/0.  [x * 0] is
    [unop(x, 0, 0, 0, 1)]: [c] is zero, so the statement has the engine
    poll x; the code emits 0 and leaves x alone. *)
Lemma homographic_zero_corner_emits :
  let x_pq := fixed_pqs [5; 2] in
  Homographic.step x_pq (Homographic.Loop 0 0 0 0 1)
    = Yield (Some 0) (Homographic.Loop 0 0 1 0 0)
  /\ Homographic.step_as_specified x_pq 0 0 0 0 1
     = Silent (Homographic.Loop 1 0 0 1 0)
  /\ Homographic.step x_pq (Homographic.Loop 0 0 0 0 1)
     <> Homographic.step_as_specified x_pq 0 0 0 0 1.
Proof.
  cbv zeta. repeat split; try reflexivity. discriminate.
Qed.

(** ** The bihomographic engine: which input to poll *)

Lemma corner_bounds_all_defined (k : Bihomographic.coeffs) :
  Bihomographic.f k <> 0 -> Bihomographic.g k <> 0 -> Bihomographic.h k <> 0 ->
  let bd := Bihomographic.corner_bounds k in
  Bihomographic.bf bd = Some (Bihomographic.b k / Bihomographic.f k)
  /\ Bihomographic.cg bd = Some (Bihomographic.c k / Bihomographic.g k)
  /\ Bihomographic.dh bd = Some (Bihomographic.d k / Bihomographic.h k)
  /\ Bihomographic.ingest_x bd = None.
Proof.
  destruct k as [a b c d e f g h]. simpl. intros Hf Hg Hh.
  unfold Bihomographic.corner_bounds, truthy.
  destruct (Z.eqb_spec f 0); [contradiction|].
  destruct (Z.eqb_spec g 0); [contradiction|].
  destruct (Z.eqb_spec h 0); [contradiction|]. simpl.
  repeat match goal with
         | |- context [if ?x then _ else _] => destruct x
         end; simpl; auto.
Qed.

Lemma cascade_is_abs_comparison (bf cg dh : Z) :
  (if bf >? dh then
     if cg >? dh then bf >? cg else bf - dh >? dh - cg
   else
     if cg >? dh then dh - bf >? cg - dh else cg >? bf)
  = Bihomographic.naive_choice bf cg dh.
Proof.
  unfold Bihomographic.naive_choice.
  repeat match goal with
         | |- context [?x >? ?y] => destruct (Z.gtb_spec x y)
         end; try reflexivity; lia.
Qed.

(** C3. When [f], [g] and [h] are nonzero, so that [bf = b//f],
    [cg = c//g] and [dh = d//h] all exist, the branch cascade of the
    input selection polls x exactly when [|bf - dh| > |cg - dh|]. *)
Theorem choose_input_is_abs_comparison (k : Bihomographic.coeffs) :
  Bihomographic.f k <> 0 -> Bihomographic.g k <> 0 -> Bihomographic.h k <> 0 ->
  Bihomographic.choose_input (Bihomographic.corner_bounds k)
  = Bihomographic.naive_choice
      (Bihomographic.b k / Bihomographic.f k)
      (Bihomographic.c k / Bihomographic.g k)
      (Bihomographic.d k / Bihomographic.h k).
Proof.
  intros Hf Hg Hh.
  destruct (corner_bounds_all_defined k Hf Hg Hh) as (Hbf & Hcg & Hdh & Hix).
  unfold Bihomographic.choose_input. rewrite Hix, Hbf, Hcg, Hdh.
  apply cascade_is_abs_comparison.
Qed.

Lemma choose_input_is_abs_comparison_witness :
  let k := Bihomographic.Coeffs 3 (-17) 9 4 1 5 2 3 in
  Bihomographic.f k <> 0 /\ Bihomographic.g k <> 0 /\ Bihomographic.h k <> 0
  /\ Bihomographic.choose_input (Bihomographic.corner_bounds k)
     = Bihomographic.naive_choice
         (Bihomographic.b k / Bihomographic.f k)
         (Bihomographic.c k / Bihomographic.g k)
         (Bihomographic.d k / Bihomographic.h k).
Proof.
  cbv zeta. simpl Bihomographic.f. simpl Bihomographic.g. simpl Bihomographic.h.
  split; [lia|]. split; [lia|]. split; [lia|].
  apply (choose_input_is_abs_comparison (Bihomographic.Coeffs 3 (-17) 9 4 1 5 2 3));
    simpl; lia.
Defined.

(** ** The bihomographic engine: the bounded wait *)

Section BoundedWait.

Import Bihomographic.

Variables x_pq y_pq : nat -> quotient.

(** Polling an input does not touch the counters. *)
Lemma poll_keeps_counters (r r' : regs) :
  poll x_pq y_pq r = Silent (Loop r') ->
  iters_left r' = iters_left r /\ allowed_iters r' = allowed_iters r.
Proof.
  unfold poll.
  destruct (choose_input (corner_bounds (co r)));
    [destruct (x_pq (nx r)) | destruct (y_pq (ny r))];
    intros H; inversion H; subst; simpl; auto.
Qed.

(** A turn that neither yields nor leaves the loop costs one iteration
    when the bracket is undecided, and none otherwise. *)
Lemma idle_turn_counters (r r' : regs) :
  step x_pq y_pq (Loop r) = Silent (Loop r') ->
  iters_left r' =
    iters_left r - (if undecided (corner_bounds (co r)) then 1 else 0)
  /\ allowed_iters r' = allowed_iters r.
Proof.
  simpl.
  destruct (quotient_eqb (lower (corner_bounds (co r))) (upper (corner_bounds (co r)))).
  - destruct (upper (corner_bounds (co r))); discriminate.
  - destruct (undecided (corner_bounds (co r))).
    + destruct (truthy (iters_left r)); [|discriminate].
      intros H. apply poll_keeps_counters in H. simpl in H. lia.
    + intros H. apply poll_keeps_counters in H. lia.
Qed.

Lemma idle_turns_counters (turns : nat) : forall (r r' : regs) (n : nat),
  idle_turns x_pq y_pq turns r = Some (n, r') ->
  iters_left r' = iters_left r - Z.of_nat n
  /\ allowed_iters r' = allowed_iters r.
Proof.
  induction turns as [|t IH]; intros r r' n.
  - simpl. intros H. inversion H; subst. simpl. lia.
  - cbn [idle_turns].
    destruct (step x_pq y_pq (Loop r)) as [v s|s| |] eqn:Hstep;
      cbn beta iota; try (intros H; discriminate H).
    destruct s as [r1| | | | |];
      cbn beta iota; try (intros H; discriminate H).
    destruct (idle_turns x_pq y_pq t r1) as [[m r2]|] eqn:Hrest;
      cbn beta iota; [|intros H; discriminate H].
    intros H. inversion H; subst. clear H.
    apply idle_turn_counters in Hstep. apply IH in Hrest.
    destruct (undecided (corner_bounds (co r))); lia.
Qed.

(** With the counter at zero, an undecided bracket makes the engine yield
    [upper], then [None]. *)
Lemma give_up_at_zero (r : regs) :
  let bd := corner_bounds (co r) in
  iters_left r = 0 ->
  quotient_eqb (lower bd) (upper bd) = false ->
  undecided bd = true ->
  step x_pq y_pq (Loop r) = Yield (upper bd) (Cut r)
  /\ step x_pq y_pq (Cut r) = Yield None (Poll r)
  /\ forall fuel,
     observe (step x_pq y_pq) (S (S fuel)) (Loop r)
     = match upper bd with Some u => [Some u; None] | None => [None] end.
Proof.
  intros bd Hil Hne Hund.
  assert (Hstep : step x_pq y_pq (Loop r) = Yield (upper bd) (Cut r)).
  { simpl. fold bd. rewrite Hne, Hund, Hil. reflexivity. }
  split; [exact Hstep|]. split; [reflexivity|].
  intros fuel. cbn [observe]. rewrite Hstep.
  destruct (upper bd); reflexivity.
Qed.

(** Emitting a quotient reloads the counter. *)
Lemma emission_resets (r : regs) (q : Z) :
  let bd := corner_bounds (co r) in
  lower bd = Some q -> upper bd = Some q ->
  step x_pq y_pq (Loop r)
  = Yield (Some q) (Loop (Regs (nx r) (ny r) (allowed_iters r) (allowed_iters r)
                               (emitted (co r) q))).
Proof.
  intros bd Hl Hu. simpl. fold bd. rewrite Hl, Hu. simpl.
  rewrite Z.eqb_refl. reflexivity.
Qed.

End BoundedWait.

(** C2. Take the engine at the head of its loop with the counter fresh
    (at the start, or after a quotient was emitted: the emission reloads
    the counter), for any inputs and coefficients.  If the turns since
    then emitted nothing and [max_iters] of them found the bracket
    undecided ([upper] undefined or [upper - lower = 1]), and the bracket
    is undecided again, then the engine yields [upper] and next the end
    marker, and the stream of the value stops there.  While the counter
    is not zero an undecided turn only costs one iteration. *)
Theorem give_up_after_max_iters (x_pq y_pq : nat -> quotient)
    (max_iters : Z) (r0 r : Bihomographic.regs) (turns n : nat) :
  Bihomographic.iters_left r0 = max_iters ->
  Bihomographic.allowed_iters r0 = max_iters ->
  Bihomographic.idle_turns x_pq y_pq turns r0 = Some (n, r) ->
  Z.of_nat n = max_iters ->
  let bd := Bihomographic.corner_bounds (Bihomographic.co r) in
  quotient_eqb (Bihomographic.lower bd) (Bihomographic.upper bd) = false ->
  Bihomographic.undecided bd = true ->
  (Bihomographic.step x_pq y_pq (Bihomographic.Loop r)
     = Yield (Bihomographic.upper bd) (Bihomographic.Cut r)
   /\ Bihomographic.step x_pq y_pq (Bihomographic.Cut r)
      = Yield None (Bihomographic.Poll r)
   /\ forall fuel,
      observe (Bihomographic.step x_pq y_pq) (S (S fuel)) (Bihomographic.Loop r)
      = match Bihomographic.upper bd with
        | Some u => [Some u; None]
        | None => [None]
        end)
  /\ (forall r1 q,
      Bihomographic.lower (Bihomographic.corner_bounds (Bihomographic.co r1)) = Some q ->
      Bihomographic.upper (Bihomographic.corner_bounds (Bihomographic.co r1)) = Some q ->
      exists r2,
        Bihomographic.step x_pq y_pq (Bihomographic.Loop r1)
          = Yield (Some q) (Bihomographic.Loop r2)
        /\ Bihomographic.iters_left r2 = Bihomographic.allowed_iters r1
        /\ Bihomographic.allowed_iters r2 = Bihomographic.allowed_iters r1)
  /\ (forall r1 r2,
      Bihomographic.step x_pq y_pq (Bihomographic.Loop r1)
        = Silent (Bihomographic.Loop r2) ->
      Bihomographic.iters_left r2 =
        Bihomographic.iters_left r1
        - (if Bihomographic.undecided
                (Bihomographic.corner_bounds (Bihomographic.co r1))
           then 1 else 0)).
Proof.
  intros Hil Hal Hidle Hn bd Hne Hund.
  split; [|split].
  - apply give_up_at_zero; try assumption.
    destruct (idle_turns_counters x_pq y_pq turns r0 r n Hidle) as [H _]. lia.
  - intros r1 q Hl Hu. eexists. split.
    + apply emission_resets; eassumption.
    + simpl. auto.
  - intros r1 r2 H. apply (idle_turn_counters x_pq y_pq r1 r2 H).
Qed.

(** [e - e] under the default ceiling: 101 turns go by without output,
    100 of them undecided, then 0 and the end marker are yielded. *)
Lemma give_up_after_max_iters_witness :
  let r0 := Bihomographic.Regs 0 0 100 100 (Bihomographic.Coeffs 0 1 (-1) 0 0 0 0 1) in
  exists r,
    Bihomographic.idle_turns e_pq e_pq 101 r0 = Some (100%nat, r)
    /\ quotient_eqb
         (Bihomographic.lower (Bihomographic.corner_bounds (Bihomographic.co r)))
         (Bihomographic.upper (Bihomographic.corner_bounds (Bihomographic.co r)))
       = false
    /\ Bihomographic.undecided (Bihomographic.corner_bounds (Bihomographic.co r)) = true
    /\ Bihomographic.step e_pq e_pq (Bihomographic.Loop r)
       = Yield (Some 0) (Bihomographic.Cut r)
    /\ observe (Bihomographic.step e_pq e_pq) 2 (Bihomographic.Loop r)
       = [Some 0; None].
Proof.
  cbv zeta. eexists.
  split; [vm_compute; reflexivity|].
  split; [vm_compute; reflexivity|].
  split; [vm_compute; reflexivity|].
  match goal with
  | |- Bihomographic.step _ _ (Bihomographic.Loop ?r) = _ /\ _ =>
      pose proof (give_up_after_max_iters e_pq e_pq 100
        (Bihomographic.Regs 0 0 100 100 (Bihomographic.Coeffs 0 1 (-1) 0 0 0 0 1))
        r 101 100 eq_refl eq_refl) as H
  end.
  cbv zeta in H.
  destruct H as ((Hstep & _ & Hobs) & _);
    [vm_compute; reflexivity | reflexivity
     | vm_compute; reflexivity | vm_compute; reflexivity |].
  split.
  - rewrite Hstep. vm_compute. reflexivity.
  - rewrite (Hobs 0%nat). vm_compute. reflexivity.
Defined.

(** ** Comparison *)

Lemma long_cmp_refl (p : Z) : long_cmp p p = 0.
Proof. unfold long_cmp. rewrite Z.compare_refl. reflexivity. Qed.

Lemma long_cmp_truthy (p q : Z) : truthy (long_cmp p q) = negb (p =? q).
Proof.
  unfold long_cmp, truthy.
  destruct (Z.compare_spec p q); destruct (Z.eqb_spec p q); try lia; reflexivity.
Qed.

Lemma long_cmp_antisym (p q : Z) : long_cmp p q = - long_cmp q p.
Proof.
  unfold long_cmp. rewrite (Z.compare_antisym p q).
  destruct (p ?= q); reflexivity.
Qed.

Lemma alternate_succ (i : nat) : alternate (S i) = - alternate i.
Proof.
  unfold alternate.
  change 1 with (Z.ones 1) at 2 4.
  rewrite !Z.land_ones by lia.
  rewrite Nat2Z.inj_succ. change (2 ^ 1) with 2.
  Z.div_mod_to_equations. lia.
Qed.

(** [1-2*(i&1)] is [(-1)**i], as the comment in the source says. *)
Lemma alternate_pow (i : nat) : alternate i = (-1) ^ Z.of_nat i.
Proof.
  induction i as [|i IH]; [reflexivity|].
  rewrite alternate_succ, IH, Nat2Z.inj_succ, Z.pow_succ_r by lia. lia.
Qed.

Section CmpLoop.

Variables self_pq other_pq : nat -> quotient.

Let same (j : nat) : bool :=
  match self_pq j, other_pq j with
  | Some p, Some q => p =? q
  | _, _ => false
  end.

(** Equal pairs are passed over. *)
Lemma cmp_loop_skip (i : nat) : forall n k : nat,
  forallb same (seq k i) = true ->
  cmp_loop self_pq other_pq (i + n) k = cmp_loop self_pq other_pq n (k + i).
Proof.
  induction i as [|i IH]; intros n k H.
  - rewrite Nat.add_0_r. reflexivity.
  - simpl in H. apply andb_prop in H. destruct H as [Hk Hrest].
    unfold same in Hk. cbn [Nat.add cmp_loop].
    destruct (self_pq k) as [p|]; [|discriminate].
    destruct (other_pq k) as [q|]; [|discriminate].
    rewrite long_cmp_truthy, Hk. simpl negb. cbv iota.
    rewrite (IH n (S k) Hrest). f_equal. lia.
Qed.

End CmpLoop.

Lemma cf_int_pq (k : Z) : cf_int k 0 = Some k /\ forall n, cf_int k (S n) = None.
Proof.
  unfold cf_int. rewrite (ratio_nonzero k 1) by lia.
  rewrite Z.div_1_r, Z.mod_1_r, ratio_zero.
  split; [reflexivity | intros [|n]; reflexivity].
Qed.

(** The answer of the loop when the streams agree below index [i] and the
    loop has more than [i] turns. *)
Lemma cmp_loop_decides (self_pq other_pq : nat -> quotient) (i m : nat) :
  agree_upto self_pq other_pq i = true ->
  cmp_loop self_pq other_pq (i + S m) 0 =
    match self_pq i, other_pq i with
    | None, None => CmpInt 0
    | None, Some o => CmpInt ((-1) ^ Z.of_nat i * long_cmp o 0)
    | Some s, None => CmpInt ((-1) ^ Z.of_nat i * long_cmp 0 s)
    | Some s, Some o =>
        if s =? o then cmp_loop self_pq other_pq m (S i)
        else CmpInt ((-1) ^ Z.of_nat i * long_cmp s o)
    end.
Proof.
  intros Hagree. rewrite (cmp_loop_skip _ _ i (S m) 0%nat Hagree).
  cbn [Nat.add cmp_loop]. rewrite alternate_pow.
  destruct (self_pq i) as [s|], (other_pq i) as [o|]; try reflexivity.
  rewrite long_cmp_truthy. destruct (s =? o); reflexivity.
Qed.

(** The shortcut taken for an integer on the right gives what the loop
    gives on [cf(other)], as soon as the loop has two turns. *)
Lemma cmp_int_shortcut (max_iters : Z) (self_pq : nat -> quotient) (k : Z) (m : nat) :
  self_pq 0%nat <> None ->
  cmp max_iters self_pq (OInt k) = cmp_loop self_pq (cf_int k) (S (S m)) 0.
Proof.
  intros Hself. destruct (cf_int_pq k) as [H0 H1].
  unfold cmp. cbn [cmp_loop]. rewrite H0, (H1 0%nat).
  destruct (self_pq 0%nat) as [s0|]; [|contradiction].
  rewrite long_cmp_truthy.
  change (alternate 0) with 1. change (alternate 1) with (-1).
  destruct (s0 =? k); simpl negb; cbv iota.
  - destruct (self_pq 1%nat) as [s1|]; [|reflexivity].
    f_equal. rewrite (long_cmp_antisym s1 0). lia.
  - f_equal. lia.
Qed.

Lemma agree_upto_spec (self_pq other_pq : nat -> quotient) (i j : nat) :
  agree_upto self_pq other_pq i = true -> (j < i)%nat ->
  exists q, self_pq j = Some q /\ other_pq j = Some q.
Proof.
  unfold agree_upto. rewrite forallb_forall. intros H Hj.
  specialize (H j ltac:(apply in_seq; lia)).
  destruct (self_pq j) as [p|]; [|discriminate].
  destruct (other_pq j) as [q|]; [|discriminate].
  apply Z.eqb_eq in H. subst. eauto.
Qed.

Lemma cmp_is_loop (max_iters : Z) (self_pq : nat -> quotient) (other : operand) (i : nat) :
  self_pq 0%nat <> None -> operand_pq other 0%nat <> None ->
  Z.of_nat i < max_iters / 2 ->
  agree_upto self_pq (operand_pq other) i = true ->
  exists m, cmp max_iters self_pq other
            = cmp_loop self_pq (operand_pq other) (i + S m) 0.
Proof.
  intros Hself Hother Hi Hagree.
  destruct other as [k|other_pq].
  - destruct i as [|[|i]].
    + exists 1%nat. apply cmp_int_shortcut. exact Hself.
    + exists 0%nat. apply cmp_int_shortcut. exact Hself.
    + destruct (agree_upto_spec _ _ _ 1%nat Hagree ltac:(lia)) as (q & _ & Hq).
      simpl in Hq. rewrite (proj2 (cf_int_pq k) 0%nat) in Hq. discriminate.
  - exists (Z.to_nat (max_iters / 2) - S i)%nat.
    replace (i + S (Z.to_nat (max_iters / 2) - S i))%nat
      with (Z.to_nat (max_iters / 2)) by lia.
    unfold cmp. cbn [operand_pq] in *.
    destruct (self_pq 0%nat); [|contradiction].
    destruct (other_pq 0%nat); [reflexivity | contradiction].
Qed.




Lemma e_pq_some (n : nat) : exists q, e_pq n = Some q.
Proof.
  unfold e_pq. destruct (Z.of_nat n mod 3 =? 2); [eauto|].
  destruct (truthy (Z.of_nat n)); eauto.
Qed.

Lemma agree_upto_refl (pq : nat -> quotient) (n : nat) :
  (forall j, exists q, pq j = Some q) -> agree_upto pq pq n = true.
Proof.
  intros Hlive. unfold agree_upto. apply forallb_forall. intros j _.
  destruct (Hlive j) as [q ->]. apply Z.eqb_refl.
Qed.

Lemma cmp_loop_exhausted (self_pq other_pq : nat -> quotient) (n : nat) :
  agree_upto self_pq other_pq n = true ->
  cmp_loop self_pq other_pq n 0 = CmpLong 0.
Proof.
  intros H. rewrite <- (Nat.add_0_r n) at 1.
  rewrite (cmp_loop_skip _ _ n 0%nat 0%nat H). reflexivity.
Qed.




(** C10. With "no value" on the right, [__cmp__] raises ValueError when
    self has a first quotient, and returns [True] when self is "no
    value" as well. *)
Theorem cmp_no_value (max_iters : Z) (self_pq other_pq : nat -> quotient) :
  other_pq 0%nat = None ->
  (self_pq 0%nat <> None ->
   cmp max_iters self_pq (OCf other_pq) = CmpValueError)
  /\ (self_pq 0%nat = None ->
      cmp max_iters self_pq (OCf other_pq) = CmpBool true).
Proof.
  intros Hother. unfold cmp. cbn [operand_pq]. rewrite Hother.
  split; intros Hself.
  - destruct (self_pq 0%nat); [reflexivity | contradiction].
  - rewrite Hself. reflexivity.
Qed.

Lemma cmp_no_value_witness :
  NaN 0%nat = None
  /\ cmp 100 (fixed_pqs [1; 2]) (OCf NaN) = CmpValueError
  /\ cmp 100 NaN (OCf NaN) = CmpBool true.
Proof.
  destruct (cmp_no_value 100 (fixed_pqs [1; 2]) NaN eq_refl) as [H1 _].
  destruct (cmp_no_value 100 NaN NaN eq_refl) as [_ H2].
  split; [reflexivity|]. split; [apply H1; discriminate | apply H2; reflexivity].
Defined.

(** ** "No value" under the arithmetic operators *)

Lemma ends_yield {St : Type} (step : St -> resume quotient St) (s s' : St) :
  step s = Yield None s' -> ends_at_once step s.
Proof. intros H. exists 1%nat. simpl. rewrite H. reflexivity. Qed.

Lemma ends_silent {St : Type} (step : St -> resume quotient St) (s s' : St) :
  step s = Silent s' -> ends_at_once step s' -> ends_at_once step s.
Proof.
  intros H [fuel Hf]. exists (S fuel). simpl. rewrite H. exact Hf.
Qed.

Lemma truthy_true (z : Z) : truthy z = true <-> z <> 0.
Proof. unfold truthy. destruct (Z.eqb_spec z 0); simpl; intuition congruence. Qed.

Lemma truthy_false (z : Z) : truthy z = false <-> z = 0.
Proof. unfold truthy. destruct (Z.eqb_spec z 0); simpl; intuition congruence. Qed.

Section HomographicNoValue.
Variable x_pq : nat -> quotient.

Lemma homographic_no_denominator (nx : nat) (a b : Z) :
  ends_at_once (Homographic.step x_pq) (Homographic.Loop nx a b 0 0).
Proof. eapply ends_yield. reflexivity. Qed.

Lemma homographic_input_ended (nx : nat) (a b d : Z) :
  x_pq nx = None -> a <> 0 -> d <> 0 ->
  ends_at_once (Homographic.step x_pq) (Homographic.Loop nx a b 0 d).
Proof.
  intros Hx Ha Hd. eapply ends_silent.
  - simpl. unfold Homographic.corners. simpl.
    apply truthy_true in Ha, Hd. rewrite Ha, Hd. simpl. rewrite Hx. reflexivity.
  - eapply ends_yield. reflexivity.
Qed.
End HomographicNoValue.

Section BihomographicNoValue.
Import Bihomographic.
Variables x_pq y_pq : nat -> quotient.

Lemma over_y_ends (r : regs) (s : Homographic.state) :
  ends_at_once (Homographic.step y_pq) s ->
  ends_at_once (step x_pq y_pq) (OverY r s).
Proof.
  intros [fuel Hf]. exists fuel. revert s Hf.
  induction fuel as [|n IH]; intros s Hf; [discriminate|].
  simpl in *. destruct (Homographic.step y_pq s) as [v s'|s'| |]; simpl;
    try discriminate; [exact Hf | apply IH; exact Hf].
Qed.

Lemma over_x_ends (r : regs) (s : Homographic.state) :
  ends_at_once (Homographic.step x_pq) s ->
  ends_at_once (step x_pq y_pq) (OverX r s).
Proof.
  intros [fuel Hf]. exists fuel. revert s Hf.
  induction fuel as [|n IH]; intros s Hf; [discriminate|].
  simpl in *. destruct (Homographic.step x_pq s) as [v s'|s'| |]; simpl;
    try discriminate; [exact Hf | apply IH; exact Hf].
Qed.

Lemma upper_undefined (k : coeffs) :
  (e k = 0 /\ a k <> 0) \/ (f k = 0 /\ b k <> 0)
  \/ (g k = 0 /\ c k <> 0) \/ (h k = 0 /\ d k <> 0) ->
  upper (corner_bounds k) = None.
Proof.
  destruct k as [a b c d e f g h]. simpl. unfold corner_bounds, truthy.
  intros H.
  destruct (Z.eqb_spec e 0), (Z.eqb_spec a 0), (Z.eqb_spec f 0), (Z.eqb_spec b 0),
    (Z.eqb_spec g 0), (Z.eqb_spec c 0), (Z.eqb_spec h 0), (Z.eqb_spec d 0);
    try (exfalso; lia); simpl;
    repeat match goal with
           | |- context [if ?x then _ else _] => destruct x; simpl
           end; reflexivity.
Qed.

(** What the input selection reads depends only on which of the
    denominators and numerators of the last three corners are zero. *)
Lemma corner_bounds_selection (k : coeffs) :
  let bd := corner_bounds k in
  bf bd = (if truthy (f k) then Some (b k / f k) else None)
  /\ cg bd = (if truthy (g k) then Some (c k / g k) else None)
  /\ dh bd = (if truthy (h k) then Some (d k / h k)
              else if truthy (d k) then None else Some 0)
  /\ ingest_x bd =
       (if truthy (g k) || truthy (c k) then
          if truthy (f k) || truthy (b k) then None else Some false
        else Some true).
Proof.
  destruct k as [a b c d e f g h]. simpl. unfold corner_bounds.
  destruct (truthy e), (truthy a), (truthy f), (truthy b),
    (truthy g), (truthy c), (truthy h), (truthy d); simpl;
    repeat match goal with
           | |- context [if ?x then _ else _] => destruct x; simpl
           end; auto.
Qed.

(** A turn with no upper bound yields the end marker, or costs one
    iteration and polls an input. *)
Lemma turn_without_upper (r : regs) :
  upper (corner_bounds (co r)) = None ->
  (exists s, step x_pq y_pq (Loop r) = Yield None s)
  \/ (iters_left r <> 0
      /\ step x_pq y_pq (Loop r)
         = poll x_pq y_pq (with_coeffs r (iters_left r - 1) (co r))).
Proof.
  intros Hu. simpl. unfold undecided. rewrite Hu.
  destruct (lower (corner_bounds (co r))); simpl.
  - destruct (truthy (iters_left r)) eqn:Hil.
    + right. apply truthy_true in Hil. auto.
    + left. eauto.
  - left. eauto.
Qed.

Lemma sum_shape_ingested_x (sign : Z) (k : coeffs) (q : Z) :
  sum_shape sign k -> sum_shape sign (ingested_x k q).
Proof.
  destruct k as [a b c d e f g h]. unfold sum_shape. simpl.
  intros (He & Hg & Ha & Hc & Hn). subst e g.
  repeat split; lia.
Qed.

Hypothesis y_no_value : y_pq 0%nat = None.

Lemma sum_with_no_value (sign : Z) (n : nat) : forall r : regs,
  sign <> 0 -> iters_left r = Z.of_nat n -> ny r = 0%nat ->
  sum_shape sign (co r) ->
  ends_at_once (step x_pq y_pq) (Loop r).
Proof.
  induction n as [|n IH]; intros r Hs Hil Hny Hshape;
    pose proof Hshape as (He & Hg & Ha & Hc & Hn);
    (destruct (turn_without_upper r) as [[s Hy]|[Hpos Hstep]];
     [apply upper_undefined; destruct Hn; [left | right; right; left]; auto
     | eapply ends_yield; exact Hy | ]).
  - simpl in Hil. contradiction.
  - unfold poll in Hstep. cbn [co with_coeffs nx ny iters_left allowed_iters] in Hstep.
    destruct (choose_input (corner_bounds (co r))).
    + destruct (x_pq (nx r)) as [q|].
      * eapply ends_silent; [exact Hstep|]. apply IH; simpl; try assumption.
        -- lia.
        -- apply sum_shape_ingested_x. exact Hshape.
      * eapply ends_silent; [exact Hstep|]. apply over_y_ends.
        rewrite He, Hny. destruct (Z.eq_dec (f (co r)) 0) as [Hf|Hf].
        -- rewrite Hf. apply homographic_no_denominator.
        -- apply homographic_input_ended; [exact y_no_value | nia | exact Hf].
    + rewrite Hny, y_no_value in Hstep.
      eapply ends_silent; [exact Hstep|]. apply over_x_ends.
      rewrite He, Hg. apply homographic_no_denominator.
Qed.


End BihomographicNoValue.

Section Turns.
Import Bihomographic.
Variables x_pq y_pq : nat -> quotient.

(** One turn with no upper bound, reduced to what the poll leads to. *)
Lemma turn_ends (r : regs) :
  upper (corner_bounds (co r)) = None ->
  (forall il, exists s,
     poll x_pq y_pq (with_coeffs r il (co r)) = Silent s
     /\ ends_at_once (step x_pq y_pq) s) ->
  ends_at_once (step x_pq y_pq) (Loop r).
Proof.
  intros Hu Hpoll.
  destruct (turn_without_upper x_pq y_pq r Hu) as [[s Hy]|[_ Hstep]].
  - eapply ends_yield. exact Hy.
  - destruct (Hpoll (iters_left r - 1)) as (s & Hs & Hends).
    eapply ends_silent; [rewrite Hstep; exact Hs | exact Hends].
Qed.

Lemma choose_input_selection (k : coeffs) :
  choose_input (corner_bounds k) =
    match (if truthy (g k) || truthy (c k) then
             if truthy (f k) || truthy (b k) then None else Some false
           else Some true) with
    | Some v => v
    | None =>
        if truthy (f k) then
          if truthy (g k) then
            choose_input (Bounds None None (Some (b k / f k)) (Some (c k / g k))
                            (if truthy (h k) then Some (d k / h k)
                             else if truthy (d k) then None else Some 0) None)
          else truthy (d k) && negb (truthy (h k))
        else truthy (h k) || negb (truthy (d k))
    end.
Proof.
  unfold choose_input at 1.
  destruct (corner_bounds_selection k) as (-> & -> & -> & ->).
  destruct (truthy (f k)), (truthy (g k)), (truthy (h k)), (truthy (d k)),
    (truthy (c k)), (truthy (b k)); reflexivity.
Qed.

(** The engine started on a left operand that is "no value". *)
Lemma left_no_value (max_iters : Z) (k : coeffs) :
  x_pq 0%nat = None ->
  upper (corner_bounds k) = None ->
  choose_input (corner_bounds k) = true ->
  e k = 0 -> f k = 0 ->
  ends_at_once (step x_pq y_pq) (start max_iters k).
Proof.
  intros Hx Hu Hchoose He Hf. apply turn_ends; [exact Hu|].
  intros il. unfold poll. cbn [co with_coeffs nx ny]. rewrite Hchoose, Hx.
  eexists. split; [reflexivity|]. apply over_y_ends.
  rewrite He, Hf. apply homographic_no_denominator.
Qed.

Hypothesis y_no_value : y_pq 0%nat = None.

(** [x * y] with y "no value": x is polled once, then y. *)
Lemma product_with_no_value (max_iters : Z) :
  ends_at_once (step x_pq y_pq) (start max_iters (Coeffs 1 0 0 0 0 0 0 1)).
Proof.
  apply turn_ends; [reflexivity|]. intros il. open_poll choose_input_selection. cbn [orb].
  destruct (x_pq 0%nat) as [q|].
  - eexists. split; [reflexivity|].
    replace (ingested_x (Coeffs 1 0 0 0 0 0 0 1) q)
      with (Coeffs q 0 1 0 0 1 0 0) by (unfold ingested_x; f_equal; ring).
    apply turn_ends.
    + apply upper_undefined. cbn [co a b c d e f g h]. right. right. left. lia.
    + intros il'. open_poll choose_input_selection. cbn [orb andb negb].
      rewrite y_no_value. eexists. split; [reflexivity|].
      apply over_x_ends. apply homographic_no_denominator.
  - eexists. split; [reflexivity|]. apply over_y_ends.
    apply homographic_no_denominator.
Qed.

(** [x + y] and [x - y] with y "no value", for an x whose quotient at
    index 1 is not zero: x is polled twice, then y. *)
Lemma sum_with_no_value_canonical (sign max_iters : Z) :
  sign <> 0 ->
  (forall q, x_pq 1%nat = Some q -> q <> 0) ->
  ends_at_once (step x_pq y_pq) (start max_iters (Coeffs 0 1 sign 0 0 0 0 1)).
Proof.
  intros Hs Hx1.
  apply turn_ends.
  { apply upper_undefined. cbn [co a b c d e f g h]. right. left. lia. }
  intros il. open_poll choose_input_selection. know_truthy sign. cbn [orb].
  destruct (x_pq 0%nat) as [q0|].
  2:{ eexists. split; [reflexivity|]. apply over_y_ends.
      apply homographic_no_denominator. }
  eexists. split; [reflexivity|].
  replace (ingested_x (Coeffs 0 1 sign 0 0 0 0 1) q0)
    with (Coeffs sign q0 0 1 0 1 0 0) by (unfold ingested_x; f_equal; ring).
  apply turn_ends.
  { apply upper_undefined. cbn [co a b c d e f g h]. left. lia. }
  intros il1. open_poll choose_input_selection. cbn [orb].
  destruct (x_pq 1%nat) as [q1|] eqn:Hq1.
  2:{ eexists. split; [reflexivity|]. apply over_y_ends.
      apply homographic_input_ended; [exact y_no_value | exact Hs | lia]. }
  specialize (Hx1 q1 eq_refl).
  eexists. split; [reflexivity|].
  replace (ingested_x (Coeffs sign q0 0 1 0 1 0 0) q1)
    with (Coeffs (sign * q1) (1 + q0 * q1) sign q0 0 q1 0 1)
    by (unfold ingested_x; f_equal; ring).
  apply turn_ends.
  { apply upper_undefined. cbn [co a b c d e f g h]. right. right. left. lia. }
  intros il2. open_poll choose_input_selection. know_truthy sign. know_truthy q1. cbn [orb andb negb].
  rewrite andb_false_r, y_no_value.
  eexists. split; [reflexivity|]. apply over_x_ends.
  apply homographic_no_denominator.
Qed.

End Turns.

Lemma no_value_src (max_iters : Z) (pq : nat -> quotient) :
  pq 0%nat = None -> no_value max_iters (Src pq).
Proof. intros H. exists 0%nat. simpl. rewrite H. reflexivity. Qed.

Lemma no_value_unop (max_iters : Z) (x_pq : nat -> quotient) (a b d : Z) :
  x_pq 0%nat = None -> a <> 0 \/ d = 0 ->
  no_value max_iters (Unop x_pq a b 0 d).
Proof.
  intros Hx Hcase. unfold no_value, pq0.
  destruct (Z.eq_dec d 0) as [->|Hd].
  - apply homographic_no_denominator.
  - apply homographic_input_ended; [exact Hx | tauto | exact Hd].
Qed.

(** C7. Let one operand be "no value" (its first partial quotient is the
    end marker) and the other an integer [k] or a value [w].  Then the
    sum, the difference, the product and the quotient, in either order of
    the operands, are "no value": the first partial quotient of the result
    is the end marker.  In particular "no value" times 0 and 1 divided by
    "no value" are "no value".  With "no value" on the right of [+] or
    [-], the ceiling [max_iters] is taken to be non-negative, or the
    quotient of [w] at index 1 nonzero (as the protocol requires). *)
Theorem no_value_absorbs (max_iters : Z) (nan w : nat -> quotient) (k : Z) :
  nan 0%nat = None ->
  0 <= max_iters \/ (forall q, w 1%nat = Some q -> q <> 0) ->
  let nv := no_value max_iters in
  (nv (add nan (OInt k)) /\ nv (sub nan (OInt k))
   /\ nv (mul nan (OInt k)) /\ nv (div nan (OInt k)))
  /\ (nv (radd nan k) /\ nv (rsub nan k) /\ nv (rmul nan k) /\ nv (rdiv nan k))
  /\ (nv (add nan (OCf w)) /\ nv (sub nan (OCf w))
      /\ nv (mul nan (OCf w)) /\ nv (div nan (OCf w)))
  /\ (nv (add w (OCf nan)) /\ nv (sub w (OCf nan))
      /\ nv (mul w (OCf nan)) /\ nv (div w (OCf nan)))
  /\ nv (mul nan (OInt 0)) /\ nv (rdiv nan 1).
Proof.
  intros Hnan Hw nv. subst nv.
  assert (Hadd : no_value max_iters (add nan (OInt k))).
  { unfold add. destruct (truthy k).
    - apply no_value_unop; [exact Hnan | left; lia].
    - apply no_value_src. exact Hnan. }
  assert (Hmul : forall j, no_value max_iters (mul nan (OInt j))).
  { intros j. unfold mul. rewrite Hnan. apply no_value_src. reflexivity. }
  assert (Hrdiv : forall j, no_value max_iters (rdiv nan j)).
  { intros j. unfold rdiv. rewrite Hnan. apply no_value_src. reflexivity. }
  assert (Hsum : forall sign, sign = 1 \/ sign = -1 ->
            no_value max_iters (Binop w nan 0 1 sign 0 0 0 0 1)).
  { intros sign Hsign. unfold no_value, pq0. destruct Hw as [Hpos|Hw1].
    - apply (sum_with_no_value w nan Hnan sign (Z.to_nat max_iters)); simpl; try lia.
      unfold Bihomographic.sum_shape. simpl. lia.
    - apply sum_with_no_value_canonical; [exact Hnan | lia | exact Hw1]. }
  repeat split.
  - exact Hadd.
  - unfold sub. destruct (truthy k).
    + apply no_value_unop; [exact Hnan | left; lia].
    + apply no_value_src. exact Hnan.
  - apply Hmul.
  - unfold div. destruct (k =? 1).
    + apply no_value_src. exact Hnan.
    + apply no_value_unop; [exact Hnan | left; lia].
  - exact Hadd.
  - apply no_value_unop; [exact Hnan | left; lia].
  - apply Hmul.
  - apply Hrdiv.
  - apply left_no_value; try reflexivity. exact Hnan.
  - apply left_no_value; try reflexivity. exact Hnan.
  - apply left_no_value; try reflexivity. exact Hnan.
  - unfold div. destruct (w 0%nat) as [divisor|]; [|apply no_value_src; reflexivity].
    destruct ((divisor =? 0) && _); [apply no_value_src; reflexivity|].
    apply left_no_value; try reflexivity. exact Hnan.
  - apply Hsum. left. reflexivity.
  - apply Hsum. right. reflexivity.
  - apply product_with_no_value. exact Hnan.
  - unfold div. rewrite Hnan. apply no_value_src. reflexivity.
  - apply Hmul.
  - apply Hrdiv.
Qed.

Lemma no_value_absorbs_witness :
  NaN 0%nat = None /\ 0 <= 100
  /\ no_value 100 (mul NaN (OInt 0))
  /\ no_value 100 (rdiv NaN 1)
  /\ no_value 100 (add e_pq (OCf NaN))
  /\ no_value 100 (sub NaN (OCf e_pq)).
Proof.
  assert (Hceiling : 0 <= 100) by lia.
  pose proof (no_value_absorbs 100 NaN e_pq 7 eq_refl (or_introl Hceiling)) as H.
  cbv zeta in H.
  destruct H as (_ & _ & (_ & Hsub & _) & (Hadd & _) & Hmul0 & Hrdiv1).
  split; [reflexivity|]. split; [lia|]. auto.
Defined.

Example no_value_times_zero :
  pq0 100 5 (mul NaN (OCf (cf_int 0))) = Some None
  /\ pq0 100 5 (mul (cf_int 0) (OCf NaN)) = Some None
  /\ pq0 100 5 (add e_pq (OCf NaN)) = Some None.
Proof. repeat split; vm_compute; reflexivity. Qed.

(** ** Digit emission *)

(** C9, as the code has it.  At the head of its loop [digits] stops when
    the numerator row [(a, b)] is zero (every further digit would be 0),
    after one final 0 if it has yielded nothing yet, and it stops when
    the denominator row [(c, d)] is zero.  In every other state a turn
    either yields a digit [q], the common floor of the corners, and
    rescales the numerator row to [(base*(a-c*q), base*(b-d*q))], or it
    consumes one more partial quotient of x (the end marker included). *)
Theorem digits_step_cases (base : Z) (x_pq : nat -> quotient)
    (a b c d : Z) (output_digits : bool) (nx : nat) :
  let s := Digits.Loop a b c d output_digits nx in
  (a = 0 -> b = 0 ->
   Digits.step base x_pq s
   = if output_digits then Return else Yield (Some 0) Digits.Last)
  /\ (~ (a = 0 /\ b = 0) -> c = 0 -> d = 0 ->
      Digits.step base x_pq s = Return)
  /\ (~ (a = 0 /\ b = 0) -> ~ (c = 0 /\ d = 0) ->
      (exists q,
         (c <> 0 -> q = a / c) /\ (d <> 0 -> q = b / d)
         /\ Digits.step base x_pq s
            = Yield (Some q)
                (Digits.Loop (base * (a - c * q)) (base * (b - d * q)) c d true nx))
      \/ Digits.step base x_pq s
         = match x_pq nx with
           | Some q =>
               Silent (Digits.Loop (b + a * q) a (d + c * q) c output_digits (S nx))
           | None => Silent (Digits.Loop a a c c output_digits (S nx))
           end)
  /\ Digits.step base x_pq Digits.Last = Return.
Proof.
  intros s. subst s. unfold Digits.step, Digits.corners, truthy.
  repeat split.
  - intros -> ->. reflexivity.
  - intros Hab -> ->.
    destruct (Z.eqb_spec a 0), (Z.eqb_spec b 0); simpl; try reflexivity. tauto.
  - intros Hab Hcd.
    assert (Hrow : negb (a =? 0) || negb (b =? 0) = true).
    { destruct (Z.eqb_spec a 0), (Z.eqb_spec b 0); simpl; tauto. }
    rewrite Hrow. clear Hrow.
    destruct (Z.eqb_spec c 0) as [Hc|Hc], (Z.eqb_spec d 0) as [Hd|Hd];
      cbn [negb]; [tauto | | |].
    + destruct (Z.eqb_spec a 0) as [Ha|Ha]; cbn [negb quotient_eqb].
      * left. exists (b / d). rewrite Z.eqb_refl.
        split; [tauto|]. split; reflexivity.
      * right. reflexivity.
    + destruct (Z.eqb_spec b 0) as [Hb|Hb]; cbn [negb quotient_eqb].
      * left. exists (a / c). rewrite Z.eqb_refl.
        split; [reflexivity|]. split; [tauto | reflexivity].
      * right. reflexivity.
    + cbn [quotient_eqb].
      destruct (Z.eqb_spec (a / c) (b / d)) as [Heq|Hne].
      * left. exists (a / c). split; [reflexivity|]. split; [auto|].
        rewrite <- Heq. reflexivity.
      * right. reflexivity.
Qed.

Lemma digits_step_cases_witness :
  Digits.step 10 (fixed_pqs [1]) (Digits.Loop 0 0 1 1 true 2) = Return
  /\ Digits.step 10 NaN (Digits.Loop 1 0 0 0 false 1) = Return
  /\ ((exists q,
         (2 <> 0 -> q = 7 / 2) /\ (4 <> 0 -> q = 15 / 4)
         /\ Digits.step 10 NaN (Digits.Loop 7 15 2 4 false 0)
            = Yield (Some q)
                (Digits.Loop (10 * (7 - 2 * q)) (10 * (15 - 4 * q)) 2 4 true 0))
      \/ Digits.step 10 NaN (Digits.Loop 7 15 2 4 false 0)
         = match NaN 0%nat with
           | Some q => Silent (Digits.Loop (15 + 7 * q) 7 (4 + 2 * q) 2 false 1)
           | None => Silent (Digits.Loop 7 7 2 2 false 1)
           end).
Proof.
  pose proof (digits_step_cases 10 (fixed_pqs [1]) 0 0 1 1 true 2) as (H1 & _).
  pose proof (digits_step_cases 10 NaN 1 0 0 0 false 1) as (_ & H2 & _).
  pose proof (digits_step_cases 10 NaN 7 15 2 4 false 0) as (_ & _ & H3 & _).
  cbv zeta in *.
  split; [apply H1; reflexivity|].
  split; [apply H2; [lia | reflexivity | reflexivity]|].
  apply H3; lia.
Defined.

(** C9 as stated has the emitter stop only when both rows are zero.  For
    x = 1 it yields 1 and stops with the denominator row [(1, 1)]. *)
Lemma digits_stop_over_nonzero_denominator :
  let x_pq := fixed_pqs [1] in
  Digits.step 10 x_pq Digits.start = Silent (Digits.Loop 1 1 1 0 false 1)
  /\ Digits.step 10 x_pq (Digits.Loop 1 1 1 0 false 1)
     = Silent (Digits.Loop 1 1 1 1 false 2)
  /\ Digits.step 10 x_pq (Digits.Loop 1 1 1 1 false 2)
     = Yield (Some 1) (Digits.Loop 0 0 1 1 true 2)
  /\ Digits.step 10 x_pq (Digits.Loop 0 0 1 1 true 2) = Return
  /\ Digits.stops_as_specified (Digits.Loop 0 0 1 1 true 2) = false
  /\ Digits.run 10 x_pq 10 Digits.start = [Some 1].
Proof. cbv zeta. repeat split. Qed.

(** The digits of e, and of two fractions with non-positive quotients
    after the first: [1;0,-2] is -1, and [0;3,-1,2] is 1, for which the
    emitter yields 0 and then 10. *)
Example digits_examples :
  firstn 21 (Digits.run 10 e_pq 200 Digits.start)
  = map Some [2; 7; 1; 8; 2; 8; 1; 8; 2; 8; 4; 5; 9; 0; 4; 5; 2; 3; 5; 3; 6]
  /\ Digits.run 10 (fixed_pqs [1; 0; -2]) 20 Digits.start = [Some (-1)]
  /\ Digits.run 10 (fixed_pqs [0; 3; -1; 2]) 20 Digits.start = [Some 0; Some 10]
  /\ Digits.run 10 NaN 20 Digits.start = [].
Proof. repeat split; vm_compute; reflexivity. Qed.

(** ** The generator of pi *)

(** C8. The first 13 partial quotients the generator of pi yields are
    3, 7, 15, 1, 292, 1, 1, 1, 2, 1, 3, 1, 14; the generator takes no
    input. *)
Theorem pi_first_quotients :
  exists fuel,
    Pi.take fuel 13 Pi.Start
    = map Some [3; 7; 15; 1; 292; 1; 1; 1; 2; 1; 3; 1; 14].
Proof. exists 200%nat. vm_compute. reflexivity. Qed.

(** * Further properties *)

(** In what follows an operand is given by its partial quotients:
    [fixed_pqs qs] is the [pq] of [cf(qs)] for the sequence [qs]; with
    [qs = ratio p q] it is also the [pq] of [cf(p, q)] for a plain int
    [p], and with [qs = [m]] that of [cf(m)] for a plain int [m]. *)

Lemma fixed_pqs_single (k : Z) :
  fixed_pqs [k] 0 = Some k /\ forall n, fixed_pqs [k] (S n) = None.
Proof. split; [reflexivity|]. intros [|n]; reflexivity. Qed.

(** ** The rational source and the conversions *)

(** X1.  [ratio] depends on the value of the fraction only: a common factor
    of numerator and denominator does not change the quotients. *)
Theorem ratio_scaled (k p q : Z) :
  k <> 0 -> ratio (k * p) (k * q) = ratio p q.
Proof.
  intros Hk.
  assert (Hsteps : forall (n : nat) (p q : Z),
            (Z.abs_nat q < n)%nat -> ratio (k * p) (k * q) = ratio p q).
  { clear p q. induction n as [|n IH]; intros p q Hn; [lia|].
    destruct (Z.eq_dec q 0) as [->|Hq].
    - rewrite Z.mul_0_r, !ratio_zero. reflexivity.
    - rewrite (ratio_nonzero (k * p) (k * q)) by lia.
      rewrite (ratio_nonzero p q Hq).
      rewrite Z.div_mul_cancel_l by assumption.
      rewrite Z.mul_mod_distr_l by assumption.
      f_equal. apply IH.
      pose proof (Z.mod_bound_or p q Hq). lia. }
  apply (Hsteps (S (Z.abs_nat q))). lia.
Qed.

Lemma ratio_scaled_witness :
  -3 <> 0 /\ ratio (-3 * 415) (-3 * 93) = ratio 415 93.
Proof. split; [lia | apply ratio_scaled; lia]. Defined.

Lemma expansion_head (p q : Z) :
  q <> 0 ->
  fixed_pqs (ratio p q) 0 = Some (p / q)
  /\ (p mod q = 0 -> fixed_pqs (ratio p q) 1 = None)
  /\ (p mod q <> 0 -> fixed_pqs (ratio p q) 1 = Some (q / (p mod q))).
Proof.
  intros Hq. unfold fixed_pqs. rewrite (ratio_nonzero p q Hq).
  split; [reflexivity|]. split; intros Hr; simpl.
  - rewrite Hr, ratio_zero. reflexivity.
  - rewrite (ratio_nonzero q (p mod q) Hr). reflexivity.
Qed.

Lemma quot_of_floor (p q : Z) :
  q <> 0 ->
  Z.quot p q = if (p / q >=? 0) || (p mod q =? 0) then p / q else p / q + 1.
Proof.
  intros Hq.
  destruct (Z.geb_spec (p / q) 0), (Z.eqb_spec (p mod q) 0); simpl;
    Z.to_euclidean_division_equations; nia.
Qed.

Lemma int_of_ratio_aux (p q : Z) :
  q <> 0 -> __int__ (fixed_pqs (ratio p q)) = Value (Z.quot p q).
Proof.
  intros Hq.
  destruct (expansion_head p q Hq) as (H0 & H1z & H1n).
  unfold __int__. rewrite H0, (quot_of_floor p q Hq).
  destruct (Z.eqb_spec (p mod q) 0) as [Hr|Hr].
  - rewrite (H1z Hr). simpl is_None.
    destruct ((p / q >=? 0) || true); reflexivity.
  - rewrite (H1n Hr). simpl is_None.
    destruct ((p / q >=? 0) || false); reflexivity.
Qed.

(** X2.  For a value whose partial quotients are the Euclidean expansion
    of [p/q], [int] is the quotient of [p] by [q] rounded towards zero;
    for a value with the single quotient [p] it is [p]; for a value
    without quotients, as the expansion of [p/0] is, it raises
    ValueError. *)
Theorem int_of_ratio (p q : Z) :
  q <> 0 ->
  __int__ (fixed_pqs (ratio p q)) = Value (Z.quot p q)
  /\ __int__ (fixed_pqs [p]) = Value p
  /\ __int__ (fixed_pqs (ratio p 0)) = ValueError.
Proof.
  intros Hq.
  split; [apply int_of_ratio_aux; exact Hq|]. split.
  - unfold __int__, fixed_pqs. cbn [nth_error is_None].
    rewrite orb_true_r. reflexivity.
  - unfold __int__, fixed_pqs. rewrite ratio_zero. reflexivity.
Qed.

Lemma int_of_ratio_witness :
  4 <> 0
  /\ __int__ (fixed_pqs (ratio (-7) 4)) = Value (Z.quot (-7) 4)
  /\ __int__ (fixed_pqs [-7]) = Value (-7)
  /\ __int__ (fixed_pqs (ratio (-7) 0)) = ValueError.
Proof. split; [lia | apply (int_of_ratio (-7) 4); lia]. Defined.

(** X3.  The truth value of a value whose partial quotients are the
    Euclidean expansion of [p/q] is true exactly when [p] is not zero; on
    a value without quotients [__nonzero__] raises ValueError. *)
Theorem nonzero_of_ratio (p q : Z) :
  q <> 0 ->
  __nonzero__ (fixed_pqs (ratio p q)) = Value (negb (p =? 0))
  /\ __nonzero__ (fixed_pqs (ratio p 0)) = ValueError.
Proof.
  intros Hq. split.
  - destruct (expansion_head p q Hq) as (H0 & H1z & H1n).
    unfold __nonzero__. rewrite H0. f_equal.
    destruct (Z.eq_dec (p mod q) 0) as [Hr|Hr].
    + rewrite (H1z Hr). simpl. rewrite orb_false_r. f_equal.
      destruct (Z.eqb_spec (p / q) 0), (Z.eqb_spec p 0); try reflexivity;
        exfalso; Z.to_euclidean_division_equations; nia.
    + rewrite (H1n Hr). simpl. rewrite orb_true_r.
      destruct (Z.eqb_spec p 0) as [->|]; [|reflexivity].
      rewrite Z.mod_0_l in Hr by exact Hq. contradiction.
  - unfold __nonzero__, fixed_pqs. rewrite ratio_zero. reflexivity.
Qed.

Lemma nonzero_of_ratio_witness :
  4 <> 0
  /\ __nonzero__ (fixed_pqs (ratio 0 4)) = Value (negb (0 =? 0))
  /\ __nonzero__ (fixed_pqs (ratio 0 0)) = ValueError.
Proof. split; [lia | apply (nonzero_of_ratio 0 4); lia]. Defined.

(** ** More on comparison *)

(** X4.  Comparing a value whose partial quotients are the Euclidean
    expansion of [p/q] with the int or long [k] gives the sign of
    [p/q - k], whatever the ceiling is. *)
Theorem cmp_ratio_with_int (max_iters p q k : Z) :
  q <> 0 ->
  cmp max_iters (fixed_pqs (ratio p q)) (OInt k)
  = CmpInt (long_cmp (p * Z.sgn q) (k * Z.abs q)).
Proof.
  intros Hq. destruct (expansion_head p q Hq) as (H0 & H1z & H1n).
  unfold cmp. rewrite H0, long_cmp_truthy.
  destruct (Z.eqb_spec (p / q) k) as [Hfloor|Hfloor]; simpl negb; cbv iota.
  - destruct (Z.eq_dec (p mod q) 0) as [Hr|Hr].
    + rewrite (H1z Hr). f_equal. unfold long_cmp.
      replace (p * Z.sgn q) with (k * Z.abs q)
        by (Z.to_euclidean_division_equations; nia).
      rewrite Z.compare_refl. reflexivity.
    + rewrite (H1n Hr). f_equal. unfold long_cmp.
      assert (H1 : 0 < q / (p mod q))
        by (Z.to_euclidean_division_equations; nia).
      assert (H2 : k * Z.abs q < p * Z.sgn q)
        by (Z.to_euclidean_division_equations; nia).
      apply Z.compare_gt_iff in H1, H2. rewrite H1, H2. reflexivity.
  - f_equal. unfold long_cmp.
    destruct (Z.compare_spec (p / q) k) as [Heq|Hlt|Hgt]; [contradiction | |].
    + assert (H2 : p * Z.sgn q < k * Z.abs q)
        by (Z.to_euclidean_division_equations; nia).
      apply Z.compare_lt_iff in H2. rewrite H2. reflexivity.
    + assert (H2 : k * Z.abs q < p * Z.sgn q)
        by (Z.to_euclidean_division_equations; nia).
      apply Z.compare_gt_iff in H2. rewrite H2. reflexivity.
Qed.

Lemma cmp_ratio_with_int_witness :
  -4 <> 0
  /\ cmp 100 (fixed_pqs (ratio 7 (-4))) (OInt (-2))
     = CmpInt (long_cmp (7 * Z.sgn (-4)) (-2 * Z.abs (-4))).
Proof. split; [lia | apply cmp_ratio_with_int; lia]. Defined.

Lemma cmp_loop_antisym (self_pq other_pq : nat -> quotient) (n : nat) :
  forall i,
  cmp_loop other_pq self_pq n i = opposite (cmp_loop self_pq other_pq n i).
Proof.
  induction n as [|n IH]; intros i; [reflexivity|].
  cbn [cmp_loop].
  destruct (self_pq i) as [s|], (other_pq i) as [o|]; simpl opposite.
  - rewrite !long_cmp_truthy, (Z.eqb_sym o s).
    destruct (s =? o); simpl negb; cbv iota.
    + apply IH.
    + simpl. f_equal. rewrite (long_cmp_antisym o s). ring.
  - f_equal. rewrite (long_cmp_antisym 0 s). ring.
  - f_equal. rewrite (long_cmp_antisym o 0). ring.
  - reflexivity.
Qed.

Lemma cmp_loop_same (pq : nat -> quotient) (n : nat) :
  forall i, cmp_loop pq pq n i = CmpInt 0 \/ cmp_loop pq pq n i = CmpLong 0.
Proof.
  induction n as [|n IH]; intros i; [right; reflexivity|].
  cbn [cmp_loop]. destruct (pq i) as [s|]; [|left; reflexivity].
  rewrite long_cmp_truthy, Z.eqb_refl. simpl. apply IH.
Qed.



(** Without a first quotient on the left the symmetry is lost: the
    comparison answers one way round and raises the other way round. *)
Example cmp_no_value_left :
  cmp 100 NaN (OCf (fixed_pqs [3])) = CmpInt 1
  /\ cmp 100 (fixed_pqs [3]) (OCf NaN) = CmpValueError.
Proof. split; reflexivity. Qed.

(** ** Invariants of the homographic engine *)

(** X6.  Every turn of the main loop negates the determinant [a*d - b*c]:
    a transform that is not degenerate never becomes degenerate. *)
Theorem homographic_determinant (x_pq : nat -> quotient) (nx : nat) (a b c d : Z) :
  match Homographic.step x_pq (Homographic.Loop nx a b c d) with
  | Yield _ (Homographic.Loop _ a' b' c' d') => a' * d' - b' * c' = - (a * d - b * c)
  | Silent (Homographic.Loop _ a' b' c' d') => a' * d' - b' * c' = - (a * d - b * c)
  | _ => True
  end.
Proof.
  unfold Homographic.step.
  destruct (Homographic.corners a b c d) as [ac bd] eqn:Hcorners.
  destruct (quotient_eqb ac bd) eqn:Heq.
  - destruct ac as [q|], bd as [q'|]; try exact I.
    simpl in Heq. apply Z.eqb_eq in Heq. subst q'. ring.
  - destruct (x_pq nx) as [q|]; [ring | exact I].
Qed.

(** ** The values the engines stand for *)

Lemma mobius_emit (a b c d q : Z) (x : Q) :
  ~ (mobius_den c d x == 0)%Q ->
  ~ (mobius_den (a - c * q) (b - d * q) x == 0)%Q ->
  (mobius a b c d x
   == inject_Z q + / mobius c d (a - c * q) (b - d * q) x)%Q.
Proof.
  unfold mobius, mobius_den, Z.sub.
  rewrite ?inject_Z_plus, ?inject_Z_opp, ?inject_Z_mult.
  intros H1 H2. field. split; assumption.
Qed.

Lemma mobius_ingest (a b c d q : Z) (x : Q) :
  ~ (x == 0)%Q ->
  ~ (mobius_den (d + c * q) c x == 0)%Q ->
  (mobius (b + a * q) a (d + c * q) c x
   == mobius a b c d (inject_Z q + / x))%Q.
Proof.
  unfold mobius, mobius_den.
  rewrite ?inject_Z_plus, ?inject_Z_mult.
  intros H1 H2. field. split; [assumption|].
  intros H. apply H2. rewrite <- H. ring.
Qed.

Lemma bimobius_emit (k : Bihomographic.coeffs) (q : Z) (x y : Q) :
  ~ (bimobius_den k x y == 0)%Q ->
  ~ (bimobius_den (Bihomographic.emitted k q) x y == 0)%Q ->
  (bimobius k x y
   == inject_Z q + / bimobius (Bihomographic.emitted k q) x y)%Q.
Proof.
  destruct k as [a b c d e f g h].
  unfold bimobius, bimobius_num, bimobius_den, Bihomographic.emitted, Z.sub.
  cbn [Bihomographic.a Bihomographic.b Bihomographic.c Bihomographic.d
       Bihomographic.e Bihomographic.f Bihomographic.g Bihomographic.h].
  rewrite ?inject_Z_plus, ?inject_Z_opp, ?inject_Z_mult.
  intros H1 H2. field. split; assumption.
Qed.

Lemma bimobius_ingest_x (k : Bihomographic.coeffs) (q : Z) (x y : Q) :
  ~ (x == 0)%Q ->
  ~ (bimobius_den (Bihomographic.ingested_x k q) x y == 0)%Q ->
  (bimobius (Bihomographic.ingested_x k q) x y
   == bimobius k (inject_Z q + / x) y)%Q.
Proof.
  destruct k as [a b c d e f g h].
  unfold bimobius, bimobius_num, bimobius_den, Bihomographic.ingested_x.
  cbn [Bihomographic.a Bihomographic.b Bihomographic.c Bihomographic.d
       Bihomographic.e Bihomographic.f Bihomographic.g Bihomographic.h].
  rewrite ?inject_Z_plus, ?inject_Z_mult.
  intros H1 H2. field. split; [assumption|].
  intros H. apply H2. rewrite <- H. ring.
Qed.

Lemma bimobius_ingest_y (k : Bihomographic.coeffs) (q : Z) (x y : Q) :
  ~ (y == 0)%Q ->
  ~ (bimobius_den (Bihomographic.ingested_y k q) x y == 0)%Q ->
  (bimobius (Bihomographic.ingested_y k q) x y
   == bimobius k x (inject_Z q + / y))%Q.
Proof.
  destruct k as [a b c d e f g h].
  unfold bimobius, bimobius_num, bimobius_den, Bihomographic.ingested_y.
  cbn [Bihomographic.a Bihomographic.b Bihomographic.c Bihomographic.d
       Bihomographic.e Bihomographic.f Bihomographic.g Bihomographic.h].
  rewrite ?inject_Z_plus, ?inject_Z_mult.
  intros H1 H2. field. split; [assumption|].
  intros H. apply H2. rewrite <- H. ring.
Qed.

(** X7.  One turn of [_cf_homographic] keeps the value it stands for.  When
    it yields [q], the value is [q + 1/z'], with [z'] the value of the
    new coefficients at the same [x]; when it consumes the quotient [q]
    of x, the new coefficients give at [x'] the value the old ones gave
    at [q + 1/x']. *)
Theorem homographic_step_value (x_pq : nat -> quotient) (nx : nat) (a b c d : Z) :
  match Homographic.step x_pq (Homographic.Loop nx a b c d) with
  | Yield (Some q) (Homographic.Loop nx' a' b' c' d') =>
      nx' = nx
      /\ forall x : Q,
         ~ (mobius_den c d x == 0)%Q -> ~ (mobius_den c' d' x == 0)%Q ->
         (mobius a b c d x == inject_Z q + / mobius a' b' c' d' x)%Q
  | Silent (Homographic.Loop nx' a' b' c' d') =>
      exists q, x_pq nx = Some q /\ nx' = S nx
      /\ forall x : Q,
         ~ (x == 0)%Q -> ~ (mobius_den c' d' x == 0)%Q ->
         (mobius a' b' c' d' x == mobius a b c d (inject_Z q + / x))%Q
  | _ => True
  end.
Proof.
  unfold Homographic.step.
  destruct (Homographic.corners a b c d) as [ac bd] eqn:Hcorners.
  destruct (quotient_eqb ac bd) eqn:Heq.
  - destruct ac as [q|], bd as [q'|]; try exact I.
    simpl in Heq. apply Z.eqb_eq in Heq. subst q'.
    split; [reflexivity|]. intros x H1 H2. apply mobius_emit; assumption.
  - destruct (x_pq nx) as [q|]; [|exact I].
    exists q. split; [reflexivity|]. split; [reflexivity|].
    intros x H1 H2. apply mobius_ingest; assumption.
Qed.

Section BihomographicValue.

Import Bihomographic.

Variables x_pq y_pq : nat -> quotient.

Lemma poll_cases (r : regs) :
  match poll x_pq y_pq r with
  | Silent (Loop r') =>
      (exists q, x_pq (nx r) = Some q /\ nx r' = S (nx r) /\ ny r' = ny r
                 /\ co r' = ingested_x (co r) q)
      \/ (exists q, y_pq (ny r) = Some q /\ nx r' = nx r /\ ny r' = S (ny r)
                    /\ co r' = ingested_y (co r) q)
  | Silent (OverY _ s) =>
      x_pq (nx r) = None
      /\ s = Homographic.Loop (ny r) (a (co r)) (b (co r)) (e (co r)) (f (co r))
  | Silent (OverX _ s) =>
      y_pq (ny r) = None
      /\ s = Homographic.Loop (nx r) (a (co r)) (c (co r)) (e (co r)) (g (co r))
  | _ => False
  end.
Proof.
  unfold poll. destruct (choose_input (corner_bounds (co r))).
  - destruct (x_pq (nx r)) as [q|]; [|split; reflexivity].
    left. exists q. simpl. auto.
  - destruct (y_pq (ny r)) as [q|]; [|split; reflexivity].
    right. exists q. simpl. auto.
Qed.

End BihomographicValue.

(** X8.  One turn of [_cf_bihomographic] keeps the value it stands for, in
    the same way: a yielded [q] leaves [z = q + 1/z'], and a quotient
    [q] consumed from x (from y) replaces [x] by [q + 1/x'] ([y] by
    [q + 1/y']). *)
Theorem bihomographic_step_value (x_pq y_pq : nat -> quotient)
    (r : Bihomographic.regs) :
  match Bihomographic.step x_pq y_pq (Bihomographic.Loop r) with
  | Yield (Some q) (Bihomographic.Loop r') =>
      Bihomographic.nx r' = Bihomographic.nx r
      /\ Bihomographic.ny r' = Bihomographic.ny r
      /\ forall x y : Q,
         ~ (bimobius_den (Bihomographic.co r) x y == 0)%Q ->
         ~ (bimobius_den (Bihomographic.co r') x y == 0)%Q ->
         (bimobius (Bihomographic.co r) x y
          == inject_Z q + / bimobius (Bihomographic.co r') x y)%Q
  | Silent (Bihomographic.Loop r') =>
      (exists q,
         x_pq (Bihomographic.nx r) = Some q
         /\ Bihomographic.nx r' = S (Bihomographic.nx r)
         /\ Bihomographic.ny r' = Bihomographic.ny r
         /\ forall x y : Q,
            ~ (x == 0)%Q ->
            ~ (bimobius_den (Bihomographic.co r') x y == 0)%Q ->
            (bimobius (Bihomographic.co r') x y
             == bimobius (Bihomographic.co r) (inject_Z q + / x) y)%Q)
      \/ (exists q,
         y_pq (Bihomographic.ny r) = Some q
         /\ Bihomographic.nx r' = Bihomographic.nx r
         /\ Bihomographic.ny r' = S (Bihomographic.ny r)
         /\ forall x y : Q,
            ~ (y == 0)%Q ->
            ~ (bimobius_den (Bihomographic.co r') x y == 0)%Q ->
            (bimobius (Bihomographic.co r') x y
             == bimobius (Bihomographic.co r) x (inject_Z q + / y))%Q)
  | _ => True
  end.
Proof.
  assert (Hpoll : forall r0 : Bihomographic.regs,
    Bihomographic.co r0 = Bihomographic.co r ->
    Bihomographic.nx r0 = Bihomographic.nx r ->
    Bihomographic.ny r0 = Bihomographic.ny r ->
    match Bihomographic.poll x_pq y_pq r0 with
    | Yield (Some q) (Bihomographic.Loop r') => False
    | Silent (Bihomographic.Loop r') =>
        (exists q,
           x_pq (Bihomographic.nx r) = Some q
           /\ Bihomographic.nx r' = S (Bihomographic.nx r)
           /\ Bihomographic.ny r' = Bihomographic.ny r
           /\ forall x y : Q,
              ~ (x == 0)%Q ->
              ~ (bimobius_den (Bihomographic.co r') x y == 0)%Q ->
              (bimobius (Bihomographic.co r') x y
               == bimobius (Bihomographic.co r) (inject_Z q + / x) y)%Q)
        \/ (exists q,
           y_pq (Bihomographic.ny r) = Some q
           /\ Bihomographic.nx r' = Bihomographic.nx r
           /\ Bihomographic.ny r' = S (Bihomographic.ny r)
           /\ forall x y : Q,
              ~ (y == 0)%Q ->
              ~ (bimobius_den (Bihomographic.co r') x y == 0)%Q ->
              (bimobius (Bihomographic.co r') x y
               == bimobius (Bihomographic.co r) x (inject_Z q + / y))%Q)
    | _ => True
    end).
  { intros r0 Hco Hnx Hny. pose proof (poll_cases x_pq y_pq r0) as H.
    destruct (Bihomographic.poll x_pq y_pq r0) as [v s|s| |]; try exact I.
    - destruct v; [|exact I]. destruct s; try exact I. contradiction.
    - destruct s as [r'| | | | |]; try exact I.
      rewrite Hco, Hnx, Hny in H.
      destruct H as [(q & Hq & H1 & H2 & H3)|(q & Hq & H1 & H2 & H3)];
        [left | right]; exists q; repeat split; try assumption;
        intros x y Hx Hden; rewrite H3 in *;
        [apply bimobius_ingest_x | apply bimobius_ingest_y]; assumption. }
  unfold Bihomographic.step.
  destruct (quotient_eqb _ _).
  - destruct (Bihomographic.upper _) as [q|]; [|exact I].
    cbn [Bihomographic.with_coeffs Bihomographic.nx Bihomographic.ny Bihomographic.co].
    split; [reflexivity|]. split; [reflexivity|].
    intros x y H1 H2. apply bimobius_emit; assumption.
  - destruct (Bihomographic.undecided _).
    + destruct (truthy _).
      * pose proof (Hpoll (Bihomographic.with_coeffs r
                             (Bihomographic.iters_left r - 1) (Bihomographic.co r))
                      eq_refl eq_refl eq_refl) as H.
        destruct (Bihomographic.poll _ _ _) as [v s|s| |]; try exact I.
        -- destruct v; [|exact I]. destruct s; try exact I. contradiction.
        -- exact H.
      * destruct (Bihomographic.upper _); exact I.
    + pose proof (Hpoll r eq_refl eq_refl eq_refl) as H.
      destruct (Bihomographic.poll _ _ _) as [v s|s| |]; try exact I.
      -- destruct v; [|exact I]. destruct s; try exact I. contradiction.
      -- exact H.
Qed.

(** ** The gcd of the generator of pi *)

Lemma pi_gcd_body (x y : Z) :
  Pi.gcd x y = if truthy y then Pi.gcd y (x mod y) else x.
Proof.
  rewrite Pi.gcd_equation_1. unfold truthy.
  destruct (Z.eq_dec y 0) as [->|Hy]; simpl.
  - reflexivity.
  - destruct (Z.eqb_spec y 0); [contradiction | reflexivity].
Qed.

Lemma pi_gcd_abs_aux (n : nat) : forall x y : Z,
  (Z.abs_nat y < n)%nat -> Z.abs (Pi.gcd x y) = Z.gcd x y.
Proof.
  induction n as [|n IH]; intros x y Hn; [lia|].
  rewrite pi_gcd_body. unfold truthy.
  destruct (Z.eqb_spec y 0) as [->|Hy]; simpl.
  - rewrite Z.gcd_0_r. reflexivity.
  - rewrite IH by (pose proof (Z.mod_bound_or x y Hy); lia).
    rewrite Z.gcd_comm, Z.gcd_mod by exact Hy. apply Z.gcd_comm.
Qed.

(** X9.  The local [gcd] of the generator of pi is the greatest common
    divisor up to its sign, so the occasional reduction divides the four
    coefficients exactly. *)
Theorem pi_gcd_divides (a b c d : Z) :
  let gcd_abcd := Pi.gcd a (Pi.gcd c (Pi.gcd b d)) in
  Z.abs gcd_abcd = Z.gcd a (Z.gcd c (Z.gcd b d))
  /\ a = gcd_abcd * (a / gcd_abcd) /\ b = gcd_abcd * (b / gcd_abcd)
  /\ c = gcd_abcd * (c / gcd_abcd) /\ d = gcd_abcd * (d / gcd_abcd).
Proof.
  assert (Habs : forall x y, Z.abs (Pi.gcd x y) = Z.gcd x y).
  { intros x y. apply (pi_gcd_abs_aux (S (Z.abs_nat y))). lia. }
  intros g.
  assert (Hg : Z.abs g = Z.gcd a (Z.gcd c (Z.gcd b d))).
  { unfold g. rewrite Habs. rewrite <- (Z.gcd_abs_r a (Pi.gcd c _)), Habs.
    rewrite <- (Z.gcd_abs_r c (Pi.gcd b d)), Habs. reflexivity. }
  split; [exact Hg|].
  assert (Hdiv : forall z, (Z.gcd a (Z.gcd c (Z.gcd b d)) | z) -> z = g * (z / g)).
  { intros z Hz. rewrite <- Hg in Hz.
    apply (proj1 (Z.divide_abs_l g z)) in Hz.
    destruct (Z.eq_dec g 0) as [Hg0|Hg0].
    - rewrite Hg0 in *. destruct Hz as [w Hw]. lia.
    - destruct Hz as [w ->]. rewrite Z.div_mul by exact Hg0. ring. }
  pose proof (Z.gcd_divide_l a (Z.gcd c (Z.gcd b d))) as Ha.
  pose proof (Z.gcd_divide_r a (Z.gcd c (Z.gcd b d))) as Hr.
  pose proof (Z.gcd_divide_l c (Z.gcd b d)) as Hc.
  pose proof (Z.gcd_divide_r c (Z.gcd b d)) as Hr2.
  pose proof (Z.gcd_divide_l b d) as Hb.
  pose proof (Z.gcd_divide_r b d) as Hd.
  repeat split; apply Hdiv; eauto using Z.divide_trans.
Qed.

(** ** Closed forms *)

(** X10.  The closed forms behind [exp] obey the protocol of the partial
    quotients: for [inverse_exponent > 1], and for [e] itself, every
    quotient is a positive integer and the stream never ends.  The
    stream of [e] is the general closed form at 1 with its zero quotient
    at index 1 folded away: [1; 0, 1, ...] becomes [2; ...]. *)
Theorem exp_1n_closed_form (inverse_exponent : Z) (index : nat) :
  (1 < inverse_exponent ->
   exists q, exp_1n_pq_closure inverse_exponent index = Some q /\ 1 <= q)
  /\ (exists q, e_pq index = Some q /\ 1 <= q)
  /\ e_pq (S index) = exp_1n_pq_closure 1 (S index + 2)
  /\ exp_1n_pq_closure 1 1 = Some 0
  /\ (exists q0 q2, exp_1n_pq_closure 1 0 = Some q0
        /\ exp_1n_pq_closure 1 2 = Some q2 /\ e_pq 0 = Some (q0 + q2)).
Proof.
  split; [|split; [|split; [|split]]].
  - intros Hn. unfold exp_1n_pq_closure.
    destruct (Z.eqb_spec (Z.of_nat index mod 3) 1); eexists; split;
      try reflexivity; try lia.
    assert (0 <= Z.of_nat index / 3) by (apply Z.div_pos; lia). nia.
  - unfold e_pq, truthy.
    destruct (Z.eqb_spec (Z.of_nat index mod 3) 2);
      [|destruct (Z.eqb_spec (Z.of_nat index) 0)]; eexists; split;
      try reflexivity; try lia.
    assert (0 <= Z.of_nat index / 3) by (apply Z.div_pos; lia). lia.
  - unfold e_pq, exp_1n_pq_closure, truthy. rewrite Nat2Z.inj_add.
    assert (Hi : 1 <= Z.of_nat (S index)) by lia.
    change (Z.of_nat 2) with 2. generalize dependent (Z.of_nat (S index)).
    intros i Hi.
    destruct (Z.eqb_spec (i mod 3) 2), (Z.eqb_spec ((i + 2) mod 3) 1),
      (Z.eqb_spec i 0); cbv beta iota; try lia; try reflexivity;
      try (exfalso; Z.to_euclidean_division_equations; lia).
    apply f_equal. Z.to_euclidean_division_equations. lia.
  - reflexivity.
  - exists 1, 1. repeat split.
Qed.

Lemma exp_1n_closed_form_witness :
  1 < 5 /\ exists q, exp_1n_pq_closure 5 7 = Some q /\ 1 <= q.
Proof.
  split; [lia | apply (proj1 (exp_1n_closed_form 5 7)); lia].
Defined.

(** X11.  The same for the closed forms behind [tan]: for
    [inverse_argument > 1] every quotient after the first is a positive
    integer, [tan_1_pq] has positive quotients throughout, and it is the
    general closed form at 1 with the zero quotient at index 1 folded
    away. *)
Theorem tan_1n_closed_form (inverse_argument : Z) (index : nat) :
  (1 < inverse_argument ->
   exists q, tan_1n_pq_closure inverse_argument (S index) = Some q /\ 1 <= q)
  /\ (exists q, tan_1_pq index = Some q /\ 1 <= q)
  /\ tan_1_pq (S index) = tan_1n_pq_closure 1 (S index + 2)
  /\ tan_1n_pq_closure 1 1 = Some 0
  /\ (exists q0 q2, tan_1n_pq_closure 1 0 = Some q0
        /\ tan_1n_pq_closure 1 2 = Some q2 /\ tan_1_pq 0 = Some (q0 + q2)).
Proof.
  split; [|split; [|split; [|split]]].
  - intros Hn. unfold tan_1n_pq_closure, truthy.
    rewrite Nat2Z.inj_succ.
    destruct (Z.gtb_spec (Z.succ (Z.of_nat index)) 1);
      [destruct (Z.eqb_spec (Z.succ (Z.of_nat index) mod 2) 0)
      |destruct (Z.eqb_spec (Z.succ (Z.of_nat index)) 0)];
      simpl; eexists; split; try reflexivity; try lia; nia.
  - unfold tan_1_pq, truthy.
    destruct (Z.eqb_spec (Z.of_nat index mod 2) 0) as [H0|H0]; simpl;
      eexists; split; try reflexivity; try lia.
    destruct index; [exfalso; apply H0; reflexivity | lia].
  - unfold tan_1_pq, tan_1n_pq_closure, truthy. rewrite Nat2Z.inj_add.
    assert (Hi : 1 <= Z.of_nat (S index)) by lia.
    change (Z.of_nat 2) with 2. generalize dependent (Z.of_nat (S index)).
    intros i Hi.
    destruct (Z.gtb_spec (i + 2) 1); [|lia].
    destruct (Z.eqb_spec (i mod 2) 0), (Z.eqb_spec ((i + 2) mod 2) 0);
      cbv beta iota; simpl negb; cbv iota; try reflexivity;
      try (exfalso; Z.to_euclidean_division_equations; lia).
    apply f_equal. lia.
  - reflexivity.
  - exists 0, 1. repeat split.
Qed.

Lemma tan_1n_closed_form_witness :
  1 < 5 /\ exists q, tan_1n_pq_closure 5 (S 6) = Some q /\ 1 <= q.
Proof.
  split; [lia | apply (proj1 (tan_1n_closed_form 5 6)); lia].
Defined.

(** X12.  [cf(x, y)] for sequences: the quotients of [x] first, then those of
    a non-empty [y] again and again. *)
Theorem fixed_pqs_closure_periodic (x y : list Z) (n : nat) :
  ((n < length x)%nat -> fixed_pqs_closure x y n = nth_error x n)
  /\ (y <> [] -> (length x <= n)%nat ->
      fixed_pqs_closure x y (n + length y) = fixed_pqs_closure x y n
      /\ fixed_pqs_closure x y n <> None).
Proof.
  unfold fixed_pqs_closure. split.
  - intros Hn. apply Nat.ltb_lt in Hn. rewrite Hn. reflexivity.
  - intros Hy Hn.
    assert (Hlen : length y <> 0%nat) by (destruct y; [contradiction | discriminate]).
    destruct (Nat.ltb_spec (n + length y) (length x)); [lia|].
    destruct (Nat.ltb_spec n (length x)); [lia|].
    replace (n + length y - length x)%nat
      with ((n - length x) + 1 * length y)%nat by lia.
    rewrite Nat.Div0.mod_add. split; [reflexivity|].
    apply nth_error_Some. apply Nat.mod_upper_bound. exact Hlen.
Qed.

Lemma fixed_pqs_closure_periodic_witness :
  [1; 2] <> [] /\ (length [3; 4; 5] <= 4)%nat
  /\ fixed_pqs_closure [3; 4; 5] [1; 2] (4 + length [1; 2])
     = fixed_pqs_closure [3; 4; 5] [1; 2] 4
  /\ fixed_pqs_closure [3; 4; 5] [1; 2] 4 <> None.
Proof.
  split; [discriminate|]. split; [simpl; lia|].
  apply (proj2 (fixed_pqs_closure_periodic [3; 4; 5] [1; 2] 4));
    [discriminate | simpl; lia].
Defined.

(** ** The integer square root *)

Lemma newton_lower (x r : Z) :
  0 <= x -> 1 <= r -> Z.sqrt x <= (r + x / r) / 2.
Proof.
  intros Hx Hr. pose proof (Z.sqrt_spec x Hx) as Hs. cbv zeta in Hs.
  pose proof (Z.sqrt_nonneg x) as Hs0.
  apply Z.div_le_lower_bound; [lia|].
  assert (Hdiv : x < r * (x / r + 1)).
  { pose proof (Z.div_mod x r ltac:(lia)).
    pose proof (Z.mod_pos_bound x r ltac:(lia)). nia. }
  destruct (Z.le_gt_cases (2 * Z.sqrt x) (r + x / r)) as [Hle|Hgt]; [exact Hle|].
  exfalso.
  assert (Hstep : r * (x / r + 1) <= r * (2 * Z.sqrt x - r))
    by (apply Z.mul_le_mono_nonneg_l; lia).
  pose proof (Z.square_nonneg (Z.sqrt x - r)) as Hsq.
  destruct Hs as [Hs _]. clear - Hs Hdiv Hstep Hsq.
  generalize dependent (x / r). generalize dependent (Z.sqrt x).
  intros s Hs Hsq t Hdiv Hstep. nia.
Qed.

Lemma isqrt_loop_converges (x : Z) (n : nat) : forall r1 : Z,
  0 <= x -> 1 <= r1 -> Z.sqrt x <= r1 ->
  (Z.to_nat (r1 - Z.sqrt x) < n)%nat ->
  exists r, isqrt_loop n x r1 (x / r1) = Some (Root r)
            /\ (r = Z.sqrt x \/ r = Z.sqrt x + 1).
Proof.
  induction n as [|n IH]; intros r1 Hx Hr1 Hs Hn; [lia|].
  pose proof (Z.sqrt_spec x Hx) as Hspec. cbv zeta in Hspec.
  pose proof (Z.sqrt_nonneg x) as Hs0.
  set (s := Z.sqrt x) in *.
  assert (Hq : r1 * (x / r1) <= x < r1 * (x / r1 + 1)).
  { pose proof (Z.div_mod x r1 ltac:(lia)).
    pose proof (Z.mod_pos_bound x r1 ltac:(lia)). nia. }
  assert (Hq0 : 0 <= x / r1) by (apply Z.div_pos; lia).
  cbn [isqrt_loop].
  destruct ((-1 <=? r1 - x / r1) && (r1 - x / r1 <=? 1)) eqn:Hcond.
  - exists r1. split; [reflexivity|].
    apply andb_prop in Hcond. destruct Hcond as [H1 H2].
    apply Z.leb_le in H1, H2.
    destruct (Z.eq_dec r1 s); [left; assumption | right].
    destruct (Z.lt_ge_cases r1 (s + 2)) as [Hlt|Hge]; [lia|]. exfalso.
    assert (Hprod : (s + 2) * (s + 1) <= r1 * (x / r1))
      by (apply Z.mul_le_mono_nonneg; lia).
    unfold Z.succ in Hspec. nia.
  - assert (Hfar : r1 - x / r1 < -1 \/ 1 < r1 - x / r1).
    { apply andb_false_iff in Hcond.
      destruct Hcond as [H|H]; apply Z.leb_gt in H; lia. }
    pose proof (newton_lower x r1 Hx Hr1) as Hlow. fold s in Hlow.
    assert (Hpos : 1 <= (r1 + x / r1) / 2).
    { apply Z.div_le_lower_bound; lia. }
    destruct (Z.eqb_spec ((r1 + x / r1) / 2) 0) as [H0|_]; [lia|].
    destruct (Z.eq_dec r1 s) as [Heq|Hne].
    + (* r1 = s: one more turn reaches s + 1, where the loop stops *)
      assert (Hx2 : x / r1 = s + 2).
      { unfold Z.succ in Hspec. rewrite Heq in *.
        assert (Hlo : s <= x / s).
        { destruct (Z.le_gt_cases s (x / s)) as [Hle|Hgt]; [exact Hle|].
          exfalso.
          assert (s * (x / s + 1) <= s * s)
            by (apply Z.mul_le_mono_nonneg_l; lia). lia. }
        assert (Hhi : x / s <= s + 2).
        { destruct (Z.le_gt_cases (x / s) (s + 2)) as [Hle|Hgt]; [exact Hle|].
          exfalso.
          assert (s * (s + 3) <= s * (x / s))
            by (apply Z.mul_le_mono_nonneg_l; lia). nia. }
        lia. }
      assert (Hnext : (r1 + x / r1) / 2 = s + 1).
      { rewrite Hx2, Heq. replace (s + (s + 2)) with ((s + 1) * 2) by ring.
        apply Z.div_mul. lia. }
      rewrite Hnext.
      assert (Hdiv : x / (s + 1) = s).
      { assert (Hlow2 : s * (s + 2) <= x)
          by (rewrite Hx2, Heq in Hq; lia).
        unfold Z.succ in Hspec. symmetry.
        apply (Z.div_unique x (s + 1) s (x - (s + 1) * s)); [left; nia | ring]. }
      rewrite Hdiv. exists (s + 1). split; [|right; reflexivity].
      destruct n; cbn [isqrt_loop];
        replace (s + 1 - s) with 1 by ring; reflexivity.
    + assert (Hdown : (r1 + x / r1) / 2 < r1).
      { apply Z.div_lt_upper_bound; [lia|].
        destruct (Z.lt_ge_cases (x / r1) r1) as [Hlt|Hge]; [lia|]. exfalso.
        assert (r1 * r1 <= r1 * (x / r1))
          by (apply Z.mul_le_mono_nonneg_l; lia).
        assert ((s + 1) * (s + 1) <= r1 * r1)
          by (apply Z.mul_le_mono_nonneg; lia).
        unfold Z.succ in Hspec. lia. }
      apply IH; try assumption; lia.
Qed.

(** X13.  [_cf_isqrt] stops for every [x >= 0], never divides by zero, and
    returns the floor of the square root of [x] or that floor plus one;
    a negative [x] raises ValueError. *)
Theorem isqrt_approximates (x : Z) :
  (0 <= x ->
   exists fuel r,
     _cf_isqrt fuel x = Some (Root r)
     /\ (r = Z.sqrt x \/ r = Z.sqrt x + 1) /\ 1 <= r)
  /\ (x < 0 -> forall fuel, _cf_isqrt fuel x = Some IsqrtValueError).
Proof.
  split.
  - intros Hx. unfold _cf_isqrt.
    destruct (Z.ltb_spec x 0); [lia|].
    pose proof (Z.sqrt_spec x Hx) as Hspec. cbv zeta in Hspec.
    pose proof (Z.sqrt_nonneg x) as Hs0.
    destruct ((-1 <=? 1 - x) && (1 - x <=? 1)) eqn:Hcond.
    + exists 0%nat, 1. cbn [isqrt_loop]. rewrite Hcond.
      split; [reflexivity|]. split; [|lia].
      apply andb_prop in Hcond. destruct Hcond as [H1 H2].
      apply Z.leb_le in H1, H2.
      destruct (Z.eq_dec (Z.sqrt x) 0); [right; lia | left].
      destruct (Z.lt_ge_cases (Z.sqrt x) 2) as [Hlt|Hge]; [lia|]. exfalso.
      assert (2 * 2 <= Z.sqrt x * Z.sqrt x)
        by (apply Z.mul_le_mono_nonneg; lia). lia.
    + assert (Hbig : 3 <= x).
      { apply andb_false_iff in Hcond.
        destruct Hcond as [Hc|Hc]; apply Z.leb_gt in Hc; lia. }
      pose proof (newton_lower x 1 Hx ltac:(lia)) as Hlow.
      rewrite Z.div_1_r in Hlow.
      assert (Hpos : 1 <= (1 + x) / 2) by (apply Z.div_le_lower_bound; lia).
      destruct (isqrt_loop_converges x
                  (S (Z.to_nat ((1 + x) / 2 - Z.sqrt x))) ((1 + x) / 2)
                  Hx Hpos Hlow ltac:(lia)) as (r & Hr & Hcases).
      exists (S (S (Z.to_nat ((1 + x) / 2 - Z.sqrt x)))), r.
      cbn [isqrt_loop]. rewrite Hcond.
      destruct (Z.eqb_spec ((1 + x) / 2) 0); [lia|].
      split; [exact Hr|]. split; [exact Hcases|].
      assert (1 <= Z.sqrt x).
      { destruct (Z.eq_dec (Z.sqrt x) 0) as [H0|H0]; [|lia].
        rewrite H0 in Hspec. simpl in Hspec. lia. }
      lia.
  - intros Hx fuel. unfold _cf_isqrt.
    destruct (Z.ltb_spec x 0); [reflexivity | lia].
Qed.

Lemma isqrt_approximates_witness :
  0 <= 24
  /\ exists fuel r,
       _cf_isqrt fuel 24 = Some (Root r)
       /\ (r = Z.sqrt 24 \/ r = Z.sqrt 24 + 1) /\ 1 <= r.
Proof. split; [lia | apply (proj1 (isqrt_approximates 24)); lia]. Defined.

Example isqrt_examples :
  _cf_isqrt 10 0 = Some (Root 1) /\ _cf_isqrt 10 16 = Some (Root 4)
  /\ _cf_isqrt 10 24 = Some (Root 5) /\ _cf_isqrt 10 (-1) = Some IsqrtValueError.
Proof. repeat split. Qed.

(** ** Memoized partial quotients *)

Section MemoProperties.

Context {St : Type}.

Variable step : St -> resume quotient St.

Lemma next_more_fuel (fuel : nat) : forall (s : St) (r : resume quotient St),
  Memo.next step fuel s = Some r ->
  forall more, (fuel <= more)%nat -> Memo.next step more s = Some r.
Proof.
  induction fuel as [|n IH]; intros s r H more Hmore; [discriminate|].
  destruct more as [|m]; [lia|]. simpl in *.
  destruct (step s); try exact H. apply IH; [exact H | lia].
Qed.

Lemma next_not_silent (fuel : nat) : forall (s s' : St),
  Memo.next step fuel s <> Some (Silent s').
Proof.
  induction fuel as [|n IH]; intros s s'; [discriminate|].
  simpl. destruct (step s); try discriminate. apply IH.
Qed.

(** X14.  Memoization.  A call of [pq] at an index not beyond the end of the
    cache leaves the earlier entries alone and adds at most one; asked
    again for the same index, [pq] returns the same quotient from the
    cache, without resuming the generator and without changing the
    object. *)
Theorem pq_memoizes (fuel : nat) (self self' : Memo.obj (St:=St)) (n : nat)
    (t : quotient) :
  (n <= length (Memo.cache self))%nat ->
  Memo.pq step fuel self n = Some (Memo.Returned t self') ->
  (forall fuel', Memo.pq step fuel' self' n = Some (Memo.Returned t self'))
  /\ nth_error (Memo.cache self') n = Some t
  /\ (Memo.cache self' = Memo.cache self
      \/ Memo.cache self' = Memo.cache self ++ [t])
  /\ (t = None -> n = length (Memo.cache self) -> Memo.next_pq self' = None).
Proof.
  intros Hn. unfold Memo.pq.
  destruct (Nat.ltb_spec n (length (Memo.cache self))) as [Hlt|Hge].
  - intros H. inversion H; subst. clear H.
    split; [|split; [|split]].
    + intros fuel'. apply Nat.ltb_lt in Hlt. rewrite Hlt. reflexivity.
    + apply nth_error_nth'. exact Hlt.
    + left. reflexivity.
    + intros _ Heq. lia.
  - assert (Heq : n = length (Memo.cache self)) by lia.
    destruct (Memo.next_pq self) as [s|]; [|discriminate].
    destruct (Memo.next step fuel s) as [[v s'|s'| |]|]; try discriminate.
    intros H. inversion H; subst. clear H. cbn [Memo.cache Memo.next_pq].
    split; [|split; [|split]].
    + intros fuel'. rewrite length_app. simpl length.
      destruct (Nat.ltb_spec (length (Memo.cache self))
                  (length (Memo.cache self) + 1)); [|lia].
      rewrite app_nth2, Nat.sub_diag by lia. reflexivity.
    + rewrite nth_error_app2, Nat.sub_diag by lia. reflexivity.
    + right. reflexivity.
    + intros -> _. reflexivity.
Qed.

(** Asked for an index beyond the end of its cache, [pq] does not skip
    ahead: it returns the next quotient of the generator; and once the
    end marker was produced the method is gone. *)
Example pq_out_of_protocol :
  Memo.pq Ratio.step 1 (Memo.Obj [] (Some (Ratio.Loop 415 93))) 3
  = Some (Memo.Returned (Some 4) (Memo.Obj [Some 4] (Some (Ratio.Loop 93 43))))
  /\ Memo.pq Ratio.step 1 (Memo.Obj [Some 4; None] None) 2
     = Some Memo.AttributeError.
Proof. split; reflexivity. Qed.

Lemma observe_complete_more_fuel (fuel : nat) :
  forall (s : St) (l : list quotient),
  observe step fuel s = l -> last l (Some 0) = None ->
  forall more, (fuel <= more)%nat -> observe step more s = l.
Proof.
  induction fuel as [|n IH]; intros s l H Hlast more Hmore.
  - simpl in H. subst l. discriminate.
  - destruct more as [|m]; [lia|]. simpl in *.
    destruct (step s) as [[q|] s'|s'| |].
    + destruct l as [|v l']; [discriminate|]. inversion H; subst. f_equal.
      apply IH; [reflexivity | | lia].
      destruct (observe step n s'); [discriminate | exact Hlast].
    + exact H.
    + apply IH; [exact H | exact Hlast | lia].
    + subst l. discriminate.
    + subst l. discriminate.
Qed.

Lemma observe_head (fuel : nat) : forall (s : St) (v : quotient) (l : list quotient),
  observe step fuel s = v :: l ->
  exists s', Memo.next step fuel s = Some (Yield v s')
             /\ match v with
                | Some _ => exists f', (f' <= fuel)%nat /\ observe step f' s' = l
                | None => l = []
                end.
Proof.
  induction fuel as [|n IH]; intros s v l H; [discriminate|].
  simpl in *. destruct (step s) as [[q|] s'|s'| |]; try discriminate.
  - inversion H; subst. exists s'. split; [reflexivity|]. exists n. split; [lia | reflexivity].
  - inversion H; subst. exists s'. split; reflexivity.
  - destruct (IH s' v l H) as (s'' & Hnext & Hrest). exists s''.
    split; [exact Hnext|]. destruct v; [|exact Hrest].
    destruct Hrest as (f' & Hf' & Hobs). exists f'. split; [lia | exact Hobs].
Qed.

(** X15.  The stream of a value.  If the generator yields the quotients [l],
    end marker included, then a consumer that calls [pq] for the indices
    0, 1, 2, ... of a new object receives exactly [l]. *)
Theorem pq_reads_the_stream (fuel : nat) (s : St) (l : list quotient) :
  observe step fuel s = l -> last l (Some 0) = None ->
  Memo.read_from step fuel (Memo.Obj [] (Some s)) 0 (length l) = l.
Proof.
  intros Hobs Hlast.
  assert (Hgen : forall (l : list quotient) (s : St) (c : list quotient),
            observe step fuel s = l -> last l (Some 0) = None ->
            Memo.read_from step fuel (Memo.Obj c (Some s)) (length c) (length l) = l).
  { clear. intros l. induction l as [|v l IH]; intros s c Hobs Hlast; [reflexivity|].
    destruct (observe_head fuel s v l Hobs) as (s' & Hnext & Hrest).
    cbn [length Memo.read_from]. unfold Memo.pq. cbn [Memo.cache Memo.next_pq].
    rewrite Nat.ltb_irrefl, Hnext.
    destruct v as [q|]; [|subst l; reflexivity].
    destruct Hrest as (f' & Hf' & Hobs').
    assert (Hlast' : last l (Some 0) = None).
    { destruct l; [discriminate | exact Hlast]. }
    f_equal.
    replace (S (length c)) with (length (c ++ [Some q]))
      by (rewrite length_app; simpl; lia).
    apply IH; [|exact Hlast'].
    apply (observe_complete_more_fuel f' s' l Hobs' Hlast' fuel Hf'). }
  apply (Hgen l s [] Hobs Hlast).
Qed.

End MemoProperties.

Lemma pq_memoizes_witness :
  let self := Memo.Obj [Some 4; Some 2] (Some (Ratio.Loop 13 2)) in
  let self' := Memo.Obj [Some 4; Some 2; Some 6] (Some (Ratio.Loop 2 1)) in
  (2 <= length (Memo.cache self))%nat
  /\ Memo.pq Ratio.step 1 self 2 = Some (Memo.Returned (Some 6) self')
  /\ (forall fuel', Memo.pq Ratio.step fuel' self' 2
                    = Some (Memo.Returned (Some 6) self')).
Proof.
  cbv zeta. split; [simpl; lia|]. split; [reflexivity|].
  apply (pq_memoizes Ratio.step 1
           (Memo.Obj [Some 4; Some 2] (Some (Ratio.Loop 13 2)))
           (Memo.Obj [Some 4; Some 2; Some 6] (Some (Ratio.Loop 2 1)))
           2 (Some 6)); [simpl; lia | reflexivity].
Defined.


Lemma pq_reads_the_stream_witness :
  observe Ratio.step 5 (Ratio.Loop 415 93)
    = [Some 4; Some 2; Some 6; Some 7; None]
  /\ last [Some 4; Some 2; Some 6; Some 7; None] (Some 0) = None
  /\ Memo.read_from Ratio.step 5 (Memo.Obj [] (Some (Ratio.Loop 415 93))) 0
       (length [Some 4; Some 2; Some 6; Some 7; None])
     = [Some 4; Some 2; Some 6; Some 7; None].
Proof.
  split; [reflexivity|]. split; [reflexivity|].
  apply (pq_reads_the_stream Ratio.step 5 (Ratio.Loop 415 93)); reflexivity.
Defined.

(** ** Arithmetic on values with a single quotient *)

Lemma src_stream_int (m : Z) (fuel : nat) :
  (2 <= fuel)%nat -> src_stream (fixed_pqs [m]) fuel 0 = [Some m; None].
Proof.
  intros Hfuel. destruct fuel as [|[|fuel]]; try lia.
  destruct (fixed_pqs_single m) as [H0 H1].
  cbn [src_stream]. rewrite H0, H1. reflexivity.
Qed.

Lemma ratio_denominator_one (p : Z) : ratio p 1 = [p].
Proof.
  rewrite ratio_nonzero by lia. rewrite Z.div_1_r, Z.mod_1_r, ratio_zero.
  reflexivity.
Qed.

Lemma ratio_denominator_minus_one (p : Z) : ratio p (-1) = [- p].
Proof.
  rewrite ratio_nonzero by lia.
  replace (p / -1) with (- p) by (Z.to_euclidean_division_equations; lia).
  replace (p mod -1) with 0 by (Z.to_euclidean_division_equations; lia).
  rewrite ratio_zero. reflexivity.
Qed.

(** [unop(x, a, b, 0, d)] for [x] with the single quotient [n], the value
    [(a*n + b)/d]: the engine reads the one quotient, finds the input ended and emits the
    canonical expansion of the fraction. *)
Lemma unop_integer_source (n a b d : Z) (fuel : nat) :
  a <> 0 -> d <> 0 -> (length (ratio (b + a * n) d) + 3 <= fuel)%nat ->
  stream 0 fuel (Unop (fixed_pqs [n]) a b 0 d)
  = map Some (ratio (b + a * n) d) ++ [None].
Proof.
  intros Ha Hd Hfuel. destruct fuel as [|[|fuel]]; try lia.
  destruct (fixed_pqs_single n) as [H0 H1].
  cbn [stream observe].
  rewrite (proj2 (homographic_one_undefined (fixed_pqs [n]) 0 a b 0 d) eq_refl Hd Ha).
  rewrite H0.
  replace (d + 0 * n) with d by ring.
  rewrite (proj1 (homographic_one_undefined (fixed_pqs [n]) 1 (b + a * n) a d 0)
             Hd eq_refl Ha).
  rewrite H1.
  rewrite homographic_tail_is_ratio. apply ratio_generator. lia.
Qed.

(** The engine started on [(0*x + 0)/d] or on [(0*x + 0)/(c*x)]: it emits
    0 and ends, and never reads x. *)
Lemma unop_zero (x : nat -> quotient) (c d : Z) (fuel : nat) :
  (c <> 0 /\ d = 0) \/ (c = 0 /\ d <> 0) -> (2 <= fuel)%nat ->
  stream 0 fuel (Unop x 0 0 c d) = [Some 0; None].
Proof.
  intros Hcd Hfuel. destruct fuel as [|[|fuel]]; try lia.
  cbn [stream observe].
  destruct (homographic_zero_over_zero x 0 0 0 c d) as (Hc & Hd & _).
  destruct Hcd as [[Hc0 ->]|[-> Hd0]].
  - rewrite (Hc Hc0 eq_refl eq_refl).
    rewrite Z.div_0_l by exact Hc0.
    replace (0 - c * 0) with 0 by ring. replace (0 - 0 * 0) with 0 by ring.
    reflexivity.
  - rewrite (Hd eq_refl Hd0 eq_refl).
    rewrite Z.div_0_l by exact Hd0.
    replace (0 - d * 0) with 0 by ring. replace (0 - 0 * 0) with 0 by ring.
    reflexivity.
Qed.

(** [unop(x, 0, k, 1, 0)] for [x] with the single quotient [m], the value
    [k/m], for a nonzero [k]: the
    canonical expansion of the fraction, NaN when [m] is zero. *)
Lemma unop_reciprocal_integer (m k : Z) (fuel : nat) :
  k <> 0 -> (length (ratio k m) + 3 <= fuel)%nat ->
  stream 0 fuel (Unop (fixed_pqs [m]) 0 k 1 0) = map Some (ratio k m) ++ [None].
Proof.
  intros Hk Hfuel. destruct (fixed_pqs_single m) as [H0 H1].
  destruct fuel as [|[|[|fuel]]]; try lia.
  cbn [stream]. cbn [observe].
  rewrite (proj1 (homographic_one_undefined (fixed_pqs [m]) 0 0 k 1 0)
             ltac:(lia) eq_refl Hk).
  rewrite H0.
  replace (k + 0 * m) with k by ring. replace (0 + 1 * m) with m by ring.
  destruct (Z.eq_dec m 0) as [->|Hm].
  + rewrite (proj2 (homographic_one_undefined (fixed_pqs [0]) 1 k 0 0 1)
               eq_refl ltac:(lia) Hk).
    rewrite H1. rewrite ratio_zero. reflexivity.
  + rewrite (homographic_both_defined (fixed_pqs [m]) 1 k 0 m 1 Hm ltac:(lia)).
    rewrite Z.div_1_r. rewrite H1.
    destruct (Z.eqb_spec (k / m) 0) as [Hq|Hq].
    * rewrite Hq. replace (k - m * 0) with k by ring.
      replace (0 - 1 * 0) with 0 by ring.
      cbn [observe].
      rewrite (proj1 (homographic_one_undefined (fixed_pqs [m]) 1 m 1 k 0)
                 Hk eq_refl ltac:(lia)).
      rewrite H1.
      rewrite homographic_tail_is_ratio.
      rewrite (ratio_nonzero k m Hm), Hq.
      assert (Hmod : k mod m = k).
      { pose proof (Z.div_mod k m Hm) as Hdm. rewrite Hq in Hdm. lia. }
      rewrite Hmod. cbn [map app]. f_equal.
      apply ratio_generator.
      rewrite (ratio_nonzero k m Hm), Hq, Hmod in Hfuel. simpl in Hfuel. lia.
    * change (observe (Homographic.step (fixed_pqs [m])) (S fuel)
                (Homographic.Tail 2 k 0 m 1)
              = map Some (ratio k m) ++ [None]).
      rewrite homographic_tail_is_ratio. apply ratio_generator. lia.
Qed.

Lemma unop_integer_over_one (max_iters m a b : Z) (fuel : nat) :
  (4 <= fuel)%nat -> a <> 0 ->
  stream max_iters fuel (Unop (fixed_pqs [m]) a b 0 1) = [Some (b + a * m); None].
Proof.
  intros Hfuel Ha.
  change (stream max_iters fuel (Unop (fixed_pqs [m]) a b 0 1))
    with (stream 0 fuel (Unop (fixed_pqs [m]) a b 0 1)).
  rewrite unop_integer_source; rewrite ?ratio_denominator_one;
    [reflexivity | exact Ha | lia | simpl; lia].
Qed.

Lemma unop_integer_over_minus_one (max_iters m a b : Z) (fuel : nat) :
  (4 <= fuel)%nat -> a <> 0 ->
  stream max_iters fuel (Unop (fixed_pqs [m]) a b 0 (-1))
  = [Some (- (b + a * m)); None].
Proof.
  intros Hfuel Ha.
  change (stream max_iters fuel (Unop (fixed_pqs [m]) a b 0 (-1)))
    with (stream 0 fuel (Unop (fixed_pqs [m]) a b 0 (-1))).
  rewrite unop_integer_source; rewrite ?ratio_denominator_minus_one;
    [reflexivity | exact Ha | lia | simpl; lia].
Qed.

Lemma integer_minus_int (max_iters m k : Z) (fuel : nat) :
  (4 <= fuel)%nat ->
  stream max_iters fuel (sub (fixed_pqs [m]) (OInt k)) = [Some (m - k); None].
Proof.
  intros Hfuel.
  unfold sub, truthy. destruct (Z.eqb_spec k 0) as [->|Hk]; cbn [negb].
  - cbn [stream]. rewrite src_stream_int by lia. rewrite Z.sub_0_r. reflexivity.
  - rewrite unop_integer_over_minus_one by lia.
    replace (- (k + -1 * m)) with (m - k) by ring. reflexivity.
Qed.

(** X16.  Integer arithmetic is exact.  For a value with the single
    quotient [m], as [cf([m])] is, and an int or long [k], the operators
    [+], [-], [*], the reflected [-], negation and [abs] give a value
    whose quotients are the one integer [m + k], [m - k], [m * k],
    [k - m], [-m], [|m|], followed by the end. *)
Theorem integer_arithmetic_exact (max_iters m k : Z) (fuel : nat) :
  (4 <= fuel)%nat ->
  stream max_iters fuel (add (fixed_pqs [m]) (OInt k)) = [Some (m + k); None]
  /\ stream max_iters fuel (sub (fixed_pqs [m]) (OInt k)) = [Some (m - k); None]
  /\ stream max_iters fuel (mul (fixed_pqs [m]) (OInt k)) = [Some (m * k); None]
  /\ stream max_iters fuel (rsub (fixed_pqs [m]) k) = [Some (k - m); None]
  /\ stream max_iters fuel (__neg__ (fixed_pqs [m])) = [Some (- m); None]
  /\ stream max_iters fuel (__abs__ (fixed_pqs [m])) = [Some (Z.abs m); None].
Proof.
  intros Hfuel.
  assert (Hsrc : stream max_iters fuel (Src (fixed_pqs [m])) = [Some m; None]).
  { apply src_stream_int. lia. }
  destruct (fixed_pqs_single m) as [H0 _].
  repeat split.
  - unfold add, truthy. destruct (Z.eqb_spec k 0) as [->|Hk]; cbn [negb].
    + rewrite Hsrc, Z.add_0_r. reflexivity.
    + rewrite unop_integer_over_one by lia.
      replace (k + 1 * m) with (m + k) by ring. reflexivity.
  - apply integer_minus_int. exact Hfuel.
  - unfold mul. rewrite H0. destruct (Z.eqb_spec k 1) as [->|Hk].
    + rewrite Hsrc, Z.mul_1_r. reflexivity.
    + destruct (Z.eq_dec k 0) as [->|Hk0].
      * change (stream max_iters fuel (Unop (fixed_pqs [m]) 0 0 0 1))
          with (stream 0 fuel (Unop (fixed_pqs [m]) 0 0 0 1)).
        rewrite unop_zero; [rewrite Z.mul_0_r; reflexivity | right; lia | lia].
      * rewrite unop_integer_over_one by lia.
        replace (0 + k * m) with (m * k) by ring. reflexivity.
  - unfold rsub. rewrite unop_integer_over_one by lia.
    replace (k + -1 * m) with (k - m) by ring. reflexivity.
  - unfold __neg__. rewrite unop_integer_over_one by lia.
    replace (0 + -1 * m) with (- m) by ring. reflexivity.
  - unfold __abs__. rewrite H0. destruct (Z.geb_spec m 0) as [Hm|Hm].
    + rewrite Hsrc. replace (Z.abs m) with m by lia. reflexivity.
    + unfold __neg__. rewrite unop_integer_over_one by lia.
      replace (0 + -1 * m) with (Z.abs m) by lia. reflexivity.
Qed.

Lemma integer_arithmetic_exact_witness :
  (4 <= 4)%nat
  /\ stream 100 4 (sub (fixed_pqs [3]) (OInt 5)) = [Some (3 - 5); None].
Proof.
  split; [lia|].
  apply (proj1 (proj2 (integer_arithmetic_exact 100 3 5 4 ltac:(lia)))).
Defined.

(** X17.  Division of and by a value [x] with the single quotient [m].
    [x/k] and [k/x] for an int or long [k] are the canonical expansions of
    [m/k] and [k/m], also with a negative divisor; [x/0], and [k/x] for
    [m = 0] and a nonzero [k], are NaN; but [0/x] is 0 for every [m],
    zero included. *)
Theorem integer_division (max_iters m k : Z) (fuel : nat) :
  (length (ratio m k) + length (ratio k m) + 4 <= fuel)%nat ->
  stream max_iters fuel (div (fixed_pqs [m]) (OInt k)) = map Some (ratio m k) ++ [None]
  /\ (k <> 0 ->
      stream max_iters fuel (rdiv (fixed_pqs [m]) k) = map Some (ratio k m) ++ [None])
  /\ stream max_iters fuel (rdiv (fixed_pqs [m]) 0) = [Some 0; None].
Proof.
  intros Hfuel.
  destruct (fixed_pqs_single m) as [H0 H1].
  split; [|split].
  - unfold div. destruct (Z.eqb_spec k 1) as [->|Hk1].
    + rewrite ratio_denominator_one. apply src_stream_int. lia.
    + destruct (Z.eq_dec k 0) as [->|Hk0].
      * rewrite ratio_zero. destruct fuel as [|fuel]; [lia|]. reflexivity.
      * change (stream max_iters fuel (Unop (fixed_pqs [m]) 1 0 0 k))
          with (stream 0 fuel (Unop (fixed_pqs [m]) 1 0 0 k)).
        replace m with (0 + 1 * m) at 2 by ring.
        apply unop_integer_source; [lia | exact Hk0 |].
        replace (0 + 1 * m) with m by ring. lia.
  - intros Hk. unfold rdiv. rewrite H0.
    change (stream max_iters fuel (Unop (fixed_pqs [m]) 0 k 1 0))
      with (stream 0 fuel (Unop (fixed_pqs [m]) 0 k 1 0)).
    apply unop_reciprocal_integer; [exact Hk | lia].
  - unfold rdiv. rewrite H0.
    change (stream max_iters fuel (Unop (fixed_pqs [m]) 0 0 1 0))
      with (stream 0 fuel (Unop (fixed_pqs [m]) 0 0 1 0)).
    apply unop_zero; [left; lia | lia].
Qed.

Lemma integer_division_witness :
  stream 100 12 (div (fixed_pqs [7]) (OInt (-2))) = [Some (-4); Some 2; None]
  /\ stream 100 12 (rdiv (fixed_pqs [7]) 2) = [Some 0; Some 3; Some 2; None]
  /\ stream 100 12 (rdiv (fixed_pqs [0]) 2) = [None]
  /\ stream 100 12 (rdiv (fixed_pqs [0]) 0) = [Some 0; None].
Proof.
  split; [|split; [|split]].
  - apply (proj1 (integer_division 100 7 (-2) 12 ltac:(vm_compute; repeat constructor))).
  - apply (proj1 (proj2 (integer_division 100 7 2 12
                           ltac:(vm_compute; repeat constructor))) ltac:(lia)).
  - apply (proj1 (proj2 (integer_division 100 0 2 12
                           ltac:(vm_compute; repeat constructor))) ltac:(lia)).
  - apply (proj2 (proj2 (integer_division 100 0 0 12
                           ltac:(vm_compute; repeat constructor)))).
Defined.

(** X18.  Floor division and remainder of a value with the single
    quotient [m] by an int or long [k] follow Python's integers, sign
    convention included; by zero, [//] returns None, no exception is
    raised, and [%] then fails on [None * 0]. *)
Theorem integer_floordiv_mod (max_iters m k : Z) (fuel : nat) :
  (4 <= fuel)%nat ->
  (k <> 0 ->
   __floordiv__ max_iters fuel (fixed_pqs [m]) (OInt k) = Some (Some (m / k))
   /\ exists v, __mod__ max_iters fuel (fixed_pqs [m]) k = Some (ModValue v)
                /\ stream max_iters fuel v = [Some (m mod k); None])
  /\ __floordiv__ max_iters fuel (fixed_pqs [m]) (OInt 0) = Some None
  /\ __mod__ max_iters fuel (fixed_pqs [m]) 0 = Some ModTypeError.
Proof.
  intros Hfuel.
  destruct (fixed_pqs_single m) as [H0 H1].
  assert (Hfloor : k <> 0 ->
            __floordiv__ max_iters fuel (fixed_pqs [m]) (OInt k) = Some (Some (m / k))).
  { intros Hk. unfold __floordiv__, div.
    destruct (Z.eqb_spec k 1) as [->|Hk1].
    - cbn [pq0]. rewrite H0, Z.div_1_r. reflexivity.
    - destruct fuel as [|[|[|fuel]]]; try lia.
      cbn [pq0 first_yield].
      rewrite (proj2 (homographic_one_undefined (fixed_pqs [m]) 0 1 0 0 k)
                 eq_refl Hk ltac:(lia)).
      rewrite H0.
      replace (0 + 1 * m) with m by ring. replace (k + 0 * m) with k by ring.
      rewrite (proj1 (homographic_one_undefined (fixed_pqs [m]) 1 m 1 k 0)
                 Hk eq_refl ltac:(lia)).
      rewrite H1. cbn [Homographic.step]. unfold truthy.
      destruct (Z.eqb_spec k 0); [contradiction | reflexivity]. }
  assert (Hzero : __floordiv__ max_iters fuel (fixed_pqs [m]) (OInt 0) = Some None).
  { unfold __floordiv__, div. destruct fuel as [|fuel]; [lia|]. reflexivity. }
  split; [|split].
  - intros Hk. split; [exact (Hfloor Hk)|].
    exists (sub (fixed_pqs [m]) (OInt (m / k * k))). split.
    + unfold __mod__. rewrite (Hfloor Hk). reflexivity.
    + rewrite (integer_minus_int max_iters m (m / k * k) fuel Hfuel). do 2 f_equal. pose proof (Z.div_mod m k Hk). lia.
  - exact Hzero.
  - unfold __mod__. rewrite Hzero. reflexivity.
Qed.

Lemma integer_floordiv_mod_witness :
  __floordiv__ 100 4 (fixed_pqs [-7]) (OInt 2) = Some (Some (-4))
  /\ exists v, __mod__ 100 4 (fixed_pqs [-7]) 2 = Some (ModValue v)
               /\ stream 100 4 v = [Some 1; None].
Proof.
  apply (proj1 (integer_floordiv_mod 100 (-7) 2 4 ltac:(lia)) ltac:(lia)).
Defined.

(** ** The constructor on integers *)

Lemma float_of_long_small (m : Z) :
  Z.abs m <= 2 ^ 53 -> float_of_long m = Some m.
Proof.
  intros Hm.
  destruct (Z.eq_dec (Z.abs m) (2 ^ 53)) as [Htop|Htop].
  - assert (Hcases : m = 2 ^ 53 \/ m = - 2 ^ 53) by lia.
    destruct Hcases as [-> | ->]; vm_compute; reflexivity.
  - destruct (Z.eq_dec m 0) as [->|Hnz]; [reflexivity|].
    assert (Hlog : Z.log2 (Z.abs m) < 53).
    { apply Z.log2_lt_pow2; lia. }
    unfold float_of_long. cbv zeta.
    replace (Z.max 0 (Z.log2 (Z.abs m) + 1 - 53)) with 0 by lia.
    change (2 ^ 0) with 1.
    rewrite Z.mod_1_r, Z.div_1_r. cbn [Z.mul Z.gtb Z.eqb Z.compare orb andb].
    rewrite Z.mul_1_r.
    destruct (Z.ltb_spec (Z.abs m) (2 ^ 1024)) as [_|Hbig].
    + f_equal. lia.
    + exfalso. assert (2 ^ 53 < 2 ^ 1024) by (apply Z.pow_lt_mono_r; lia). lia.
Qed.

(** Whichever type an integer of at most 53 bits has, [cf] builds the
    value with that single quotient; for a plain int the size plays no
    part. *)
Lemma cf_number_small (x : number) :
  Z.abs (number_value x) <= 2 ^ 53 ->
  cf_number x = Built (fixed_pqs [number_value x]).
Proof.
  intros Hx. destruct x as [z|z]; cbn [cf_number number_value] in *.
  - rewrite ratio_denominator_one. reflexivity.
  - rewrite (float_of_long_small z Hx). reflexivity.
Qed.

(** X27.  The round trip through [cf] and [int].  For a plain int [n],
    and for a long [n] with [|n| <= 2**53], [cf(n)] is the value with the
    single quotient [n] and [int(cf(n))] is [n]. *)
Theorem cf_round_trip (x : number) :
  (exists z, x = PyInt z) \/ Z.abs (number_value x) <= 2 ^ 53 ->
  cf_number x = Built (fixed_pqs [number_value x])
  /\ __int__ (fixed_pqs [number_value x]) = Value (number_value x).
Proof.
  intros Hx. split.
  - destruct Hx as [[z ->]|Hx].
    + cbn [cf_number number_value]. rewrite ratio_denominator_one. reflexivity.
    + apply cf_number_small. exact Hx.
  - unfold __int__, fixed_pqs. cbn [nth_error is_None].
    rewrite orb_true_r. reflexivity.
Qed.

Lemma cf_round_trip_witness :
  cf_number (PyLong (2 ^ 53)) = Built (fixed_pqs [2 ^ 53])
  /\ __int__ (fixed_pqs [2 ^ 53]) = Value (2 ^ 53).
Proof.
  apply (cf_round_trip (PyLong (2 ^ 53))). right. vm_compute. discriminate.
Defined.

(** C6, at the failing input.  In [cf(2**64 + 1)] the numerator is a
    long: [cf.__new__] replaces it by [float(x)], which is [2**64], and
    the value built has the quotients of [2**64], so that [int] gives
    [2**64] back; the Euclidean expansion of [p/q], with [p = 2**64 + 1]
    and [q = 1], is the single quotient [2**64 + 1]. *)
Theorem cf_long_numerator_rounded :
  cf_number (PyLong (2 ^ 64 + 1)) = Built (fixed_pqs [2 ^ 64])
  /\ __int__ (fixed_pqs [2 ^ 64]) = Value (2 ^ 64)
  /\ ratio (2 ^ 64 + 1) 1 = [2 ^ 64 + 1].
Proof.
  split; [vm_compute; reflexivity|].
  split; [vm_compute; reflexivity|].
  apply ratio_denominator_one.
Qed.

(** ** Rounding up *)

(** X19.  [ceil] of a value whose partial quotients are the Euclidean
    expansion of [p/q] returns [cf(c)] for the integer ceiling [c] of
    [p/q], and [ceil] of NaN returns NaN; whichever type, int or long,
    the integer [c] has, [cf(c)] is the value with the single quotient
    [c] when [|c| <= 2**53]. *)
Theorem ceil_of_ratio (p q : Z) :
  q <> 0 ->
  let c := - ((- p) / q) in
  ceil (fixed_pqs (ratio p q)) = Cf c
  /\ ceil NaN = Same NaN
  /\ forall x : number,
       number_value x = c -> Z.abs c <= 2 ^ 53 ->
       cf_number x = Built (fixed_pqs [c]).
Proof.
  intros Hq c. split; [|split; [reflexivity|]].
  - unfold ceil, fixed_pqs.
    rewrite (ratio_nonzero p q Hq). cbn [nth_error].
    destruct (Z.eq_dec (p mod q) 0) as [Hr|Hr].
    + rewrite Hr, ratio_zero. cbn [nth_error is_None]. f_equal. unfold c.
      Z.to_euclidean_division_equations; nia.
    + rewrite (ratio_nonzero q (p mod q) Hr). cbn [nth_error is_None].
      f_equal. unfold c.
      Z.to_euclidean_division_equations; nia.
  - intros x Hx Hc. rewrite <- Hx in *. apply cf_number_small. exact Hc.
Qed.

Lemma ceil_of_ratio_witness :
  -2 <> 0
  /\ ceil (fixed_pqs (ratio 7 (-2))) = Cf (-3)
  /\ cf_number (PyLong (-3)) = Built (fixed_pqs [-3]).
Proof.
  split; [lia|].
  destruct (ceil_of_ratio 7 (-2) ltac:(lia)) as (Hceil & _ & Hcf).
  split; [exact Hceil|].
  apply (Hcf (PyLong (-3))); [reflexivity | vm_compute; discriminate].
Defined.

(** ** Arithmetic on two values with a single quotient *)

Lemma homographic_never_returns (x : nat -> quotient) (s : Homographic.state) :
  Homographic.step x s <> Return.
Proof.
  destruct s as [nx a b c d|nx a b c d|]; cbn [Homographic.step].
  - destruct (Homographic.corners a b c d) as [ac bd].
    destruct (quotient_eqb ac bd).
    + destruct ac, bd; discriminate.
    + destruct (x nx); discriminate.
  - destruct (truthy c); discriminate.
  - discriminate.
Qed.

Lemma observe_resumed {St : Type} (step : St -> resume quotient St)
    (fuel : nat) (s : St) :
  observe step (S fuel) s
  = match step s with
    | Yield None _ => [None]
    | Yield (Some q) s' => Some q :: observe step fuel s'
    | Silent s' => observe step fuel s'
    | Return => []
    | Raise => []
    end.
Proof. reflexivity. Qed.

(** Once an input has ended, the engine yields what the homographic
    engine over the other input yields. *)
Lemma handed_over (x y : nat -> quotient) (r : Bihomographic.regs) (fuel : nat) :
  forall s : Homographic.state,
  observe (Bihomographic.step x y) fuel (Bihomographic.OverY r s)
  = observe (Homographic.step y) fuel s
  /\ observe (Bihomographic.step x y) fuel (Bihomographic.OverX r s)
     = observe (Homographic.step x) fuel s.
Proof.
  induction fuel as [|n IH]; intros s; [split; reflexivity|].
  cbn [observe Bihomographic.step]. split.
  - pose proof (homographic_never_returns y s) as Hret.
    destruct (Homographic.step y s) as [[q|] s'|s'| |]; cbn [Bihomographic.nested];
      try reflexivity; try contradiction.
    + f_equal. apply IH.
    + apply IH.
  - pose proof (homographic_never_returns x s) as Hret.
    destruct (Homographic.step x s) as [[q|] s'|s'| |]; cbn [Bihomographic.nested];
      try reflexivity; try contradiction.
    + f_equal. apply IH.
    + apply IH.
Qed.

Section TwoIntegers.

Import Bihomographic.

Variables (max_iters m n : Z).

Let x := fixed_pqs [m].
Let y := fixed_pqs [n].

Lemma sum_first_bounds (sign : Z) :
  sign <> 0 ->
  corner_bounds (Coeffs 0 1 sign 0 0 0 0 1)
  = Bounds (Some 0) None None None (Some 0) None.
Proof.
  intros Hsign. unfold corner_bounds.
  change (truthy 0) with false. change (truthy 1) with true.
  know_truthy sign. reflexivity.
Qed.

Lemma sum_second_bounds (sign : Z) :
  sign <> 0 ->
  corner_bounds (Coeffs sign m 0 1 0 1 0 0)
  = Bounds (Some m) None (Some m) None None (Some true).
Proof.
  intros Hsign. unfold corner_bounds.
  change (truthy 0) with false. change (truthy 1) with true.
  know_truthy sign. rewrite Z.div_1_r. reflexivity.
Qed.

Lemma sum_turns (sign : Z) (fuel : nat) :
  sign <> 0 -> max_iters <> 0 -> max_iters <> 1 ->
  observe (step x y) (S (S fuel)) (start max_iters (Coeffs 0 1 sign 0 0 0 0 1))
  = observe (Homographic.step y) fuel (Homographic.Loop 0 sign m 0 1).
Proof.
  intros Hsign H0 H1.
  destruct (fixed_pqs_single m) as [Hx0 Hx1].
  unfold start. cbn [observe].
  unfold step at 1. cbn [co]. rewrite (sum_first_bounds sign Hsign).
  cbn [lower upper quotient_eqb undecided iters_left].
  know_truthy max_iters.
  unfold poll. cbn [co with_coeffs nx ny iters_left allowed_iters].
  rewrite (sum_first_bounds sign Hsign).
  cbn [choose_input ingest_x bf cg dh].
  fold x. unfold x at 1. rewrite Hx0.
  replace (ingested_x (Coeffs 0 1 sign 0 0 0 0 1) m)
    with (Coeffs sign m 0 1 0 1 0 0) by (unfold ingested_x; f_equal; ring).
  unfold step at 1. cbn [co]. rewrite (sum_second_bounds sign Hsign).
  cbn [lower upper quotient_eqb undecided iters_left].
  know_truthy (max_iters - 1).
  unfold poll. cbn [co with_coeffs nx ny iters_left allowed_iters].
  rewrite (sum_second_bounds sign Hsign).
  cbn [choose_input ingest_x bf cg dh].
  unfold x at 1. rewrite Hx1.
  cbn [a b e f].
  apply handed_over.
Qed.

(** With [max_iters] 0 or 1 the counter is exhausted before the second
    operand is read: the engine gives up and yields the end marker. *)
Lemma sum_gives_up (sign : Z) (fuel : nat) :
  sign <> 0 -> max_iters = 0 \/ max_iters = 1 ->
  observe (step x y) (S (S fuel)) (start max_iters (Coeffs 0 1 sign 0 0 0 0 1))
  = [None].
Proof.
  intros Hsign Hmax.
  destruct (fixed_pqs_single m) as [Hx0 Hx1].
  unfold start. cbn [observe].
  unfold step at 1. cbn [co]. rewrite (sum_first_bounds sign Hsign).
  cbn [lower upper quotient_eqb undecided iters_left].
  destruct Hmax as [->| ->].
  - reflexivity.
  - change (truthy 1) with true. cbn beta iota.
    unfold poll. cbn [co with_coeffs nx ny iters_left allowed_iters].
    rewrite (sum_first_bounds sign Hsign).
    cbn [choose_input ingest_x bf cg dh].
    fold x. unfold x at 1. rewrite Hx0.
    replace (ingested_x (Coeffs 0 1 sign 0 0 0 0 1) m)
      with (Coeffs sign m 0 1 0 1 0 0) by (unfold ingested_x; f_equal; ring).
    unfold step at 1. cbn [co]. rewrite (sum_second_bounds sign Hsign).
    reflexivity.
Qed.

Lemma product_first_bounds :
  corner_bounds (Coeffs 1 0 0 0 0 0 0 1)
  = Bounds (Some 0) None None None (Some 0) (Some true).
Proof. reflexivity. Qed.

Lemma product_second_bounds :
  corner_bounds (Coeffs m 0 1 0 0 1 0 0)
  = Bounds (Some 0) None (Some 0) None (Some 0) None.
Proof.
  unfold corner_bounds.
  change (truthy 0) with false. change (truthy 1) with true.
  change (0 / 1) with 0.
  destruct (truthy m); reflexivity.
Qed.

Lemma product_third_bounds :
  let bd := corner_bounds (Coeffs (m * n) m n 1 1 0 0 0) in
  lower bd = Some (m * n) /\ upper bd = None /\ undecided bd = true
  /\ choose_input bd = negb (truthy n).
Proof.
  unfold corner_bounds.
  change (truthy 0) with false. change (truthy 1) with true.
  rewrite Z.div_1_r.
  destruct (truthy m), (truthy n); repeat split; reflexivity.
Qed.

Lemma product_turns (fuel : nat) :
  max_iters <> 0 -> max_iters <> 1 -> max_iters <> 2 -> (3 <= fuel)%nat ->
  observe (step x y) (S (S (S fuel))) (start max_iters (Coeffs 1 0 0 0 0 0 0 1))
  = [Some (m * n); None].
Proof.
  intros H0 H1 H2 Hfuel.
  destruct (fixed_pqs_single m) as [Hx0 Hx1]. destruct (fixed_pqs_single n) as [Hy0 Hy1].
  unfold start. cbn [observe].
  unfold step at 1. cbn [co]. rewrite product_first_bounds.
  cbn [lower upper quotient_eqb undecided iters_left].
  know_truthy max_iters.
  unfold poll. cbn [co with_coeffs nx ny iters_left allowed_iters].
  rewrite product_first_bounds.
  cbn [choose_input ingest_x bf cg dh].
  fold x. unfold x at 1. rewrite Hx0.
  replace (ingested_x (Coeffs 1 0 0 0 0 0 0 1) m)
    with (Coeffs m 0 1 0 0 1 0 0) by (unfold ingested_x; f_equal; ring).
  unfold step at 1. cbn [co]. rewrite product_second_bounds.
  cbn [lower upper quotient_eqb undecided iters_left].
  know_truthy (max_iters - 1).
  unfold poll. cbn [co with_coeffs nx ny iters_left allowed_iters].
  rewrite product_second_bounds.
  cbn [choose_input ingest_x bf cg dh].
  fold y. unfold y at 1. rewrite Hy0.
  replace (ingested_y (Coeffs m 0 1 0 0 1 0 0) n)
    with (Coeffs (m * n) m n 1 1 0 0 0) by (unfold ingested_y; f_equal; ring).
  destruct product_third_bounds as (Hlower & Hupper & Hundecided & Hchoice).
  unfold step at 1. cbn [co]. rewrite Hlower, Hupper.
  cbn [quotient_eqb iters_left]. rewrite Hundecided.
  know_truthy (max_iters - 1 - 1).
  unfold poll. cbn [co with_coeffs nx ny iters_left allowed_iters].
  rewrite Hchoice.
  destruct fuel as [|[|[|fuel]]]; try lia.
  unfold truthy. destruct (Z.eqb_spec n 0) as [Hn|Hn]; cbn [negb].
  - unfold x at 1. rewrite Hx1. cbn [a b e f].
    rewrite (proj1 (handed_over x y _ _ _)).
    destruct (Z.eq_dec m 0) as [Hm|Hm].
    + subst m n. change (0 * 0) with 0.
      apply (unop_zero y 1 0 (S (S (S fuel)))); [left; lia | lia].
    + rewrite observe_resumed.
      rewrite (proj1 (homographic_one_undefined y 1 (m * n) m 1 0)
                 ltac:(lia) eq_refl Hm).
      unfold y at 1. rewrite Hy1.
      rewrite homographic_tail_is_ratio.
      rewrite ratio_generator; rewrite ratio_denominator_one;
        [reflexivity | simpl; lia].
  - unfold y at 1. rewrite Hy1. cbn [a c e g].
    rewrite (proj2 (handed_over x y _ _ _)).
    rewrite observe_resumed.
    rewrite (proj1 (homographic_one_undefined x 1 (m * n) n 1 0)
               ltac:(lia) eq_refl Hn).
    unfold x at 1. rewrite Hx1.
    rewrite homographic_tail_is_ratio.
    rewrite ratio_generator; rewrite ratio_denominator_one;
      [reflexivity | simpl; lia].
Qed.

Lemma quotient_first_bounds :
  corner_bounds (Coeffs 0 1 0 0 0 0 1 0)
  = Bounds (Some 0) None None (Some 0) (Some 0) None.
Proof. reflexivity. Qed.

Lemma quotient_second_bounds :
  corner_bounds (Coeffs 0 m 0 1 1 0 0 0)
  = Bounds (Some 0) None None None None (Some true).
Proof.
  unfold corner_bounds.
  change (truthy 0) with false. change (truthy 1) with true.
  change (0 / 1) with 0.
  destruct (truthy m); reflexivity.
Qed.

Lemma quotient_turns (fuel : nat) :
  max_iters <> 0 -> max_iters <> 1 ->
  observe (step x y) (S (S fuel)) (start max_iters (Coeffs 0 1 0 0 0 0 1 0))
  = observe (Homographic.step y) fuel (Homographic.Loop 0 0 m 1 0).
Proof.
  intros H0 H1.
  destruct (fixed_pqs_single m) as [Hx0 Hx1].
  unfold start. cbn [observe].
  unfold step at 1. cbn [co]. rewrite quotient_first_bounds.
  cbn [lower upper quotient_eqb undecided iters_left].
  know_truthy max_iters.
  unfold poll. cbn [co with_coeffs nx ny iters_left allowed_iters].
  rewrite quotient_first_bounds.
  cbn [choose_input ingest_x bf cg dh].
  fold x. unfold x at 1. rewrite Hx0.
  replace (ingested_x (Coeffs 0 1 0 0 0 0 1 0) m)
    with (Coeffs 0 m 0 1 1 0 0 0) by (unfold ingested_x; f_equal; ring).
  unfold step at 1. cbn [co]. rewrite quotient_second_bounds.
  cbn [lower upper quotient_eqb undecided iters_left].
  know_truthy (max_iters - 1).
  unfold poll. cbn [co with_coeffs nx ny iters_left allowed_iters].
  rewrite quotient_second_bounds.
  cbn [choose_input ingest_x bf cg dh].
  unfold x at 1. rewrite Hx1.
  cbn [a b e f].
  apply handed_over.
Qed.

End TwoIntegers.

(** X20.  Arithmetic on two values with a single quotient is exact,
    unless [max_iters] is too small.  For values with the single
    quotients [m] and [n] the binary engine yields the one quotient
    [m + n], [m - n], [m * n], then the end, and for [/] the canonical
    expansion of [m/n] (NaN when [n] is 0), provided [max_iters] is none
    of 0, 1 (and 2 for the product); a negative [max_iters] is as good as
    a large one.  With [max_iters] 0 or 1 the sum and the difference are
    NaN. *)
Theorem integer_values_arithmetic (max_iters m n : Z) (fuel : nat) :
  (length (ratio m n) + 6 <= fuel)%nat ->
  (max_iters <> 0 -> max_iters <> 1 ->
   stream max_iters fuel (add (fixed_pqs [m]) (OCf (fixed_pqs [n]))) = [Some (m + n); None]
   /\ stream max_iters fuel (sub (fixed_pqs [m]) (OCf (fixed_pqs [n]))) = [Some (m - n); None]
   /\ (max_iters <> 2 ->
       stream max_iters fuel (mul (fixed_pqs [m]) (OCf (fixed_pqs [n]))) = [Some (m * n); None])
   /\ stream max_iters fuel (div (fixed_pqs [m]) (OCf (fixed_pqs [n])))
      = map Some (ratio m n) ++ [None])
  /\ (max_iters = 0 \/ max_iters = 1 ->
      stream max_iters fuel (add (fixed_pqs [m]) (OCf (fixed_pqs [n]))) = [None]
      /\ stream max_iters fuel (sub (fixed_pqs [m]) (OCf (fixed_pqs [n]))) = [None]).
Proof.
  intros Hfuel.
  destruct fuel as [|[|[|fuel]]]; try lia.
  destruct (fixed_pqs_single n) as [Hy0 Hy1].
  split.
  - intros H0 H1. split; [|split; [|split]].
    + unfold add. cbn [stream]. rewrite sum_turns by lia.
      change (stream 0 (S fuel) (Unop (fixed_pqs [n]) 1 m 0 1) = [Some (m + n); None]).
      rewrite unop_integer_source; rewrite ?ratio_denominator_one;
        [replace (m + 1 * n) with (m + n) by ring; reflexivity
        | lia | lia | simpl; lia].
    + unfold sub. cbn [stream]. rewrite sum_turns by lia.
      change (stream 0 (S fuel) (Unop (fixed_pqs [n]) (-1) m 0 1) = [Some (m - n); None]).
      rewrite unop_integer_source; rewrite ?ratio_denominator_one;
        [replace (m + -1 * n) with (m - n) by ring; reflexivity
        | lia | lia | simpl; lia].
    + intros H2. unfold mul. cbn [stream]. apply product_turns; try assumption. lia.
    + unfold div. rewrite Hy0, Hy1.
      destruct (Z.eqb_spec n 0) as [->|Hn]; cbn [andb].
      * rewrite ratio_zero. reflexivity.
      * cbn [stream]. rewrite quotient_turns by lia.
        destruct (Z.eq_dec m 0) as [->|Hm].
        -- change (stream 0 (S fuel) (Unop (fixed_pqs [n]) 0 0 1 0)
                   = map Some (ratio 0 n) ++ [None]).
           rewrite unop_zero by (try (left; lia); lia).
           rewrite (ratio_nonzero 0 n Hn), Z.div_0_l, Z.mod_0_l, ratio_zero
             by exact Hn.
           reflexivity.
        -- change (stream 0 (S fuel) (Unop (fixed_pqs [n]) 0 m 1 0)
                   = map Some (ratio m n) ++ [None]).
           apply unop_reciprocal_integer; [exact Hm | lia].
  - intros Hmax. split.
    + unfold add. cbn [stream]. apply sum_gives_up; [lia | exact Hmax].
    + unfold sub. cbn [stream]. apply sum_gives_up; [lia | exact Hmax].
Qed.

Lemma integer_values_arithmetic_witness :
  stream 100 12 (sub (fixed_pqs [3]) (OCf (fixed_pqs [5]))) = [Some (-2); None]
  /\ stream (-1) 12 (mul (fixed_pqs [3]) (OCf (fixed_pqs [5]))) = [Some 15; None]
  /\ stream 100 12 (div (fixed_pqs [7]) (OCf (fixed_pqs [-2]))) = [Some (-4); Some 2; None]
  /\ stream 1 12 (add (fixed_pqs [3]) (OCf (fixed_pqs [5]))) = [None].
Proof.
  split; [|split; [|split]].
  - apply (proj1 (integer_values_arithmetic 100 3 5 12
                    ltac:(vm_compute; repeat constructor)) ltac:(lia) ltac:(lia)).
  - apply (proj1 (integer_values_arithmetic (-1) 3 5 12
                    ltac:(vm_compute; repeat constructor)) ltac:(lia) ltac:(lia));
      lia.
  - apply (proj1 (integer_values_arithmetic 100 7 (-2) 12
                    ltac:(vm_compute; repeat constructor)) ltac:(lia) ltac:(lia)).
  - apply (proj2 (integer_values_arithmetic 1 3 5 12
                    ltac:(vm_compute; repeat constructor)) ltac:(lia)).
Defined.

(** ** Digits of a rational value *)

Lemma floor_between (a b c d X Y g : Z) :
  0 < c -> 0 < d -> 0 < X -> 0 <= Y -> a / c = g -> b / d = g ->
  (a * X + b * Y) / (c * X + d * Y) = g.
Proof.
  intros Hc Hd HX HY Ha Hb.
  pose proof (Z.div_mod a c ltac:(lia)) as Hda.
  pose proof (Z.mod_pos_bound a c Hc) as Hra.
  pose proof (Z.div_mod b d ltac:(lia)) as Hdb.
  pose proof (Z.mod_pos_bound b d Hd) as Hrb.
  rewrite Ha in Hda. rewrite Hb in Hdb.
  symmetry. apply (Z.div_unique_pos _ _ g ((a mod c) * X + (b mod d) * Y)).
  - split.
    + apply Z.add_nonneg_nonneg; apply Z.mul_nonneg_nonneg; lia.
    + assert (H1 : (a mod c) * X < c * X) by (apply Z.mul_lt_mono_pos_r; lia).
      assert (H2 : (b mod d) * Y <= d * Y) by (apply Z.mul_le_mono_nonneg_r; lia).
      lia.
  - rewrite Hda at 1. rewrite Hdb at 1. ring.
Qed.

Section DigitsOfRatio.

Variable base : Z.
Variable x_pq : nat -> quotient.

Lemma digits_turn (a b c d : Z) (o : bool) (nx : nat) (X Y : Z) :
  let s := Digits.Loop a b c d o nx in
  let N := digits_num X Y s in
  let D := digits_den X Y s in
  digits_reading x_pq X Y s ->
  0 < D
  /\ ((a = 0 /\ b = 0
       /\ Digits.step base x_pq s
          = if o then Return else Yield (Some 0) Digits.Last)
      \/ (exists s', Digits.step base x_pq s = Yield (Some (N / D)) s'
                     /\ digits_reading x_pq X Y s'
                     /\ digits_num X Y s' = base * (N mod D)
                     /\ digits_den X Y s' = D
                     /\ (digits_polls X Y s' <= digits_polls X Y s)%nat)
      \/ (exists s' X' Y', Digits.step base x_pq s = Silent s'
                     /\ digits_reading x_pq X' Y' s'
                     /\ digits_num X' Y' s' = N
                     /\ digits_den X' Y' s' = D
                     /\ (digits_polls X' Y' s' < digits_polls X Y s)%nat)).
Proof.
  intros s N D (Hc & Hd & HXY & Hpq). subst s N D.
  cbn [digits_num digits_den].
  assert (HD : 0 < c * X + d * Y).
  { assert (0 < c * X) by (apply Z.mul_pos_pos; lia).
    assert (0 <= d * Y) by (apply Z.mul_nonneg_nonneg; lia). lia. }
  split; [exact HD|].
  assert (Hpoll : (a =? b) && (c =? d) = false ->
            exists s' X' Y',
              match x_pq nx return resume quotient Digits.state with
              | Some ac => Silent (Digits.Loop (b + a * ac) a (d + c * ac) c o (S nx))
              | None => Silent (Digits.Loop a a c c o (S nx))
              end = Silent s'
              /\ digits_reading x_pq X' Y' s'
              /\ digits_num X' Y' s' = a * X + b * Y
              /\ digits_den X' Y' s' = c * X + d * Y
              /\ (digits_polls X' Y' s'
                  < digits_polls X Y (Digits.Loop a b c d o nx))%nat).
  { intros Hflag. pose proof (Hpq 0%nat) as Hhead. rewrite Nat.add_0_r in Hhead.
    destruct (Z.eq_dec Y 0) as [HY|HY].
    - subst Y. rewrite ratio_zero in Hhead. cbn [nth_error] in Hhead.
      rewrite Hhead.
      exists (Digits.Loop a a c c o (S nx)), X, 0. split; [reflexivity|].
      cbn [digits_reading digits_num digits_den digits_polls].
      repeat split; try lia.
      + intros k. specialize (Hpq (S k)). rewrite Nat.add_succ_r in Hpq.
        cbn [Nat.add]. rewrite Hpq, ratio_zero. destruct k; reflexivity.
      + rewrite Hflag, !Z.eqb_refl, ratio_zero. simpl. lia.
    - rewrite (ratio_nonzero X Y HY) in Hhead. cbn [nth_error] in Hhead.
      rewrite Hhead.
      exists (Digits.Loop (b + a * (X / Y)) a (d + c * (X / Y)) c o (S nx)),
        Y, (X mod Y).
      split; [reflexivity|].
      assert (Hq : 0 < X / Y) by (apply Z.div_str_pos; lia).
      pose proof (Z.mod_pos_bound X Y ltac:(lia)) as Hr.
      pose proof (Z.div_mod X Y HY) as Hdm.
      cbn [digits_reading digits_num digits_den digits_polls].
      repeat split; try lia.
      + intros k. specialize (Hpq (S k)). rewrite Nat.add_succ_r in Hpq.
        cbn [Nat.add]. rewrite Hpq, (ratio_nonzero X Y HY). reflexivity.
      + rewrite Hflag, (ratio_nonzero X Y HY). cbn [length].
        destruct ((b + a * (X / Y) =? a) && (d + c * (X / Y) =? c)); lia. }
  unfold Digits.step.
  destruct (truthy a || truthy b) eqn:Hab.
  - right. unfold Digits.corners.
    replace (truthy c) with true
      by (symmetry; apply truthy_true; lia).
    destruct (truthy d) eqn:Hdt.
    + apply truthy_true in Hdt. cbn [quotient_eqb].
      destruct (Z.eqb_spec (a / c) (b / d)) as [Heq|Hne].
      * left.
        exists (Digits.Loop (base * (a - c * (a / c))) (base * (b - d * (b / d)))
                  c d true nx).
        pose proof (floor_between a b c d X Y (a / c) Hc ltac:(lia) ltac:(lia)
                      ltac:(lia) eq_refl (eq_sym Heq)) as Hfloor.
        split; [rewrite Hfloor; reflexivity|].
        cbn [digits_reading digits_num digits_den digits_polls].
        split; [repeat split; try lia; exact Hpq|].
        split; [|split; [reflexivity|]].
        -- rewrite Z.mod_eq by lia. rewrite Hfloor. rewrite <- Heq. ring.
        -- destruct ((a =? b) && (c =? d)) eqn:Hflag.
           ++ apply andb_prop in Hflag. destruct Hflag as [Hab' Hcd'].
              apply Z.eqb_eq in Hab', Hcd'. subst b d.
              rewrite !Z.eqb_refl. simpl. lia.
           ++ destruct ((base * (a - c * (a / c)) =? base * (b - d * (b / d)))
                        && (c =? d)); lia.
      * right. apply Hpoll.
        destruct (Z.eqb_spec a b) as [Hab'|]; [|reflexivity].
        destruct (Z.eqb_spec c d) as [Hcd'|]; [|reflexivity].
        subst b d. contradiction.
    + apply truthy_false in Hdt. subst d.
      assert (Hflag : (a =? b) && (c =? 0) = false).
      { destruct (Z.eqb_spec c 0); [lia|]. apply andb_false_r. }
      destruct (truthy b) eqn:Hbt.
      * right. cbn [quotient_eqb]. apply Hpoll. exact Hflag.
      * apply truthy_false in Hbt. subst b. left.
        cbn [quotient_eqb]. rewrite Z.eqb_refl.
        exists (Digits.Loop (base * (a - c * (a / c))) (base * (0 - 0 * (a / c)))
                  c 0 true nx).
        assert (Hfloor : (a * X + 0 * Y) / (c * X + 0 * Y) = a / c).
        { replace (a * X + 0 * Y) with (a * X) by ring.
          replace (c * X + 0 * Y) with (c * X) by ring.
          apply Z.div_mul_cancel_r; lia. }
        split; [rewrite Hfloor; reflexivity|].
        cbn [digits_reading digits_num digits_den digits_polls].
        split; [repeat split; try lia; exact Hpq|].
        split; [|split; [reflexivity|]].
        -- rewrite Z.mod_eq by lia. rewrite Hfloor. ring.
        -- rewrite Hflag.
           replace ((base * (a - c * (a / c)) =? base * (0 - 0 * (a / c)))
                    && (c =? 0)) with false; [lia|].
           destruct (Z.eqb_spec c 0); [lia|]. symmetry. apply andb_false_r.
  - left. apply orb_false_elim in Hab. destruct Hab as [Ha Hb].
    apply truthy_false in Ha, Hb. subst a b. repeat split; reflexivity.
Qed.

(** What [digits] yields is long division, and it ends only on a zero
    remainder. *)
Lemma digits_sound (fuel : nat) : forall (s : Digits.state) (X Y : Z),
  digits_reading x_pq X Y s ->
  let out := Digits.run base x_pq fuel s in
  out = map Some (long_division base (length out)
                    (digits_num X Y s) (digits_den X Y s))
  /\ (digits_ended base x_pq fuel s = true ->
      remainder base (length out) (digits_num X Y s) (digits_den X Y s) = 0).
Proof.
  induction fuel as [|n IH]; intros s X Y Hinv; [split; [reflexivity | discriminate]|].
  destruct s as [a b c d o nx| |]; try contradiction.
  destruct (digits_turn a b c d o nx X Y Hinv) as (HD & Hcases).
  cbn zeta in HD, Hcases. cbn [digits_num digits_den] in HD.
  cbn zeta. cbn [Digits.run digits_ended].
  destruct Hcases as [(Ha & Hb & Hstep)|[(s' & Hstep & Hinv' & Hnum & Hden & _)
                                        |(s' & X' & Y' & Hstep & Hinv' & Hnum & Hden & _)]].
  - rewrite Hstep. subst a b. cbn [digits_num digits_den].
    replace (0 * X + 0 * Y) with 0 by ring.
    destruct o.
    + split; [reflexivity|]. intros _. reflexivity.
    + assert (Hlast : Digits.run base x_pq n Digits.Last = []).
      { destruct n; reflexivity. }
      rewrite Hlast. cbn [length long_division remainder map].
      rewrite Z.div_0_l, Z.mod_0_l by lia. split; [reflexivity|].
      intros _. ring.
  - rewrite Hstep. destruct (IH s' X Y Hinv') as [Hout Hend].
    cbn zeta in Hout, Hend. rewrite Hnum, Hden in Hout, Hend.
    cbn [length long_division remainder map]. split.
    + f_equal. exact Hout.
    + exact Hend.
  - rewrite Hstep. destruct (IH s' X' Y' Hinv') as [Hout Hend].
    cbn zeta in Hout, Hend. rewrite Hnum, Hden in Hout, Hend.
    split; assumption.
Qed.

(** [digits] goes on: there is a bound on the resumptions it needs for
    [k] digits, unless it ends before. *)
Lemma digits_progress (k fuel : nat) : forall (s : Digits.state) (X Y : Z),
  digits_reading x_pq X Y s ->
  (k + digits_polls X Y s + 2 <= fuel)%nat ->
  (k <= length (Digits.run base x_pq fuel s))%nat
  \/ digits_ended base x_pq fuel s = true.
Proof.
  revert k. induction fuel as [|n IH]; intros k s X Y Hinv Hfuel; [lia|].
  destruct s as [a b c d o nx| |]; try contradiction.
  destruct (digits_turn a b c d o nx X Y Hinv) as (HD & Hcases).
  cbn [Digits.run digits_ended].
  destruct Hcases as [(Ha & Hb & Hstep)|[(s' & Hstep & Hinv' & _ & _ & Hpolls)
                                        |(s' & X' & Y' & Hstep & Hinv' & _ & _ & Hpolls)]].
  - rewrite Hstep. right. destruct o; [reflexivity|].
    destruct n as [|n]; [lia | reflexivity].
  - rewrite Hstep. destruct k as [|k]; [left; lia|].
    destruct (IH k s' X Y Hinv' ltac:(lia)) as [Hlen|Hend].
    + left. cbn [length]. lia.
    + right. exact Hend.
  - rewrite Hstep. apply (IH k s' X' Y' Hinv'). lia.
Qed.

End DigitsOfRatio.

(** X21.  [digits] on a rational value is long division.  For a value
    [x] whose partial quotients are the Euclidean expansion of [p/q],
    [q > 0], what [digits(x, base)] yields is the floor of [p/q] followed
    by the digits that long division of [p] by [q] gives in that base;
    the generator ends only when the remainder is zero, that is when all
    further digits are zero; and [k] digits, or the end, are reached
    within [k + 3] resumptions plus the number of quotients of [p/q]. *)
Theorem digits_of_ratio (base p q : Z) :
  0 < q ->
  (forall fuel,
     let out := Digits.run base (fixed_pqs (ratio p q)) fuel Digits.start in
     out = map Some (long_division base (length out) p q)
     /\ (digits_ended base (fixed_pqs (ratio p q)) fuel Digits.start = true ->
         remainder base (length out) p q = 0))
  /\ (forall k,
        let fuel := (k + length (ratio p q) + 3)%nat in
        (k <= length (Digits.run base (fixed_pqs (ratio p q)) fuel Digits.start))%nat
        \/ digits_ended base (fixed_pqs (ratio p q)) fuel Digits.start = true).
Proof.
  intros Hq.
  pose proof (Z.mod_pos_bound p q Hq) as Hr.
  pose proof (Z.div_mod p q ltac:(lia)) as Hdm.
  set (s1 := Digits.Loop (0 + 1 * (p / q)) 1 (1 + 0 * (p / q)) 0 false 1).
  assert (Hstep : Digits.step base (fixed_pqs (ratio p q)) Digits.start = Silent s1).
  { unfold Digits.start, Digits.step, Digits.corners, fixed_pqs.
    rewrite (ratio_nonzero p q) by lia. reflexivity. }
  assert (Hinv : digits_reading (fixed_pqs (ratio p q)) q (p mod q) s1).
  { unfold s1. cbn [digits_reading]. repeat split; try lia.
    intros k. unfold fixed_pqs. rewrite (ratio_nonzero p q) by lia. reflexivity. }
  assert (Hnum : digits_num q (p mod q) s1 = p).
  { unfold s1. cbn [digits_num]. rewrite Hdm at 3. ring. }
  assert (Hden : digits_den q (p mod q) s1 = q).
  { unfold s1. cbn [digits_den]. ring. }
  split.
  - intros [|n]; [split; [reflexivity | discriminate]|].
    cbn zeta. cbn [Digits.run digits_ended]. rewrite Hstep.
    pose proof (digits_sound base (fixed_pqs (ratio p q)) n s1 q (p mod q) Hinv) as Hsound.
    cbn zeta in Hsound. rewrite Hnum, Hden in Hsound. exact Hsound.
  - intros k. cbn zeta.
    replace (k + length (ratio p q) + 3)%nat
      with (S (k + length (ratio p q) + 2)) by lia.
    cbn [Digits.run digits_ended]. rewrite Hstep.
    apply (digits_progress base (fixed_pqs (ratio p q)) k _ s1 q (p mod q) Hinv).
    unfold s1. cbn [digits_polls].
    rewrite (ratio_nonzero p q) by lia. cbn [length].
    destruct ((0 + 1 * (p / q) =? 1) && (1 + 0 * (p / q) =? 0)); lia.
Qed.

Lemma digits_of_ratio_witness :
  Digits.run 10 (fixed_pqs (ratio 13 8)) 12 Digits.start
  = map Some (long_division 10
                (length (Digits.run 10 (fixed_pqs (ratio 13 8)) 12 Digits.start)) 13 8)
  /\ Digits.run 10 (fixed_pqs (ratio 13 8)) 12 Digits.start
     = [Some 1; Some 6; Some 2; Some 5].
Proof.
  split; [|reflexivity].
  apply (proj1 (proj1 (digits_of_ratio 10 13 8 ltac:(lia)) 12%nat)).
Defined.

(** The last digit [digits] yields can be a zero: 13/50 is 0.26, and the
    digits are 0, 2, 6, 0. *)
Example digits_trailing_zero :
  Digits.run 10 (fixed_pqs (ratio 13 50)) 20 Digits.start
  = [Some 0; Some 2; Some 6; Some 0]
  /\ digits_ended 10 (fixed_pqs (ratio 13 50)) 20 Digits.start = true.
Proof. split; reflexivity. Qed.

(** ** Comparison of rational values *)

Lemma long_cmp_shift (x y x' y' : Z) :
  x - y = x' - y' -> long_cmp x y = long_cmp x' y'.
Proof.
  intros H. unfold long_cmp.
  destruct (Z.compare_spec x y), (Z.compare_spec x' y'); try reflexivity; lia.
Qed.

Lemma long_cmp_floors (X1 Y1 X2 Y2 : Z) :
  0 < Y1 -> 0 < Y2 -> X1 / Y1 <> X2 / Y2 ->
  long_cmp (X1 / Y1) (X2 / Y2) = long_cmp (X1 * Y2) (X2 * Y1).
Proof.
  intros H1 H2 Hne.
  pose proof (Z.div_mod X1 Y1 ltac:(lia)) as Hd1.
  pose proof (Z.mod_pos_bound X1 Y1 H1) as Hr1.
  pose proof (Z.div_mod X2 Y2 ltac:(lia)) as Hd2.
  pose proof (Z.mod_pos_bound X2 Y2 H2) as Hr2.
  unfold long_cmp.
  destruct (Z.compare_spec (X1 / Y1) (X2 / Y2)) as [Heq|Hlt|Hgt];
    [contradiction| |].
  - assert (Hgoal : X1 * Y2 < X2 * Y1).
    { assert (X1 < (X1 / Y1 + 1) * Y1) by nia.
      assert ((X1 / Y1 + 1) * Y1 <= (X2 / Y2) * Y1) by nia.
      assert ((X2 / Y2) * Y2 <= X2) by nia.
      assert (X1 * Y2 < (X2 / Y2) * Y1 * Y2) by nia.
      assert ((X2 / Y2) * Y2 * Y1 <= X2 * Y1) by nia.
      nia. }
    destruct (Z.compare_spec (X1 * Y2) (X2 * Y1)); [lia | reflexivity | lia].
  - assert (Hgoal : X2 * Y1 < X1 * Y2).
    { assert (X2 < (X2 / Y2 + 1) * Y2) by nia.
      assert ((X2 / Y2 + 1) * Y2 <= (X1 / Y1) * Y2) by nia.
      assert ((X1 / Y1) * Y1 <= X1) by nia.
      assert (X2 * Y1 < (X1 / Y1) * Y2 * Y1) by nia.
      assert ((X1 / Y1) * Y1 * Y2 <= X1 * Y2) by nia.
      nia. }
    destruct (Z.compare_spec (X1 * Y2) (X2 * Y1)); [lia | lia | reflexivity].
Qed.

Lemma cmp_loop_ratios (self_pq other_pq : nat -> quotient) (n : nat) :
  forall (i : nat) (X1 Y1 X2 Y2 : Z),
  (forall k, self_pq (i + k)%nat = nth_error (ratio X1 Y1) k) ->
  (forall k, other_pq (i + k)%nat = nth_error (ratio X2 Y2) k) ->
  0 <= Y1 < X1 -> 0 <= Y2 < X2 ->
  (length (ratio X1 Y1) < n)%nat ->
  cmp_loop self_pq other_pq n i
  = CmpInt (alternate i * long_cmp (X1 * Y2) (X2 * Y1)).
Proof.
  induction n as [|n IH]; intros i X1 Y1 X2 Y2 Hself Hother H1 H2 Hlen; [lia|].
  cbn [cmp_loop].
  pose proof (Hself 0%nat) as Hs0. pose proof (Hother 0%nat) as Ho0.
  rewrite Nat.add_0_r in Hs0, Ho0. rewrite Hs0, Ho0.
  destruct (Z.eq_dec Y1 0) as [HY1|HY1], (Z.eq_dec Y2 0) as [HY2|HY2].
  - subst. rewrite !ratio_zero. cbn [nth_error].
    rewrite !Z.mul_0_r. reflexivity.
  - subst Y1. rewrite ratio_zero, (ratio_nonzero X2 Y2 HY2). cbn [nth_error].
    do 2 f_equal. unfold long_cmp.
    assert (0 < X2 / Y2) by (apply Z.div_str_pos; lia).
    assert (0 < X1 * Y2) by (apply Z.mul_pos_pos; lia).
    rewrite Z.mul_0_r.
    destruct (Z.compare_spec (X2 / Y2) 0), (Z.compare_spec (X1 * Y2) 0);
      try reflexivity; lia.
  - subst Y2. rewrite ratio_zero, (ratio_nonzero X1 Y1 HY1). cbn [nth_error].
    do 2 f_equal. unfold long_cmp.
    assert (0 < X1 / Y1) by (apply Z.div_str_pos; lia).
    assert (0 < X2 * Y1) by (apply Z.mul_pos_pos; lia).
    rewrite Z.mul_0_r.
    destruct (Z.compare_spec 0 (X1 / Y1)), (Z.compare_spec 0 (X2 * Y1));
      try reflexivity; lia.
  - rewrite (ratio_nonzero X1 Y1 HY1), (ratio_nonzero X2 Y2 HY2). cbn [nth_error].
    cbn zeta. rewrite long_cmp_truthy.
    destruct (Z.eqb_spec (X1 / Y1) (X2 / Y2)) as [Heq|Hne]; cbn [negb].
    + pose proof (Z.mod_pos_bound X1 Y1 ltac:(lia)) as Hr1.
      pose proof (Z.mod_pos_bound X2 Y2 ltac:(lia)) as Hr2.
      rewrite (IH (S i) Y1 (X1 mod Y1) Y2 (X2 mod Y2)); try lia.
      * rewrite alternate_succ. f_equal.
        rewrite (long_cmp_antisym (Y1 * (X2 mod Y2)) (Y2 * (X1 mod Y1))).
        replace (- alternate i * - long_cmp (Y2 * (X1 mod Y1)) (Y1 * (X2 mod Y2)))
          with (alternate i * long_cmp (Y2 * (X1 mod Y1)) (Y1 * (X2 mod Y2)))
          by ring.
        f_equal. apply long_cmp_shift.
        rewrite !Z.mod_eq by lia. rewrite Heq. ring.
      * intros k. specialize (Hself (S k)). rewrite Nat.add_succ_r in Hself.
        cbn [Nat.add]. rewrite Hself, (ratio_nonzero X1 Y1 HY1). reflexivity.
      * intros k. specialize (Hother (S k)). rewrite Nat.add_succ_r in Hother.
        cbn [Nat.add]. rewrite Hother, (ratio_nonzero X2 Y2 HY2). reflexivity.
      * rewrite (ratio_nonzero X1 Y1 HY1) in Hlen. cbn [length] in Hlen. lia.
    + do 2 f_equal. apply long_cmp_floors; lia.
Qed.



(** ** The homographic engine on a rational input *)

Lemma convergent_cons (q : Z) (rest : list Z) :
  convergent (q :: rest)
  = (q * fst (convergent rest) + snd (convergent rest), fst (convergent rest)).
Proof. cbn [convergent]. destruct (convergent rest). reflexivity. Qed.

Lemma convergent_nonzero (qs : list Z) :
  fst (convergent qs) <> 0 \/ snd (convergent qs) <> 0.
Proof.
  induction qs as [|q rest IH]; [left; discriminate|].
  rewrite convergent_cons. cbn [fst snd]. lia.
Qed.

Lemma convergent_ratio_aux (n : nat) : forall a c : Z,
  (Z.abs_nat c < n)%nat ->
  fst (convergent (ratio a c)) * c = snd (convergent (ratio a c)) * a.
Proof.
  induction n as [|n IH]; intros a c Hn; [lia|].
  destruct (Z.eq_dec c 0) as [->|Hc].
  - rewrite ratio_zero. cbn. ring.
  - rewrite (ratio_nonzero a c Hc), convergent_cons. cbn [fst snd].
    pose proof (Z.mod_bound_or a c Hc) as Hb.
    specialize (IH c (a mod c) ltac:(lia)).
    set (P := fst (convergent (ratio c (a mod c)))) in *.
    set (Q := snd (convergent (ratio c (a mod c)))) in *.
    rewrite Z.mod_eq in IH by exact Hc. lia.
Qed.

Lemma convergent_ratio (a c : Z) :
  fst (convergent (ratio a c)) * c = snd (convergent (ratio a c)) * a.
Proof. apply (convergent_ratio_aux (S (Z.abs_nat c))). lia. Qed.

Section HomographicOnRatio.

Variable x_pq : nat -> quotient.

Lemma expands_silent (s s' : Homographic.state) (N D : Z) :
  Homographic.step x_pq s = Silent s' -> expands x_pq s' N D -> expands x_pq s N D.
Proof.
  intros Hstep (fuel & qs & Hobs & Hval). exists (S fuel), qs.
  split; [|exact Hval]. cbn [observe]. rewrite Hstep. exact Hobs.
Qed.

Lemma expands_yield (s s' : Homographic.state) (g N D : Z) :
  Homographic.step x_pq s = Yield (Some g) s' ->
  expands x_pq s' D (N - g * D) -> expands x_pq s N D.
Proof.
  intros Hstep (fuel & qs & Hobs & Hval). exists (S fuel), (g :: qs).
  split.
  - cbn [observe]. rewrite Hstep, Hobs. reflexivity.
  - rewrite convergent_cons. cbn [fst snd].
    replace (fst (convergent qs) * N)
      with (fst (convergent qs) * (N - g * D) + g * fst (convergent qs) * D)
      by ring.
    rewrite Hval. ring.
Qed.

Lemma expands_tail (nx : nat) (a b c d X : Z) :
  expands x_pq (Homographic.Tail nx a b c d) (a * X) (c * X).
Proof.
  exists (S (length (ratio a c))), (ratio a c). split.
  - rewrite homographic_tail_is_ratio. apply ratio_generator. lia.
  - pose proof (convergent_ratio a c) as H.
    replace (fst (convergent (ratio a c)) * (c * X))
      with (fst (convergent (ratio a c)) * c * X) by ring.
    rewrite H. ring.
Qed.

Lemma homographic_on_ratio (m : nat) : forall (w nx : nat) (a b c d X Y : Z),
  (length (ratio X Y) <= m)%nat ->
  (Z.abs_nat c + Z.abs_nat d <= w)%nat ->
  (forall k, x_pq (nx + k)%nat = nth_error (ratio X Y) k) ->
  expands x_pq (Homographic.Loop nx a b c d) (a * X + b * Y) (c * X + d * Y).
Proof.
  induction m as [m IHm] using lt_wf_ind.
  intros w. induction w as [w IHw] using lt_wf_ind.
  intros nx a b c d X Y Hm Hw Hpq.
  assert (Hpoll :
    Homographic.step x_pq (Homographic.Loop nx a b c d)
    = match x_pq nx with
      | Some q => Silent (Homographic.Loop (S nx) (b + a * q) a (d + c * q) c)
      | None => Silent (Homographic.Tail (S nx) a b c d)
      end ->
    expands x_pq (Homographic.Loop nx a b c d) (a * X + b * Y) (c * X + d * Y)).
  { intros Hstep. pose proof (Hpq 0%nat) as Hhead. rewrite Nat.add_0_r in Hhead.
    destruct (Z.eq_dec Y 0) as [HY|HY].
    - subst Y. rewrite ratio_zero in Hhead. cbn [nth_error] in Hhead.
      rewrite Hhead in Hstep.
      apply (expands_silent _ _ _ _ Hstep).
      replace (a * X + b * 0) with (a * X) by ring.
      replace (c * X + d * 0) with (c * X) by ring.
      apply expands_tail.
    - rewrite (ratio_nonzero X Y HY) in Hhead. cbn [nth_error] in Hhead.
      rewrite Hhead in Hstep.
      apply (expands_silent _ _ _ _ Hstep).
      pose proof (Z.div_mod X Y HY) as Hdm.
      replace (a * X + b * Y)
        with ((b + a * (X / Y)) * Y + a * (X mod Y))
        by (rewrite Hdm at 3; ring).
      replace (c * X + d * Y)
        with ((d + c * (X / Y)) * Y + c * (X mod Y))
        by (rewrite Hdm at 3; ring).
      rewrite (ratio_nonzero X Y HY) in Hm. cbn [length] in Hm.
      apply (IHm (length (ratio Y (X mod Y))) ltac:(lia)
               (Z.abs_nat (d + c * (X / Y)) + Z.abs_nat c)%nat);
        [lia | lia |].
      intros k. specialize (Hpq (S k)). rewrite Nat.add_succ_r in Hpq.
      cbn [Nat.add]. rewrite Hpq, (ratio_nonzero X Y HY). reflexivity. }
  assert (Hemit : forall g : Z,
    Homographic.step x_pq (Homographic.Loop nx a b c d)
    = Yield (Some g) (Homographic.Loop nx c d (a - c * g) (b - d * g)) ->
    (Z.abs_nat (a - c * g) + Z.abs_nat (b - d * g)
     < Z.abs_nat c + Z.abs_nat d)%nat ->
    expands x_pq (Homographic.Loop nx a b c d) (a * X + b * Y) (c * X + d * Y)).
  { intros g Hstep Hless.
    apply (expands_yield _ _ g _ _ Hstep).
    replace (a * X + b * Y - g * (c * X + d * Y))
      with ((a - c * g) * X + (b - d * g) * Y) by ring.
    apply (IHw (Z.abs_nat (a - c * g) + Z.abs_nat (b - d * g))%nat ltac:(lia));
      [exact Hm | lia | exact Hpq]. }
  destruct (Z.eq_dec c 0) as [Hc|Hc], (Z.eq_dec d 0) as [Hd|Hd].
  - exists 1%nat, []. split.
    + cbn [observe].
      rewrite (proj2 (proj2 (homographic_zero_over_zero x_pq nx a b c d)) Hc Hd).
      reflexivity.
    + subst c d. cbn. ring.
  - destruct (Z.eq_dec a 0) as [Ha|Ha].
    + pose proof (proj1 (proj2 (homographic_zero_over_zero x_pq nx a b c d))
                    Hc Hd Ha) as Hstep.
      subst c a.
      apply (Hemit (b / d) Hstep).
      pose proof (Z.mod_bound_or b d Hd) as Hb.
      rewrite Z.mod_eq in Hb by exact Hd. lia.
    + apply Hpoll.
      apply (proj2 (homographic_one_undefined x_pq nx a b c d) Hc Hd Ha).
  - destruct (Z.eq_dec b 0) as [Hb|Hb].
    + pose proof (proj1 (homographic_zero_over_zero x_pq nx a b c d)
                    Hc Hd Hb) as Hstep.
      apply (Hemit (a / c) Hstep).
      subst d b.
      pose proof (Z.mod_bound_or a c Hc) as Hbound.
      rewrite Z.mod_eq in Hbound by exact Hc. lia.
    + apply Hpoll.
      apply (proj1 (homographic_one_undefined x_pq nx a b c d) Hc Hd Hb).
  - pose proof (homographic_both_defined x_pq nx a b c d Hc Hd) as Hstep.
    destruct (Z.eqb_spec (a / c) (b / d)) as [Heq|Hne].
    + apply (Hemit (a / c) Hstep).
      pose proof (Z.mod_bound_or a c Hc) as Hb1.
      pose proof (Z.mod_bound_or b d Hd) as Hb2.
      rewrite Z.mod_eq in Hb1 by exact Hc. rewrite Z.mod_eq in Hb2 by exact Hd.
      rewrite <- Heq in Hb2. lia.
    + apply Hpoll. exact Hstep.
Qed.

End HomographicOnRatio.

(** X23.  The homographic engine is correct on rational input.  For
    every value [x] whose partial quotients are the Euclidean expansion of
    [p/q], and all coefficients, [unop(x, a, b, c, d)] ends, and the
    quotients it yields before the end are an expansion of the fraction
    [(a*p + b*q)/(c*p + d*q)]: the fraction [P/Q] they fold to, which is
    never 0/0, satisfies [P*(c*p + d*q) = Q*(a*p + b*q)].  More
    resumptions change nothing. *)
Theorem unop_of_ratio (a b c d p q : Z) :
  exists (fuel : nat) (qs : list Z),
    (forall more, (fuel <= more)%nat ->
       stream 0 more (Unop (fixed_pqs (ratio p q)) a b c d) = map Some qs ++ [None])
    /\ fst (convergent qs) * (c * p + d * q)
       = snd (convergent qs) * (a * p + b * q)
    /\ (fst (convergent qs) <> 0 \/ snd (convergent qs) <> 0).
Proof.
  destruct (homographic_on_ratio (fixed_pqs (ratio p q)) (length (ratio p q))
              (Z.abs_nat c + Z.abs_nat d) 0 a b c d p q
              (le_n _) (le_n _) (fun k => eq_refl))
    as (fuel & qs & Hobs & Hval).
  exists fuel, qs. split; [|split].
  - intros more Hmore. cbn [stream].
    apply (observe_complete_more_fuel _ fuel _ _ Hobs); [|exact Hmore].
    rewrite last_last. reflexivity.
  - exact Hval.
  - apply convergent_nonzero.
Qed.

Lemma src_stream_list (pq : nat -> quotient) (l : list Z) :
  forall (fuel i : nat),
  (forall k, pq (i + k)%nat = nth_error l k) -> (length l < fuel)%nat ->
  src_stream pq fuel i = map Some l ++ [None].
Proof.
  induction l as [|q l IH]; intros fuel i Hpq Hfuel;
    (destruct fuel as [|fuel]; [simpl in Hfuel; lia|]);
    cbn [src_stream]; pose proof (Hpq 0%nat) as H0; rewrite Nat.add_0_r in H0;
    rewrite H0; cbn [nth_error map app].
  - reflexivity.
  - f_equal. apply IH; [|simpl in Hfuel; lia].
    intros k. specialize (Hpq (S k)). rewrite Nat.add_succ_r in Hpq. exact Hpq.
Qed.

Lemma denotes_ratio (max_iters p q : Z) :
  denotes max_iters (Src (fixed_pqs (ratio p q))) p q.
Proof.
  exists (S (length (ratio p q))), (ratio p q). split; [|split].
  - intros more Hmore. cbn [stream].
    apply src_stream_list; [intros k; reflexivity | lia].
  - apply convergent_ratio.
  - apply convergent_nonzero.
Qed.

Lemma denotes_unop (max_iters a b c d p q : Z) :
  denotes max_iters (Unop (fixed_pqs (ratio p q)) a b c d) (a * p + b * q) (c * p + d * q).
Proof.
  destruct (homographic_on_ratio (fixed_pqs (ratio p q)) (length (ratio p q))
              (Z.abs_nat c + Z.abs_nat d) 0 a b c d p q
              (le_n _) (le_n _) (fun k => eq_refl))
    as (fuel & qs & Hobs & Hval).
  exists fuel, qs. split; [|split].
  - intros more Hmore. cbn [stream].
    apply (observe_complete_more_fuel _ fuel _ _ Hobs); [|exact Hmore].
    rewrite last_last. reflexivity.
  - exact Hval.
  - apply convergent_nonzero.
Qed.

(** The same fraction, written with other integers. *)
Lemma denotes_scaled (max_iters : Z) (v : value) (k N D N' D' : Z) :
  denotes max_iters v N D -> k <> 0 -> N = k * N' -> D = k * D' ->
  denotes max_iters v N' D'.
Proof.
  intros (fuel & qs & Hobs & Hval & Hnz) Hk -> ->.
  exists fuel, qs. split; [exact Hobs|]. split; [|exact Hnz].
  apply (Z.mul_cancel_l _ _ k Hk). lia.
Qed.

Lemma rational_minus_int (max_iters p q k : Z) :
  denotes max_iters (sub (fixed_pqs (ratio p q)) (OInt k)) (p - k * q) q.
Proof.
  unfold sub, truthy. destruct (Z.eqb_spec k 0) as [->|Hk]; cbn [negb].
  - apply (denotes_scaled _ _ 1 p q); [apply denotes_ratio | lia | lia | lia].
  - apply (denotes_scaled _ _ (-1) _ _ _ _
             (denotes_unop max_iters (-1) k 0 (-1) p q)); lia.
Qed.

(** X24.  Arithmetic between a rational value and an int is exact.  For
    a value [x] whose partial quotients are the Euclidean expansion of
    [p/q] and an int or long [k], each of [x + k], [x - k], [x * k],
    [x / k], [k - x], [k / x], [-x] and [abs(x)] ends and is an expansion
    of the fraction that the operation gives on rationals; division by 0
    gives a fraction with denominator 0, that is NaN. *)
Theorem rational_int_arithmetic (max_iters p q k : Z) :
  q <> 0 ->
  denotes max_iters (add (fixed_pqs (ratio p q)) (OInt k)) (p + k * q) q
  /\ denotes max_iters (sub (fixed_pqs (ratio p q)) (OInt k)) (p - k * q) q
  /\ denotes max_iters (mul (fixed_pqs (ratio p q)) (OInt k)) (p * k) q
  /\ denotes max_iters (div (fixed_pqs (ratio p q)) (OInt k)) p (q * k)
  /\ denotes max_iters (rsub (fixed_pqs (ratio p q)) k) (k * q - p) q
  /\ denotes max_iters (rdiv (fixed_pqs (ratio p q)) k) (k * q) p
  /\ denotes max_iters (__neg__ (fixed_pqs (ratio p q))) (- p) q
  /\ denotes max_iters (__abs__ (fixed_pqs (ratio p q))) (Z.abs p) (Z.abs q).
Proof.
  intros Hq.
  assert (H0 : fixed_pqs (ratio p q) 0 = Some (p / q)).
  { unfold fixed_pqs. rewrite (ratio_nonzero p q Hq). reflexivity. }
  repeat split.
  - unfold add, truthy. destruct (Z.eqb_spec k 0) as [->|Hk]; cbn [negb].
    + apply (denotes_scaled _ _ 1 p q); [apply denotes_ratio | lia | lia | lia].
    + apply (denotes_scaled _ _ 1 _ _ _ _ (denotes_unop max_iters 1 k 0 1 p q));
        lia.
  - apply rational_minus_int.
  - unfold mul. rewrite H0. destruct (Z.eqb_spec k 1) as [->|Hk].
    + apply (denotes_scaled _ _ 1 p q); [apply denotes_ratio | lia | lia | lia].
    + apply (denotes_scaled _ _ 1 _ _ _ _ (denotes_unop max_iters k 0 0 1 p q));
        lia.
  - unfold div. destruct (Z.eqb_spec k 1) as [->|Hk].
    + apply (denotes_scaled _ _ 1 p q); [apply denotes_ratio | lia | lia | lia].
    + apply (denotes_scaled _ _ 1 _ _ _ _ (denotes_unop max_iters 1 0 0 k p q));
        lia.
  - unfold rsub.
    apply (denotes_scaled _ _ 1 _ _ _ _ (denotes_unop max_iters (-1) k 0 1 p q));
      lia.
  - unfold rdiv. rewrite H0.
    apply (denotes_scaled _ _ 1 _ _ _ _ (denotes_unop max_iters 0 k 1 0 p q));
      lia.
  - unfold __neg__.
    apply (denotes_scaled _ _ 1 _ _ _ _ (denotes_unop max_iters (-1) 0 0 1 p q));
      lia.
  - unfold __abs__. rewrite H0. destruct (Z.geb_spec (p / q) 0) as [Hfloor|Hfloor].
    + assert (Hsign : 0 <= p * Z.sgn q)
        by (Z.to_euclidean_division_equations; nia).
      apply (denotes_scaled _ _ (Z.sgn q) p q); [apply denotes_ratio | lia | nia | lia].
    + assert (Hsign : p * Z.sgn q < 0)
        by (Z.to_euclidean_division_equations; nia).
      unfold __neg__.
      apply (denotes_scaled _ _ (Z.sgn q) _ _ _ _
               (denotes_unop max_iters (-1) 0 0 1 p q)); [lia | nia | lia].
Qed.

Lemma rational_int_arithmetic_witness :
  denotes 100 (rdiv (fixed_pqs (ratio 3 4)) 2) (2 * 4) 3.
Proof.
  apply (proj1 (proj2 (proj2 (proj2 (proj2 (proj2
           (rational_int_arithmetic 100 3 4 2 ltac:(lia)))))))).
Defined.

Example rational_int_examples :
  stream 100 20 (rdiv (fixed_pqs (ratio 3 4)) 2) = [Some 2; Some 1; Some 2; None]
  /\ stream 100 20 (sub (fixed_pqs (ratio 3 4)) (OInt 2)) = [Some (-2); Some 1; Some 3; None]
  /\ stream 100 20 (mul (fixed_pqs (ratio (-7) 3)) (OInt (-2)))
     = [Some 4; Some 1; Some 2; None].
Proof. repeat split; reflexivity. Qed.

(** X25.  [modf] of a value whose partial quotients are the Euclidean
    expansion of [p/q] returns a fractional part that is an expansion of
    the remainder over the denominator, and [cf(i)] for the integer part
    [i], [p/q] rounded towards zero, so that both carry the sign of the
    value; whichever type the integer [i] has, [cf(i)] is the value with
    the single quotient [i] when [|i| <= 2**53]; on NaN the ValueError of
    [int] is raised. *)
Theorem modf_of_ratio (max_iters p q : Z) :
  q <> 0 ->
  (exists fractional,
     modf (fixed_pqs (ratio p q)) = Value (fractional, Cf (Z.quot p q))
     /\ denotes max_iters fractional (Z.rem p q) q)
  /\ (forall x : number,
        number_value x = Z.quot p q -> Z.abs (Z.quot p q) <= 2 ^ 53 ->
        cf_number x = Built (fixed_pqs [Z.quot p q]))
  /\ modf (fixed_pqs (ratio p 0)) = ValueError.
Proof.
  intros Hq. split; [|split].
  - exists (sub (fixed_pqs (ratio p q)) (OInt (Z.quot p q))). split.
    + unfold modf. rewrite (int_of_ratio_aux p q Hq). reflexivity.
    + replace (Z.rem p q) with (p - Z.quot p q * q)
        by (pose proof (Z.quot_rem' p q); lia).
      apply rational_minus_int.
  - intros x Hx Hi. rewrite <- Hx in *. apply cf_number_small. exact Hi.
  - unfold modf, __int__, fixed_pqs. rewrite ratio_zero. reflexivity.
Qed.

Lemma modf_of_ratio_witness :
  exists fractional,
    modf (fixed_pqs (ratio (-7) 2)) = Value (fractional, Cf (-3))
    /\ denotes 100 fractional (-1) 2.
Proof.
  apply (proj1 (modf_of_ratio 100 (-7) 2 ltac:(lia))).
Defined.
